(** * Phaser.Tween: a shallow embedding of [wip/TS Source/tweens/Tween.ts]

    The tween is a per-frame state machine: [to] configures it, [start]
    snapshots the target, [update] interpolates and decides what happens at
    the end of a leg ([reverse] for yoyo, [reset] for loop, chained starts
    otherwise).

    Modelling choices, all visible in the definitions below:
    - JavaScript numbers are exact rationals ([Qc]); rounding, NaN and the
      infinities are outside the model, so [_duration] is meant to be
      non-zero wherever a quotient is looked at.  A result that JavaScript
      makes NaN or a string (arithmetic on [undefined] or on an array) is
      the single value [VOther].
    - Plain objects are association lists in insertion order, which is the
      order [for ... in] visits string keys.
    - Targets live in a heap and tweens in a store, because chained tweens
      are references (a tween may even chain to itself) and several tweens
      may drive one target.
    - [throw] is an outcome of its own that keeps the state reached so far.
    - Calls on the collaborators that are not part of this file
      ([TweenManager.add], [Signal.dispatch]) are recorded in a trace, in
      the order they are made; what listeners do is not modelled.
    - [to] keeps the property map it is given; the tween is its only
      writer here, so the map is a field of the tween and not a heap object
      shared with the caller.
    - [stop] and [clear], which need the insides of [Signal], are left
      out. *)

From Stdlib Require Import QArith Qcanon List String Bool Arith Lia.
Import ListNotations.

Local Open Scope list_scope.
Local Open Scope Qc_scope.

(** ** Numbers *)

Abbreviation num := Qc (only parsing).

Definition num_of_Z (z : Z) : num := Q2Qc (inject_Z z).

(** [a < b] on numbers. *)
Definition num_ltb (a b : num) : bool :=
  match Qccompare a b with Lt => true | _ => false end.

(** [a == b] on numbers. *)
Definition num_eqb (a b : num) : bool :=
  match Qccompare a b with Eq => true | _ => false end.

(** ** Values and objects *)

Definition ident : Type := string.

#[local] Set Warnings "-register-all".

Inductive value : Type :=
| VUndefined
| VNull
| VNum (x : num)
| VArr (elems : list value)
| VOther.

(** [v === null] *)
Definition is_null (v : value) : bool :=
  match v with VNull => true | _ => false end.

(** [v instanceof Array] *)
Definition is_array (v : value) : bool :=
  match v with VArr _ => true | _ => false end.

(** Numeric reading of an operand of [+], [-], [*]: [null] reads as 0,
    [undefined], arrays and [VOther] do not give a rational. *)
Definition to_number (v : value) : option num :=
  match v with
  | VNum x => Some x
  | VNull => Some 0
  | _ => None
  end.

Definition jsobj : Type := list (ident * value).

Fixpoint obj_lookup (o : jsobj) (k : ident) : option value :=
  match o with
  | [] => None
  | (k', v) :: o' => if String.eqb k' k then Some v else obj_lookup o' k
  end.

(** [o[k]] *)
Definition obj_get (o : jsobj) (k : ident) : value :=
  match obj_lookup o k with Some v => v | None => VUndefined end.

(** [k in o] *)
Definition obj_has (o : jsobj) (k : ident) : bool :=
  match obj_lookup o k with Some _ => true | None => false end.

(** [o[k] = v]: an existing key keeps its place, a new key goes last. *)
Fixpoint obj_set (o : jsobj) (k : ident) (v : value) : jsobj :=
  match o with
  | [] => [(k, v)]
  | (k', v') :: o' =>
      if String.eqb k' k then (k', v) :: o' else (k', v') :: obj_set o' k v
  end.

(** The keys [for (var property in o)] goes through. *)
Definition own_keys (o : jsobj) : list ident := map fst o.

(** ** The tween, the world around it *)

Definition ObjId : Type := nat.
Definition TweenId : Type := nat.

(** The running game; its clock and its tween manager are in [World]. *)
Inductive Game : Type := PhaserGame.

Record Tween : Type := mkTween {
  game : option Game;
  _object : option ObjId;
  _valuesStart : jsobj;
  _valuesEnd : jsobj;
  _duration : num;
  _delayTime : num;
  _startTime : num;          (* [null] before the first start: reads as 0 *)
  _tempElapsed : num;
  _tempValue : num;
  _loop : bool;
  _yoyo : bool;
  _yoyoCount : nat;
  _easingFunction : num -> num;
  _interpolationFunction : list value -> num -> num;
  _chainedTweens : list TweenId;
  isRunning : bool;
  _paused : bool             (* [undefined] before the first pause: falsy *)
}.

Definition set_game (x : option Game) (tw : Tween) : Tween :=
  mkTween x (_object tw) (_valuesStart tw) (_valuesEnd tw) (_duration tw)
    (_delayTime tw) (_startTime tw) (_tempElapsed tw) (_tempValue tw) (_loop tw)
    (_yoyo tw) (_yoyoCount tw) (_easingFunction tw) (_interpolationFunction tw)
    (_chainedTweens tw) (isRunning tw) (_paused tw).

Definition set_valuesStart (x : jsobj) (tw : Tween) : Tween :=
  mkTween (game tw) (_object tw) x (_valuesEnd tw) (_duration tw) (_delayTime tw)
    (_startTime tw) (_tempElapsed tw) (_tempValue tw) (_loop tw) (_yoyo tw)
    (_yoyoCount tw) (_easingFunction tw) (_interpolationFunction tw) (_chainedTweens tw)
    (isRunning tw) (_paused tw).

Definition set_valuesEnd (x : jsobj) (tw : Tween) : Tween :=
  mkTween (game tw) (_object tw) (_valuesStart tw) x (_duration tw) (_delayTime tw)
    (_startTime tw) (_tempElapsed tw) (_tempValue tw) (_loop tw) (_yoyo tw)
    (_yoyoCount tw) (_easingFunction tw) (_interpolationFunction tw) (_chainedTweens tw)
    (isRunning tw) (_paused tw).

Definition set_duration (x : num) (tw : Tween) : Tween :=
  mkTween (game tw) (_object tw) (_valuesStart tw) (_valuesEnd tw) x (_delayTime tw)
    (_startTime tw) (_tempElapsed tw) (_tempValue tw) (_loop tw) (_yoyo tw)
    (_yoyoCount tw) (_easingFunction tw) (_interpolationFunction tw) (_chainedTweens tw)
    (isRunning tw) (_paused tw).

Definition set_delayTime (x : num) (tw : Tween) : Tween :=
  mkTween (game tw) (_object tw) (_valuesStart tw) (_valuesEnd tw) (_duration tw) x
    (_startTime tw) (_tempElapsed tw) (_tempValue tw) (_loop tw) (_yoyo tw)
    (_yoyoCount tw) (_easingFunction tw) (_interpolationFunction tw) (_chainedTweens tw)
    (isRunning tw) (_paused tw).

Definition set_startTime (x : num) (tw : Tween) : Tween :=
  mkTween (game tw) (_object tw) (_valuesStart tw) (_valuesEnd tw) (_duration tw)
    (_delayTime tw) x (_tempElapsed tw) (_tempValue tw) (_loop tw) (_yoyo tw)
    (_yoyoCount tw) (_easingFunction tw) (_interpolationFunction tw) (_chainedTweens tw)
    (isRunning tw) (_paused tw).

Definition set_tempElapsed (x : num) (tw : Tween) : Tween :=
  mkTween (game tw) (_object tw) (_valuesStart tw) (_valuesEnd tw) (_duration tw)
    (_delayTime tw) (_startTime tw) x (_tempValue tw) (_loop tw) (_yoyo tw)
    (_yoyoCount tw) (_easingFunction tw) (_interpolationFunction tw) (_chainedTweens tw)
    (isRunning tw) (_paused tw).

Definition set_tempValue (x : num) (tw : Tween) : Tween :=
  mkTween (game tw) (_object tw) (_valuesStart tw) (_valuesEnd tw) (_duration tw)
    (_delayTime tw) (_startTime tw) (_tempElapsed tw) x (_loop tw) (_yoyo tw)
    (_yoyoCount tw) (_easingFunction tw) (_interpolationFunction tw) (_chainedTweens tw)
    (isRunning tw) (_paused tw).

Definition set_loop (x : bool) (tw : Tween) : Tween :=
  mkTween (game tw) (_object tw) (_valuesStart tw) (_valuesEnd tw) (_duration tw)
    (_delayTime tw) (_startTime tw) (_tempElapsed tw) (_tempValue tw) x (_yoyo tw)
    (_yoyoCount tw) (_easingFunction tw) (_interpolationFunction tw) (_chainedTweens tw)
    (isRunning tw) (_paused tw).

Definition set_yoyo (x : bool) (tw : Tween) : Tween :=
  mkTween (game tw) (_object tw) (_valuesStart tw) (_valuesEnd tw) (_duration tw)
    (_delayTime tw) (_startTime tw) (_tempElapsed tw) (_tempValue tw) (_loop tw) x
    (_yoyoCount tw) (_easingFunction tw) (_interpolationFunction tw) (_chainedTweens tw)
    (isRunning tw) (_paused tw).

Definition set_yoyoCount (x : nat) (tw : Tween) : Tween :=
  mkTween (game tw) (_object tw) (_valuesStart tw) (_valuesEnd tw) (_duration tw)
    (_delayTime tw) (_startTime tw) (_tempElapsed tw) (_tempValue tw) (_loop tw)
    (_yoyo tw) x (_easingFunction tw) (_interpolationFunction tw) (_chainedTweens tw)
    (isRunning tw) (_paused tw).

Definition set_easingFunction (x : num -> num) (tw : Tween) : Tween :=
  mkTween (game tw) (_object tw) (_valuesStart tw) (_valuesEnd tw) (_duration tw)
    (_delayTime tw) (_startTime tw) (_tempElapsed tw) (_tempValue tw) (_loop tw)
    (_yoyo tw) (_yoyoCount tw) x (_interpolationFunction tw) (_chainedTweens tw)
    (isRunning tw) (_paused tw).

Definition set_interpolationFunction (x : list value -> num -> num) (tw : Tween) : Tween :=
  mkTween (game tw) (_object tw) (_valuesStart tw) (_valuesEnd tw) (_duration tw)
    (_delayTime tw) (_startTime tw) (_tempElapsed tw) (_tempValue tw) (_loop tw)
    (_yoyo tw) (_yoyoCount tw) (_easingFunction tw) x (_chainedTweens tw) (isRunning tw)
    (_paused tw).

Definition set_chainedTweens (x : list TweenId) (tw : Tween) : Tween :=
  mkTween (game tw) (_object tw) (_valuesStart tw) (_valuesEnd tw) (_duration tw)
    (_delayTime tw) (_startTime tw) (_tempElapsed tw) (_tempValue tw) (_loop tw)
    (_yoyo tw) (_yoyoCount tw) (_easingFunction tw) (_interpolationFunction tw) x
    (isRunning tw) (_paused tw).

Definition set_isRunning (x : bool) (tw : Tween) : Tween :=
  mkTween (game tw) (_object tw) (_valuesStart tw) (_valuesEnd tw) (_duration tw)
    (_delayTime tw) (_startTime tw) (_tempElapsed tw) (_tempValue tw) (_loop tw)
    (_yoyo tw) (_yoyoCount tw) (_easingFunction tw) (_interpolationFunction tw)
    (_chainedTweens tw) x (_paused tw).

Definition set_paused (x : bool) (tw : Tween) : Tween :=
  mkTween (game tw) (_object tw) (_valuesStart tw) (_valuesEnd tw) (_duration tw)
    (_delayTime tw) (_startTime tw) (_tempElapsed tw) (_tempValue tw) (_loop tw)
    (_yoyo tw) (_yoyoCount tw) (_easingFunction tw) (_interpolationFunction tw)
    (_chainedTweens tw) (isRunning tw) x.

Inductive Event : Type :=
| ManagerAdd (t : TweenId)
| OnStart (t : TweenId) (target : ObjId)
| OnUpdate (t : TweenId) (target : option ObjId) (v : num)
| OnComplete (t : TweenId) (target : option ObjId).

Inductive Error : Type :=
| InterpolationError   (* Error('Phaser.Tween interpolation of null value of non-existing property') *)
| TypeError.           (* property write on a null target *)

Record World : Type := mkWorld {
  time_now : num;
  time_pauseDuration : num;
  objects : ObjId -> jsobj;
  tweens : TweenId -> Tween;
  trace : list Event
}.

Definition upd {A : Type} (f : nat -> A) (k : nat) (v : A) : nat -> A :=
  fun k' => if Nat.eqb k' k then v else f k'.

Definition set_objects (h : ObjId -> jsobj) (w : World) : World :=
  mkWorld (time_now w) (time_pauseDuration w) h (tweens w) (trace w).

Definition set_tweens (s : TweenId -> Tween) (w : World) : World :=
  mkWorld (time_now w) (time_pauseDuration w) (objects w) s (trace w).

Definition set_trace (t : list Event) (w : World) : World :=
  mkWorld (time_now w) (time_pauseDuration w) (objects w) (tweens w) t.

(** ** Outcomes: a call returns or throws, the state goes on either way *)

Inductive Result (A : Type) : Type :=
| Ok (a : A) (w : World)
| Err (e : Error) (w : World).

Arguments Ok {A} a w.
Arguments Err {A} e w.

Definition M (A : Type) : Type := World -> Result A.

Definition ret {A : Type} (a : A) : M A := fun w => Ok a w.

Definition throw {A : Type} (e : Error) : M A := fun w => Err e w.

Definition bind {A B : Type} (m : M A) (k : A -> M B) : M B :=
  fun w => match m w with
           | Ok a w' => k a w'
           | Err e w' => Err e w'
           end.

Notation "x <- m ;; k" := (bind m (fun x => k))
  (at level 61, m at next level, right associativity).
Notation "m ;; k" := (bind m (fun _ => k))
  (at level 61, right associativity).

(** The state an outcome leaves behind. *)
Definition final {A : Type} (r : Result A) : World :=
  match r with Ok _ w => w | Err _ w => w end.

(** What the caller gets: the value returned or the error thrown. *)
Definition outcome {A : Type} (r : Result A) : A + Error :=
  match r with Ok a _ => inl a | Err e _ => inr e end.

Definition modify_tween (this : TweenId) (f : Tween -> Tween) : M unit :=
  fun w => Ok tt (set_tweens (upd (tweens w) this (f (tweens w this))) w).

Definition write_object (o : ObjId) (k : ident) (v : value) : M unit :=
  fun w => Ok tt (set_objects (upd (objects w) o (obj_set (objects w o) k v)) w).

Definition emit (e : Event) : M unit :=
  fun w => Ok tt (set_trace (trace w ++ [e]) w).

Fixpoint for_each {A : Type} (l : list A) (body : A -> M unit) : M unit :=
  match l with
  | [] => ret tt
  | x :: l' => body x ;; for_each l' body
  end.

(** ** Construction

    The defaults of the field initialisers and of the constructor.  The two
    default functions come from [Phaser.Easing.Linear.None] and
    [game.math.linearInterpolation], which are defined elsewhere, so they
    are arguments here. *)
Definition Tween_new (object : option ObjId) (easing : num -> num)
    (interpolation : list value -> num -> num) : Tween :=
  mkTween (Some PhaserGame) object [] [] (num_of_Z 1000) 0 0 0 0
    false false 0%nat easing interpolation [] false false.

(** ** [start]  (lines 185-232) *)

(** One turn of the loop over [_valuesEnd]. *)
Definition start_property (this : TweenId) (target : ObjId) (looped : bool)
    (property : ident) : M unit :=
  fun w =>
    let cur := obj_get (objects w target) property in
    if is_null cur || negb (obj_has (objects w target) property) then
      throw InterpolationError w
    else
      match obj_get (_valuesEnd (tweens w this)) property with
      | VArr [] => ret tt w
      | VArr (k :: ks) =>
          (modify_tween this (fun tw =>
             set_valuesEnd (obj_set (_valuesEnd tw) property (VArr (cur :: k :: ks))) tw) ;;
           if negb looped then
             modify_tween this (fun tw =>
               set_valuesStart (obj_set (_valuesStart tw) property cur) tw)
           else ret tt) w
      | _ =>
          (if negb looped then
             modify_tween this (fun tw =>
               set_valuesStart (obj_set (_valuesStart tw) property cur) tw)
           else ret tt) w
      end.

(** Lines 192-200: registration, start notification, clock, run flag. *)
Definition start_begin (this : TweenId) (target : ObjId) (looped : bool) : M unit :=
  (if negb looped then
     emit (ManagerAdd this) ;; emit (OnStart this target)
   else ret tt) ;;
  (fun w => modify_tween this (fun tw =>
     set_isRunning true (set_startTime (time_now w + _delayTime tw) tw)) w).

(** [None] is the [undefined] that the bare [return] gives. *)
Definition start (this : TweenId) (looped : bool) : M (option TweenId) :=
  fun w =>
    match game (tweens w this), _object (tweens w this) with
    | Some _, Some target =>
        (start_begin this target looped ;;
         (fun w' => for_each (own_keys (_valuesEnd (tweens w' this)))
                      (start_property this target looped) w') ;;
         ret (Some this)) w
    | _, _ => ret None w
    end.

(** ** [to], [loop], [yoyo]  (lines 133-178) *)

Definition to (this : TweenId) (properties : jsobj) (duration : num)
    (ease : option (num -> num)) (autoStart : bool) (delay : num)
    (loop yoyo : bool) : M (option TweenId) :=
  modify_tween this (set_duration duration) ;;
  modify_tween this (set_valuesEnd properties) ;;
  (match ease with
   | Some f => modify_tween this (set_easingFunction f)
   | None => ret tt
   end) ;;
  (if num_ltb 0 delay then modify_tween this (set_delayTime delay) else ret tt) ;;
  modify_tween this (set_loop loop) ;;
  modify_tween this (set_yoyo yoyo) ;;
  modify_tween this (set_yoyoCount 0%nat) ;;
  if autoStart then start this false else ret (Some this).

Definition loop (this : TweenId) (value : bool) : M TweenId :=
  modify_tween this (set_loop value) ;; ret this.

Definition yoyo (this : TweenId) (value : bool) : M TweenId :=
  modify_tween this (set_yoyo value) ;;
  modify_tween this (set_yoyoCount 0%nat) ;;
  ret this.

(** ** [reverse], [reset]  (lines 234-261) *)

Definition reverse_property (this : TweenId) (property : ident) : M unit :=
  fun w =>
    let tempObj := obj_get (_valuesStart (tweens w this)) property in
    (modify_tween this (fun tw =>
       set_valuesStart (obj_set (_valuesStart tw) property
                          (obj_get (_valuesEnd tw) property)) tw) ;;
     modify_tween this (fun tw =>
       set_valuesEnd (obj_set (_valuesEnd tw) property tempObj) tw)) w.

Definition reverse (this : TweenId) : M (option TweenId) :=
  (fun w => for_each (own_keys (_valuesStart (tweens w this)))
              (reverse_property this) w) ;;
  modify_tween this (fun tw => set_yoyoCount (S (_yoyoCount tw)) tw) ;;
  start this true.

Definition reset_property (this : TweenId) (property : ident) : M unit :=
  fun w =>
    match _object (tweens w this) with
    | Some target =>
        write_object target property (obj_get (_valuesStart (tweens w this)) property) w
    | None => throw TypeError w
    end.

Definition reset (this : TweenId) : M (option TweenId) :=
  (fun w => for_each (own_keys (_valuesStart (tweens w this)))
              (reset_property this) w) ;;
  start this true.

(** ** [chain], [pause], [resume]  (lines 329-346) *)

Definition chain (this tween : TweenId) : M TweenId :=
  modify_tween this (fun tw => set_chainedTweens (_chainedTweens tw ++ [tween]) tw) ;;
  ret this.

Definition pause (this : TweenId) : M unit :=
  modify_tween this (set_paused true).

Definition resume (this : TweenId) : M unit :=
  modify_tween this (set_paused false) ;;
  (fun w => modify_tween this (fun tw =>
     set_startTime (_startTime tw + time_pauseDuration w) tw) w).

(** ** The accessors  (lines 293-322) *)

(** [set parent]: the second assignment reads [this.game.tweens], which
    throws when the value just stored is null. *)
Definition set_parent (this : TweenId) (value : option Game) : M unit :=
  modify_tween this (set_game value) ;;
  match value with
  | Some _ => ret tt
  | None => throw TypeError
  end.

Definition set_delay (this : TweenId) (amount : num) : M unit :=
  modify_tween this (set_delayTime amount).

Definition get_delay (this : TweenId) : M num :=
  fun w => ret (_delayTime (tweens w this)) w.

Definition set_easing (this : TweenId) (easing : num -> num) : M unit :=
  modify_tween this (set_easingFunction easing).

Definition set_interpolation (this : TweenId)
    (interpolation : list value -> num -> num) : M unit :=
  modify_tween this (set_interpolationFunction interpolation).

(** The two getters that have no setter-side effect to model. *)
Definition get_easing (this : TweenId) : M (num -> num) :=
  fun w => ret (_easingFunction (tweens w this)) w.

Definition get_interpolation (this : TweenId) : M (list value -> num -> num) :=
  fun w => ret (_interpolationFunction (tweens w this)) w.

(** ** [update]  (lines 355-445) *)

(** [_tempElapsed > 1 ? 1 : _tempElapsed] *)
Definition clamp_elapsed (x : num) : num := if num_ltb 1 x then 1 else x.

(** What line 363 leaves in [_tempElapsed] for a call at [time]. *)
Definition elapsed_at (tw : Tween) (time : num) : num :=
  clamp_elapsed ((time - _startTime tw) / _duration tw).

(** [start + (end - start) * t] of line 376. *)
Definition blend (vstart vend : value) (t : num) : value :=
  match to_number vstart, to_number vend with
  | Some s, Some e => VNum (s + (e - s) * t)
  | _, _ => VOther
  end.

(** The value one turn of the loop over [_valuesStart] assigns. *)
Definition tweened_value (tw : Tween) (property : ident) : value :=
  match obj_get (_valuesEnd tw) property with
  | VArr ks => VNum (_interpolationFunction tw ks (_tempValue tw))
  | vend => blend (obj_get (_valuesStart tw) property) vend (_tempValue tw)
  end.

Definition update_property (this : TweenId) (property : ident) : M unit :=
  fun w =>
    match _object (tweens w this) with
    | Some target => write_object target property (tweened_value (tweens w this) property) w
    | None => throw TypeError w
    end.

(** [for (var i = 0; i < this._chainedTweens.length; i++) this._chainedTweens[i].start()] *)
Definition start_chained (chained : list TweenId) : M unit :=
  for_each chained (fun c => start c false ;; ret tt).

(** Lines 382-441, entered when [_tempElapsed == 1]. *)
Definition update_finish (this : TweenId) : M bool :=
  fun w =>
    let tw := tweens w this in
    if _yoyo tw then
      if Nat.eqb (_yoyoCount tw) 0 then
        (reverse this ;; ret true) w
      else if negb (_loop tw) then
        (emit (OnComplete this (_object tw)) ;;
         start_chained (_chainedTweens tw) ;;
         ret false) w
      else
        (modify_tween this (set_yoyoCount 0%nat) ;;
         reverse this ;;
         ret true) w
    else if _loop tw then
      (modify_tween this (set_yoyoCount 0%nat) ;;
       reset this ;;
       ret true) w
    else
      (emit (OnComplete this (_object tw)) ;;
       start_chained (_chainedTweens tw) ;;
       (fun w' => (if Nat.eqb (List.length (_chainedTweens (tweens w' this))) 0
                   then modify_tween this (set_isRunning false)
                   else ret tt) w') ;;
       ret false) w.

(** Lines 362-380: the interpolation and the update notification. *)
Definition update_values (this : TweenId) (time : num) : M unit :=
  modify_tween this (fun tw => set_tempElapsed (elapsed_at tw time) tw) ;;
  modify_tween this (fun tw => set_tempValue (_easingFunction tw (_tempElapsed tw)) tw) ;;
  (fun w => for_each (own_keys (_valuesStart (tweens w this))) (update_property this) w) ;;
  (fun w => emit (OnUpdate this (_object (tweens w this)) (_tempValue (tweens w this))) w).

Definition update (this : TweenId) (time : num) : M bool :=
  fun w =>
    if _paused (tweens w this) || num_ltb time (_startTime (tweens w this)) then
      ret true w
    else
      (update_values this time ;;
       (fun w' => if num_eqb (_tempElapsed (tweens w' this)) 1
                  then update_finish this w'
                  else ret true w')) w.

(** * Vocabulary of the statements *)

(** ** The state before and the state after a call *)

(** [within R m]: whatever [m] does, returning or throwing, the state it
    leaves is [R]-related to the state it was called in.  [R] is meant to
    be a preorder, so that the rule for sequencing is transitivity. *)
Definition within {A : Type} (R : World -> World -> Prop) (m : M A) : Prop :=
  forall w, R w (final (m w)).

Record preorder (R : World -> World -> Prop) : Prop := {
  pre_refl : forall w, R w w;
  pre_trans : forall w1 w2 w3, R w1 w2 -> R w2 w3 -> R w1 w3
}.

(** [returns P m Q]: from a state in [P], [m] returns (it does not throw)
    and result and state are in [Q]. *)
Definition returns {A : Type} (P : World -> Prop) (m : M A)
    (Q : A -> World -> Prop) : Prop :=
  forall w, P w -> exists a w', m w = Ok a w' /\ Q a w'.

(** [tweenwise F]: every tween of the later state is [F]-related to what it
    was.  With [F] a preorder this covers "keeps the field", "does not
    clear the flag" and the like. *)
Definition tweenwise (F : Tween -> Tween -> Prop) (w w' : World) : Prop :=
  forall j, F (tweens w j) (tweens w' j).

Record tween_preorder (F : Tween -> Tween -> Prop) : Prop := {
  tp_refl : forall tw, F tw tw;
  tp_trans : forall t1 t2 t3, F t1 t2 -> F t2 t3 -> F t1 t3
}.

(** The tween keeps its [proj]. *)
Definition keeps {X : Type} (proj : Tween -> X) (tw tw' : Tween) : Prop :=
  proj tw' = proj tw.

(** The heap of targets and the clock stay as they are. *)
Definition keeps_heap (w w' : World) : Prop :=
  objects w' = objects w /\ time_now w' = time_now w /\
  time_pauseDuration w' = time_pauseDuration w.

(** A running tween stays running. *)
Definition stays_running (tw tw' : Tween) : Prop :=
  isRunning tw = true -> isRunning tw' = true.

(** The assignments [start] makes to a tween are allowed by [F]. *)
Definition start_edits (F : Tween -> Tween -> Prop) : Prop :=
  (forall x tw, F tw (set_valuesStart x tw)) /\
  (forall x tw, F tw (set_valuesEnd x tw)) /\
  (forall t tw, F tw (set_isRunning true (set_startTime t tw))).

(** The fields [start] never assigns are those a projection cannot see
    through the setters [start] uses. *)
Definition start_stable {X : Type} (proj : Tween -> X) : Prop :=
  (forall x tw, proj (set_valuesStart x tw) = proj tw) /\
  (forall x tw, proj (set_valuesEnd x tw) = proj tw) /\
  (forall x tw, proj (set_isRunning x tw) = proj tw) /\
  (forall x tw, proj (set_startTime x tw) = proj tw).

(** ** [start] and the chained starts *)

(** The check of line 205 passes for [property]. *)
Definition key_ok (ob : jsobj) (property : ident) : Prop :=
  is_null (obj_get ob property) || negb (obj_has ob property) = false.

(** State of the loop of [start] once the keys in [done] have had their turn,
    [wa] being the state at loop entry. *)
Definition start_loop_inv (this : TweenId) (target : ObjId) (looped : bool)
    (wa : World) (done : list ident) (w : World) : Prop :=
  objects w = objects wa /\ trace w = trace wa /\ time_now w = time_now wa /\
  time_pauseDuration w = time_pauseDuration wa /\
  (forall j, j <> this -> tweens w j = tweens wa j) /\
  exists vs ve,
    tweens w this = set_valuesStart vs (set_valuesEnd ve (tweens wa this)) /\
    own_keys ve = own_keys (_valuesEnd (tweens wa this)) /\
    (forall q, ~ In q done ->
       obj_lookup vs q = obj_lookup (_valuesStart (tweens wa this)) q /\
       obj_lookup ve q = obj_lookup (_valuesEnd (tweens wa this)) q) /\
    (forall q, is_array (obj_get (_valuesEnd (tweens wa this)) q) = false ->
       obj_get ve q = obj_get (_valuesEnd (tweens wa this)) q) /\
    (looped = true -> vs = _valuesStart (tweens wa this)) /\
    (looped = false -> forall q, In q done ->
       is_array (obj_get (_valuesEnd (tweens wa this)) q) = false ->
       obj_get vs q = obj_get (objects wa target) q).

(** The state [start] has reached when the keys in [done] have had their
    turn, seen from the state [w] it was called in. *)
Definition started (this : TweenId) (target : ObjId) (looped : bool)
    (w : World) (done : list ident) (w' : World) : Prop :=
  let tw := tweens w this in
  objects w' = objects w /\
  trace w' = trace w ++ (if looped then [] else [ManagerAdd this; OnStart this target]) /\
  time_now w' = time_now w /\
  time_pauseDuration w' = time_pauseDuration w /\
  (forall j, j <> this -> tweens w' j = tweens w j) /\
  exists vs ve,
    tweens w' this =
      set_valuesStart vs (set_valuesEnd ve
        (set_isRunning true (set_startTime (time_now w + _delayTime tw) tw))) /\
    own_keys ve = own_keys (_valuesEnd tw) /\
    (forall q, ~ In q done ->
       obj_lookup vs q = obj_lookup (_valuesStart tw) q /\
       obj_lookup ve q = obj_lookup (_valuesEnd tw) q) /\
    (forall q, is_array (obj_get (_valuesEnd tw) q) = false ->
       obj_get ve q = obj_get (_valuesEnd tw) q) /\
    (looped = true -> vs = _valuesStart tw) /\
    (looped = false -> forall q, In q done ->
       is_array (obj_get (_valuesEnd tw) q) = false ->
       obj_get vs q = obj_get (objects w target) q).

(** The start of a chained tween goes through: it is unbound, or every key
    it is to drive is there and not null on its target. *)
Definition startable (w : World) (c : TweenId) : Prop :=
  forall g oc, game (tweens w c) = Some g -> _object (tweens w c) = Some oc ->
    forall q, In q (own_keys (_valuesEnd (tweens w c))) -> key_ok (objects w oc) q.

(** The calls an external [start] of the tweens in [chained] makes on the
    manager and on the start signal. *)
Definition start_events (w : World) (chained : list TweenId) : list Event :=
  flat_map (fun c =>
              match game (tweens w c), _object (tweens w c) with
              | Some _, Some oc => [ManagerAdd c; OnStart c oc]
              | _, _ => []
              end) chained.

(** The state of the loop over the chained tweens once those in [done]
    have been started, seen from the state [w] at loop entry. *)
Definition chain_started (w : World) (done : list TweenId) (w' : World) : Prop :=
  objects w' = objects w /\
  time_now w' = time_now w /\
  time_pauseDuration w' = time_pauseDuration w /\
  trace w' = trace w ++ start_events w done /\
  (forall j, ~ In j done -> tweens w' j = tweens w j) /\
  (forall j, game (tweens w' j) = game (tweens w j) /\
             _object (tweens w' j) = _object (tweens w j) /\
             _delayTime (tweens w' j) = _delayTime (tweens w j) /\
             _chainedTweens (tweens w' j) = _chainedTweens (tweens w j) /\
             own_keys (_valuesEnd (tweens w' j)) = own_keys (_valuesEnd (tweens w j))) /\
  (forall j, isRunning (tweens w j) = true -> isRunning (tweens w' j) = true) /\
  (forall c, In c done -> game (tweens w c) <> None -> _object (tweens w c) <> None ->
     isRunning (tweens w' c) = true /\
     _startTime (tweens w' c) = time_now w + _delayTime (tweens w c)).

(** ** The loops of [update] and [reset] *)

(** The target after the loop of lines 367-378, from the target before. *)
Definition interpolated (tw : Tween) (ob : jsobj) : jsobj :=
  fold_left (fun acc k => obj_set acc k (tweened_value tw k))
            (own_keys (_valuesStart tw)) ob.

(** The target after the loop of lines 254-257, from the target before. *)
Definition restored (tw : Tween) (ob : jsobj) : jsobj :=
  fold_left (fun acc k => obj_set acc k (obj_get (_valuesStart tw) k))
            (own_keys (_valuesStart tw)) ob.

(** What [update_values] does on a tween bound to [o]. *)
Definition interpolation_step (this : TweenId) (o : ObjId) (time : num)
    (w w1 : World) : Prop :=
  let tw := tweens w this in
  let el := elapsed_at tw time in
  let tw1 := set_tempValue (_easingFunction tw el) (set_tempElapsed el tw) in
  tweens w1 this = tw1 /\
  (forall j, j <> this -> tweens w1 j = tweens w j) /\
  objects w1 o = interpolated tw1 (objects w o) /\
  (forall o', o' <> o -> objects w1 o' = objects w o') /\
  trace w1 = trace w ++ [OnUpdate this (Some o) (_easingFunction tw el)] /\
  time_now w1 = time_now w /\
  time_pauseDuration w1 = time_pauseDuration w.

(** The state a plain completion leaves, seen from the state [w] in which
    [update] was called. *)
Definition plain_completed (this : TweenId) (o : ObjId) (w w' : World) : Prop :=
  let tw := tweens w this in
  let tw1 := set_tempValue (_easingFunction tw 1) (set_tempElapsed 1 tw) in
  trace w' = trace w ++ [OnUpdate this (Some o) (_easingFunction tw 1);
                         OnComplete this (Some o)]
                     ++ start_events w (_chainedTweens tw) /\
  (forall c, In c (_chainedTweens tw) ->
     game (tweens w c) <> None -> _object (tweens w c) <> None ->
     isRunning (tweens w' c) = true /\
     _startTime (tweens w' c) = time_now w + _delayTime (tweens w c)) /\
  (_chainedTweens tw = [] -> isRunning (tweens w' this) = false) /\
  (_chainedTweens tw <> [] -> isRunning tw = true -> isRunning (tweens w' this) = true) /\
  objects w' o = interpolated tw1 (objects w o) /\
  (forall o', o' <> o -> objects w' o' = objects w o') /\
  (~ In this (_chainedTweens tw) -> exists r, tweens w' this = set_isRunning r tw1) /\
  (forall c, startable w c -> startable w' c).


(** ** The states a client can reach *)

(** The states a client can bring about: tweens as the constructor leaves
    them, then any calls of the configuration methods and accessors, of an
    external [start] and of [update], with the clock and the targets
    changing in between as they please.  A call that throws leaves its
    state to the calls after it.  [reverse] and [reset] are not among the
    calls: they run only from inside [update]. *)
Inductive reachable : World -> Prop :=
| reach_new (w : World) :
    (forall j, exists object easing interpolation,
        tweens w j = Tween_new object easing interpolation) ->
    reachable w
| reach_to (w : World) this properties duration ease autoStart delay lp yy :
    reachable w ->
    reachable (final (to this properties duration ease autoStart delay lp yy w))
| reach_loop (w : World) this value :
    reachable w -> reachable (final (loop this value w))
| reach_yoyo (w : World) this value :
    reachable w -> reachable (final (yoyo this value w))
| reach_chain (w : World) this tween :
    reachable w -> reachable (final (chain this tween w))
| reach_pause (w : World) this :
    reachable w -> reachable (final (pause this w))
| reach_resume (w : World) this :
    reachable w -> reachable (final (resume this w))
| reach_parent (w : World) this value :
    reachable w -> reachable (final (set_parent this value w))
| reach_delay (w : World) this amount :
    reachable w -> reachable (final (set_delay this amount w))
| reach_easing (w : World) this easing :
    reachable w -> reachable (final (set_easing this easing w))
| reach_interpolation (w : World) this interpolation :
    reachable w -> reachable (final (set_interpolation this interpolation w))
| reach_start (w : World) this :
    reachable w -> reachable (final (start this false w))
| reach_update (w : World) this time :
    reachable w -> reachable (final (update this time w))
| reach_world (w : World) now pauseDuration heap :
    reachable w ->
    reachable (mkWorld now pauseDuration heap (tweens w) (trace w)).

(** No counter is above 1. *)
Definition counts_bounded (w : World) : Prop :=
  forall j, (_yoyoCount (tweens w j) <= 1)%nat.

(** ** Frames: what a call leaves alone *)

(** No tween but [this] changes. *)
Definition only_tween (this : TweenId) (w w' : World) : Prop :=
  forall j, j <> this -> tweens w' j = tweens w j.

(** Nothing is dispatched and nothing is registered. *)
Definition keeps_trace (w w' : World) : Prop := trace w' = trace w.

(** What has been dispatched and registered stays in the record. *)
Definition trace_grows (w w' : World) : Prop := exists l, trace w' = trace w ++ l.

(** The store of tweens stays as it is. *)
Definition keeps_tweens (w w' : World) : Prop := tweens w' = tweens w.

(** The assignments [update] makes to a tween apart from those of [start]
    and [reverse] are allowed by [F]. *)
Definition update_edits (F : Tween -> Tween -> Prop) : Prop :=
  (forall x tw, F tw (set_tempElapsed x tw)) /\
  (forall x tw, F tw (set_tempValue x tw)) /\
  (forall tw, F tw (set_yoyoCount 0%nat tw)) /\
  (forall tw, F tw (set_isRunning false tw)).

(** The fields that no line of [update], [reverse], [reset] or [start]
    assigns are those a projection cannot see through their setters. *)
Definition update_stable {X : Type} (proj : Tween -> X) : Prop :=
  start_stable proj /\
  (forall x tw, proj (set_tempElapsed x tw) = proj tw) /\
  (forall x tw, proj (set_tempValue x tw) = proj tw) /\
  (forall x tw, proj (set_yoyoCount x tw) = proj tw).

(** ** The loops of [start] and [reverse] on the two maps *)

(** One turn of the loop of [start] (lines 211-226), for a key that has
    passed the check of line 205, on the pair of [_valuesStart] and
    [_valuesEnd]; [ob] is the target. *)
Definition start_turn (ob : jsobj) (looped : bool) (maps : jsobj * jsobj)
    (property : ident) : jsobj * jsobj :=
  let cur := obj_get ob property in
  match obj_get (snd maps) property with
  | VArr [] => maps
  | VArr (k :: ks) =>
      ((if looped then fst maps else obj_set (fst maps) property cur),
       obj_set (snd maps) property (VArr (cur :: k :: ks)))
  | _ => ((if looped then fst maps else obj_set (fst maps) property cur), snd maps)
  end.

(** One turn of the loop of [reverse] (lines 240-242) on the same pair. *)
Definition reverse_turn (maps : jsobj * jsobj) (property : ident) : jsobj * jsobj :=
  (obj_set (fst maps) property (obj_get (snd maps) property),
   obj_set (snd maps) property (obj_get (fst maps) property)).

(** Two pairs of maps agree at the key [p]. *)
Definition same_at (p : ident) (m m' : jsobj * jsobj) : Prop :=
  obj_lookup (fst m') p = obj_lookup (fst m) p /\
  obj_lookup (snd m') p = obj_lookup (snd m) p.

(** ** Tweens without a target *)

(** A tween without a target has captured nothing. *)
Definition unbound_blank (w : World) : Prop :=
  forall j, _object (tweens w j) = None -> _valuesStart (tweens w j) = [].

(** The target stays, and a tween without a target that has captured
    nothing still has captured nothing. *)
Definition stays_blank (tw tw' : Tween) : Prop :=
  _object tw' = _object tw /\
  (_object tw = None -> _valuesStart tw = [] -> _valuesStart tw' = []).

(** The error thrown, if any, is not the one of an assignment to a null
    target. *)
Definition no_type_error {A : Type} (r : Result A) : Prop :=
  outcome r <> inr TypeError.

(** ** Fields that are not read *)

(** [forget] erases a field that [start], [reverse], [reset] and the part
    of [update] after line 363 never read: every other field they read can
    be read through it, and what an assignment of theirs leaves, the erased
    field apart, depends on the tween only through it. *)
Record unread (forget : Tween -> Tween) : Prop := {
  un_game : forall tw, game (forget tw) = game tw;
  un_object : forall tw, _object (forget tw) = _object tw;
  un_valuesStart : forall tw, _valuesStart (forget tw) = _valuesStart tw;
  un_valuesEnd : forall tw, _valuesEnd (forget tw) = _valuesEnd tw;
  un_delayTime : forall tw, _delayTime (forget tw) = _delayTime tw;
  un_tempElapsed : forall tw, _tempElapsed (forget tw) = _tempElapsed tw;
  un_tempValue : forall tw, _tempValue (forget tw) = _tempValue tw;
  un_loop : forall tw, _loop (forget tw) = _loop tw;
  un_yoyo : forall tw, _yoyo (forget tw) = _yoyo tw;
  un_yoyoCount : forall tw, _yoyoCount (forget tw) = _yoyoCount tw;
  un_easingFunction : forall tw, _easingFunction (forget tw) = _easingFunction tw;
  un_interpolationFunction :
    forall tw, _interpolationFunction (forget tw) = _interpolationFunction tw;
  un_chainedTweens : forall tw, _chainedTweens (forget tw) = _chainedTweens tw;
  un_set_valuesStart :
    forall x tw, forget (set_valuesStart x tw) = forget (set_valuesStart x (forget tw));
  un_set_valuesEnd :
    forall x tw, forget (set_valuesEnd x tw) = forget (set_valuesEnd x (forget tw));
  un_set_startTime :
    forall x tw, forget (set_startTime x tw) = forget (set_startTime x (forget tw));
  un_set_isRunning :
    forall x tw, forget (set_isRunning x tw) = forget (set_isRunning x (forget tw));
  un_set_tempElapsed :
    forall x tw, forget (set_tempElapsed x tw) = forget (set_tempElapsed x (forget tw));
  un_set_tempValue :
    forall x tw, forget (set_tempValue x tw) = forget (set_tempValue x (forget tw));
  un_set_yoyoCount :
    forall x tw, forget (set_yoyoCount x tw) = forget (set_yoyoCount x (forget tw))
}.

(** Two states that differ in the erased field of their tweens only. *)
Definition alike (forget : Tween -> Tween) (w w' : World) : Prop :=
  time_now w' = time_now w /\
  time_pauseDuration w' = time_pauseDuration w /\
  objects w' = objects w /\
  trace w' = trace w /\
  forall j, forget (tweens w' j) = forget (tweens w j).

(** [m] does not tell two such states apart: same value returned or same
    error thrown, and the states left are again alike. *)
Definition respects (forget : Tween -> Tween) {A : Type} (m : M A) : Prop :=
  forall w w', alike forget w w' ->
    outcome (m w') = outcome (m w) /\ alike forget (final (m w)) (final (m w')).

(** [update] from line 365 on, [_tempElapsed] being set: the body of
    [update] past the assignment of line 363, bracketed the other way. *)
Definition after_elapsed (this : TweenId) : M bool :=
  (modify_tween this (fun tw => set_tempValue (_easingFunction tw (_tempElapsed tw)) tw) ;;
   (fun w => for_each (own_keys (_valuesStart (tweens w this))) (update_property this) w) ;;
   (fun w => emit (OnUpdate this (_object (tweens w this)) (_tempValue (tweens w this))) w)) ;;
  (fun w' => if num_eqb (_tempElapsed (tweens w' this)) 1
             then update_finish this w'
             else ret true w').


(** ** Sample worlds *)

(** [Phaser.Easing.Linear.None] *)
Definition linear_none (k : num) : num := k.

(** A stand-in for the interpolation function: the last keyframe that is
    a number, whatever the progress. *)
Definition last_keyframe (v : list value) (k : num) : num :=
  match last v VUndefined with VNum x => x | _ => 0 end.

Definition fresh_tween (object : option ObjId) : Tween :=
  Tween_new object linear_none last_keyframe.

(** One target [{x: 0, y: 0}] at address 0; tweens 0 and 1 are bound to
    it, every other tween has no target. *)
Definition sample_world : World :=
  mkWorld 0 0
    (upd (fun _ => []) 0%nat [("x"%string, VNum 0); ("y"%string, VNum 0)])
    (upd (upd (fun _ => fresh_tween None) 0%nat (fresh_tween (Some 0%nat)))
         1%nat (fresh_tween (Some 0%nat)))
    [].

(** Tween 0 takes [x] from 0 to 10 in 100 time units, with the default
    easing, and is started. *)
Definition plain_world : World :=
  final (to 0%nat [("x"%string, VNum (num_of_Z 10))] (num_of_Z 100) None true 0 false false
           sample_world).

(** Besides, tween 1 is to take [y] to 5 and is chained to tween 0. *)
Definition chain_world : World :=
  final (chain 0%nat 1%nat
    (final (to 1%nat [("y"%string, VNum (num_of_Z 5))] (num_of_Z 100) None false 0 false false
              plain_world))).

(** The same with tween 0 a yoyo, after the tick that ends its forward
    leg. *)
Definition yoyo_back_world : World :=
  final (update 0%nat (num_of_Z 100)
    (final (yoyo 0%nat true chain_world))).

(** Tween 0 of [sample_world] configured as in [plain_world], not started. *)
Definition configured_world : World :=
  final (to 0%nat [("x"%string, VNum (num_of_Z 10))] (num_of_Z 100) None false 0 false false
           sample_world).

(** Tween 0 of [sample_world] asked to drive [x], [alpha] and [y], in this
    order; the target has no [alpha]. *)
Definition missing_alpha_world : World :=
  final (to 0%nat
           [("x"%string, VNum 1); ("alpha"%string, VNum 1); ("y"%string, VNum 1)]
           (num_of_Z 100) None false 0 false false sample_world).

(** Tween 0 of [sample_world], looping, asked to take [x] through the one
    keyframe 10 in 100 time units, and started. *)
Definition keyframe_loop_world : World :=
  final (to 0%nat [("x"%string, VArr [VNum (num_of_Z 10)])]
           (num_of_Z 100) None true 0 true false sample_world).


(** Tween 0 of [plain_world] made to loop. *)
Definition loop_world : World := final (loop 0%nat true plain_world).

(** Tween 0 of [sample_world] asked to take [x] through the one keyframe
    10, not started. *)
Definition keyframes_world : World :=
  final (to 0%nat [("x"%string, VArr [VNum (num_of_Z 10)])]
           (num_of_Z 100) None false 0 false false sample_world).

(** The same as a yoyo, started. *)
Definition keyframe_yoyo_world : World :=
  final (to 0%nat [("x"%string, VArr [VNum (num_of_Z 10)])]
           (num_of_Z 100) None true 0 false true sample_world).

(** Tween 0 of [sample_world] given an empty keyframe list for [x], not
    started. *)
Definition empty_keyframes_world : World :=
  final (to 0%nat [("x"%string, VArr [])]
           (num_of_Z 100) None false 0 false false sample_world).

(** Tween 0 of [configured_world] with a delay of 30 set through the
    accessor. *)
Definition delayed_world : World := final (set_delay 0%nat (num_of_Z 30) configured_world).

(** ** Tactics *)

(** Settles [start_stable] for a field [start] does not assign. *)
Ltac stable := repeat split; intros; reflexivity.

(** Closed side conditions on the sample worlds are settled by running the
    model. *)
Ltac by_evaluation :=
  lazymatch goal with |- ex _ => fail | |- _ => idtac end;
  vm_compute; first [reflexivity | discriminate].

(** * Properties *)

(** ** Numbers *)

Lemma num_ltb_lt (a b : num) : num_ltb a b = true <-> a < b.
Proof.
  unfold num_ltb. rewrite Qclt_alt. destruct (Qccompare a b); split; congruence.
Qed.

Lemma num_ltb_ge (a b : num) : num_ltb a b = false <-> b <= a.
Proof.
  split; intro H.
  - apply Qcnot_lt_le. intro L. apply num_ltb_lt in L. congruence.
  - destruct (num_ltb a b) eqn:E; [|reflexivity].
    apply num_ltb_lt in E. exfalso. exact (Qcle_not_lt _ _ H E).
Qed.

Lemma num_eqb_eq (a b : num) : num_eqb a b = true <-> a = b.
Proof.
  unfold num_eqb. rewrite Qceq_alt. destruct (Qccompare a b); split; congruence.
Qed.

Lemma num_eqb_refl (a : num) : num_eqb a a = true.
Proof. apply num_eqb_eq. reflexivity. Qed.

Lemma num_eqb_neq (a b : num) : num_eqb a b = false <-> a <> b.
Proof.
  split.
  - intros H E. apply num_eqb_eq in E. congruence.
  - intro H. destruct (num_eqb a b) eqn:E; [|reflexivity].
    apply num_eqb_eq in E. contradiction.
Qed.

Lemma clamp_elapsed_one (x : num) : clamp_elapsed x = 1 <-> 1 <= x.
Proof.
  unfold clamp_elapsed. destruct (num_ltb 1 x) eqn:E.
  - apply num_ltb_lt in E. split; intros _; [apply Qclt_le_weak; exact E | reflexivity].
  - apply num_ltb_ge in E. split; intro H.
    + rewrite H. apply Qcle_refl.
    + apply Qcle_antisym; assumption.
Qed.

Lemma inv_pos (d : num) : 0 < d -> 0 < / d.
Proof.
  intro H. unfold Qclt in *. simpl. rewrite Qred_correct.
  apply Qinv_lt_0_compat. exact H.
Qed.

Lemma pos_nonzero (d : num) : 0 < d -> d <> 0.
Proof.
  intros Hd E. rewrite E in Hd. exact (Qclt_not_le _ _ Hd (Qcle_refl 0)).
Qed.



(** ** Stores and objects *)

Lemma upd_same {A : Type} (f : nat -> A) (k : nat) (v : A) : upd f k v k = v.
Proof. unfold upd. rewrite Nat.eqb_refl. reflexivity. Qed.

Lemma upd_other {A : Type} (f : nat -> A) (k k' : nat) (v : A) :
  k' <> k -> upd f k v k' = f k'.
Proof. intro H. unfold upd. apply Nat.eqb_neq in H. rewrite H. reflexivity. Qed.

Lemma obj_lookup_set_same (o : jsobj) (k : ident) (v : value) :
  obj_lookup (obj_set o k v) k = Some v.
Proof.
  induction o as [|[k' v'] o IH]; simpl.
  - rewrite String.eqb_refl. reflexivity.
  - destruct (String.eqb k' k) eqn:E; simpl; rewrite E; [reflexivity | exact IH].
Qed.

Lemma obj_lookup_set_other (o : jsobj) (k k' : ident) (v : value) :
  k' <> k -> obj_lookup (obj_set o k v) k' = obj_lookup o k'.
Proof.
  intro H. induction o as [|[k0 v0] o IH]; simpl.
  - destruct (String.eqb k k') eqn:E; [|reflexivity].
    apply String.eqb_eq in E. congruence.
  - destruct (String.eqb k0 k) eqn:E; simpl.
    + apply String.eqb_eq in E. subst k0.
      destruct (String.eqb k k') eqn:E'; [|reflexivity].
      apply String.eqb_eq in E'. congruence.
    + destruct (String.eqb k0 k'); [reflexivity | exact IH].
Qed.

Lemma obj_get_set_same (o : jsobj) (k : ident) (v : value) :
  obj_get (obj_set o k v) k = v.
Proof. unfold obj_get. rewrite obj_lookup_set_same. reflexivity. Qed.


Lemma obj_lookup_in_keys (o : jsobj) (k : ident) (v : value) :
  obj_lookup o k = Some v -> In k (own_keys o).
Proof.
  induction o as [|[k' v'] o IH]; simpl; [discriminate|].
  destruct (String.eqb k' k) eqn:E; intro H.
  - left. apply String.eqb_eq. exact E.
  - right. apply IH. exact H.
Qed.

(** Assigning to a key that is there does not change the key list. *)
Lemma own_keys_set_present (o : jsobj) (k : ident) (v : value) :
  In k (own_keys o) -> own_keys (obj_set o k v) = own_keys o.
Proof.
  induction o as [|[k' v'] o IH]; simpl; [tauto|].
  intro H. destruct (String.eqb k' k) eqn:E; simpl; [reflexivity|].
  f_equal. apply IH. destruct H as [H|H]; [|exact H].
  apply String.eqb_neq in E. congruence.
Qed.

(** ** Reasoning about outcomes *)

Section Within.
Variable R : World -> World -> Prop.
Hypothesis HR : preorder R.

Lemma within_ret {A : Type} (a : A) : within R (ret a).
Proof. intro w. apply (pre_refl R HR). Qed.

Lemma within_throw {A : Type} (e : Error) : within R (@throw A e).
Proof. intro w. apply (pre_refl R HR). Qed.

Lemma within_bind {A B : Type} (m : M A) (k : A -> M B) :
  within R m -> (forall a, within R (k a)) -> within R (bind m k).
Proof.
  intros Hm Hk w. unfold bind. specialize (Hm w).
  destruct (m w) as [a w'|e w']; simpl in *.
  - apply (pre_trans R HR _ w'); [exact Hm | apply Hk].
  - exact Hm.
Qed.

Lemma within_for_each {A : Type} (l : list A) (body : A -> M unit) :
  (forall x, within R (body x)) -> within R (for_each l body).
Proof.
  intro H. induction l as [|x l IH]; simpl.
  - apply within_ret.
  - apply within_bind; [apply H | intros _; exact IH].
Qed.
End Within.

Lemma returns_bind {A B : Type} (P : World -> Prop) (m : M A)
    (Q : A -> World -> Prop) (k : A -> M B) (Q' : B -> World -> Prop) :
  returns P m Q -> (forall a, returns (Q a) (k a) Q') -> returns P (bind m k) Q'.
Proof.
  intros Hm Hk w Hw. destruct (Hm w Hw) as (a & w1 & E & Hq).
  destruct (Hk a w1 Hq) as (b & w2 & E' & Hq').
  exists b, w2. unfold bind. rewrite E. auto.
Qed.

Lemma returns_weaken {A : Type} (P P' : World -> Prop) (m : M A)
    (Q Q' : A -> World -> Prop) :
  returns P m Q -> (forall w, P' w -> P w) -> (forall a w, Q a w -> Q' a w) ->
  returns P' m Q'.
Proof.
  intros Hm HP HQ w Hw. destruct (Hm w (HP w Hw)) as (a & w' & E & Hq).
  exists a, w'. auto.
Qed.

(** The loop rule: [I done] holds after the keys in [done] have had their
    turn. *)
Lemma returns_for_each {A : Type} (I : list A -> World -> Prop)
    (body : A -> M unit) (l : list A) :
  (forall done x, In x l -> returns (I done) (body x) (fun _ => I (done ++ [x]))) ->
  forall done, returns (I done) (for_each l body) (fun _ => I (done ++ l)).
Proof.
  induction l as [|x l IH]; intros Hbody done; simpl.
  - intros w Hw. exists tt, w. rewrite app_nil_r. auto.
  - eapply returns_bind.
    + apply Hbody. left. reflexivity.
    + intros u. eapply returns_weaken.
      * apply (IH (fun d y Hy => Hbody d y (or_intror Hy)) (done ++ [x])).
      * auto.
      * intros u' w Hw. rewrite <- app_assoc in Hw. exact Hw.
Qed.

(** ** What a call leaves alone *)

Lemma tweenwise_preorder (F : Tween -> Tween -> Prop) :
  tween_preorder F -> preorder (tweenwise F).
Proof.
  intros [Hr Ht]. split.
  - intros w j. apply Hr.
  - intros w1 w2 w3 H12 H23 j. apply (Ht _ (tweens w2 j)); [apply H12 | apply H23].
Qed.

Lemma keeps_preorder {X : Type} (proj : Tween -> X) : tween_preorder (keeps proj).
Proof.
  split.
  - intros tw. reflexivity.
  - intros t1 t2 t3 H12 H23. unfold keeps in *. congruence.
Qed.

Lemma keeps_heap_preorder : preorder keeps_heap.
Proof.
  split.
  - intros w. repeat split.
  - intros w1 w2 w3 (A & B & C) (A' & B' & C'). repeat split; congruence.
Qed.

Section Tweenwise.
Variable F : Tween -> Tween -> Prop.
Hypothesis HF : tween_preorder F.

Let HR : preorder (tweenwise F) := tweenwise_preorder F HF.

Lemma modify_tween_tweenwise (this : TweenId) (f : Tween -> Tween) :
  (forall tw, F tw (f tw)) -> within (tweenwise F) (modify_tween this f).
Proof.
  intros H w j. simpl. unfold upd. destruct (Nat.eqb j this) eqn:E.
  - apply Nat.eqb_eq in E. subst. apply H.
  - apply (tp_refl F HF).
Qed.

Lemma emit_tweenwise (e : Event) : within (tweenwise F) (emit e).
Proof. intros w j. apply (tp_refl F HF). Qed.

Lemma write_object_tweenwise (o : ObjId) (k : ident) (v : value) :
  within (tweenwise F) (write_object o k v).
Proof. intros w j. apply (tp_refl F HF). Qed.

Hypothesis Hstart : start_edits F.

Lemma start_property_tweenwise (this : TweenId) (target : ObjId) (looped : bool)
    (property : ident) :
  within (tweenwise F) (start_property this target looped property).
Proof.
  destruct Hstart as (Hs & He & _). intro w. unfold start_property.
  destruct (is_null _ || negb _); [apply (within_throw _ HR)|].
  destruct (obj_get (_valuesEnd (tweens w this)) property) as [| |x|[|k ks]|];
    try (destruct looped; simpl negb; cbv iota;
         [apply (within_ret _ HR) | apply modify_tween_tweenwise; intro; apply Hs]).
  - apply (within_ret _ HR).
  - apply (within_bind _ HR); [apply modify_tween_tweenwise; intro; apply He |].
    intros _. destruct looped; simpl negb; cbv iota;
      [apply (within_ret _ HR) | apply modify_tween_tweenwise; intro; apply Hs].
Qed.

Lemma start_tweenwise (this : TweenId) (looped : bool) :
  within (tweenwise F) (start this looped).
Proof.
  intros w. unfold start.
  destruct (game (tweens w this)); [|apply (within_ret _ HR)].
  destruct (_object (tweens w this)) as [target|]; [|apply (within_ret _ HR)].
  apply (within_bind _ HR); [|intros _].
  { apply (within_bind _ HR); [|intros _].
    - destruct looped; simpl negb; cbv iota; [apply (within_ret _ HR)|].
      apply (within_bind _ HR); [apply emit_tweenwise |].
      intros _. apply emit_tweenwise.
    - intro w1; cbv beta. apply modify_tween_tweenwise.
      intro tw. apply Hstart. }
  apply (within_bind _ HR); [|intros _; apply (within_ret _ HR)].
  intro w2; cbv beta. apply (within_for_each _ HR).
  intro property. apply start_property_tweenwise.
Qed.

Lemma start_chained_tweenwise (chained : list TweenId) :
  within (tweenwise F) (start_chained chained).
Proof.
  apply (within_for_each _ HR). intro c.
  apply (within_bind _ HR); [apply start_tweenwise | intros _; apply (within_ret _ HR)].
Qed.

Lemma reset_tweenwise (this : TweenId) : within (tweenwise F) (reset this).
Proof.
  apply (within_bind _ HR); [|intros _; apply start_tweenwise].
  intro w; cbv beta. apply (within_for_each _ HR). intros property w1.
  unfold reset_property. destruct (_object (tweens w1 this));
    [apply write_object_tweenwise | apply (within_throw _ HR)].
Qed.

Lemma reverse_tweenwise (this : TweenId) :
  (forall tw, F tw (set_yoyoCount (S (_yoyoCount tw)) tw)) ->
  within (tweenwise F) (reverse this).
Proof.
  intro Hc. destruct Hstart as (Hs & He & _).
  apply (within_bind _ HR); [|intros _].
  { intro w; cbv beta. apply (within_for_each _ HR). intros property w1.
    unfold reverse_property.
    apply (within_bind _ HR); [|intros _];
      apply modify_tween_tweenwise; intro; [apply Hs | apply He]. }
  apply (within_bind _ HR); [|intros _; apply start_tweenwise].
  apply modify_tween_tweenwise. exact Hc.
Qed.

Lemma update_values_tweenwise (this : TweenId) (time : num) :
  (forall x tw, F tw (set_tempElapsed x tw)) ->
  (forall x tw, F tw (set_tempValue x tw)) ->
  within (tweenwise F) (update_values this time).
Proof.
  intros H1 H2.
  apply (within_bind _ HR); [apply modify_tween_tweenwise; intro; apply H1 | intros _].
  apply (within_bind _ HR); [apply modify_tween_tweenwise; intro; apply H2 | intros _].
  apply (within_bind _ HR); [|intros _; intro w; cbv beta; apply emit_tweenwise].
  intro w; cbv beta. apply (within_for_each _ HR). intros property w1.
  unfold update_property. destruct (_object (tweens w1 this));
    [apply write_object_tweenwise | apply (within_throw _ HR)].
Qed.
End Tweenwise.

Lemma start_stable_edits {X : Type} (proj : Tween -> X) :
  start_stable proj -> start_edits (keeps proj).
Proof.
  intros (Hs & He & Hr & Ht). repeat split; intros; unfold keeps; auto.
  rewrite Hr. apply Ht.
Qed.

Lemma start_keeps {X : Type} (proj : Tween -> X) (this : TweenId) (looped : bool)
    (w : World) (j : TweenId) :
  start_stable proj -> proj (tweens (final (start this looped w)) j) = proj (tweens w j).
Proof.
  intro H.
  apply (start_tweenwise (keeps proj) (keeps_preorder proj) (start_stable_edits proj H)).
Qed.

Lemma start_chained_keeps {X : Type} (proj : Tween -> X) (chained : list TweenId)
    (w : World) (j : TweenId) :
  start_stable proj -> proj (tweens (final (start_chained chained w)) j) = proj (tweens w j).
Proof.
  intro H.
  apply (start_chained_tweenwise (keeps proj) (keeps_preorder proj) (start_stable_edits proj H)).
Qed.

Lemma modify_tween_keeps_heap (this : TweenId) (f : Tween -> Tween) :
  within keeps_heap (modify_tween this f).
Proof. intros w. repeat split. Qed.

Lemma emit_keeps_heap (e : Event) : within keeps_heap (emit e).
Proof. intros w. repeat split. Qed.

Lemma start_keeps_heap (this : TweenId) (looped : bool) :
  within keeps_heap (start this looped).
Proof.
  intros w. pose proof keeps_heap_preorder as HR. unfold start.
  destruct (game (tweens w this)); [|apply (within_ret _ HR)].
  destruct (_object (tweens w this)) as [target|]; [|apply (within_ret _ HR)].
  apply (within_bind _ HR); [|intros _].
  { apply (within_bind _ HR); [|intros _].
    - destruct looped; simpl negb; cbv iota; [apply (within_ret _ HR)|].
      apply (within_bind _ HR); [apply emit_keeps_heap |].
      intros _. apply emit_keeps_heap.
    - intro w1; cbv beta. apply modify_tween_keeps_heap. }
  apply (within_bind _ HR); [|intros _; apply (within_ret _ HR)].
  intro w2; cbv beta. apply (within_for_each _ HR).
  intros property w3. unfold start_property.
  destruct (is_null _ || negb _); [apply (within_throw _ HR)|].
  destruct (obj_get (_valuesEnd (tweens w3 this)) property) as [| |x|[|k ks]|];
    try (destruct looped; simpl negb; cbv iota;
         [apply (within_ret _ HR) | apply modify_tween_keeps_heap]).
  - apply (within_ret _ HR).
  - apply (within_bind _ HR); [apply modify_tween_keeps_heap |].
    intros _. destruct looped; simpl negb; cbv iota;
      [apply (within_ret _ HR) | apply modify_tween_keeps_heap].
Qed.

Lemma start_chained_keeps_heap (chained : list TweenId) :
  within keeps_heap (start_chained chained).
Proof.
  pose proof keeps_heap_preorder as HR.
  apply (within_for_each _ HR). intro c.
  apply (within_bind _ HR); [apply start_keeps_heap | intros _; apply (within_ret _ HR)].
Qed.

Lemma reverse_keeps_heap (this : TweenId) : within keeps_heap (reverse this).
Proof.
  pose proof keeps_heap_preorder as HR.
  apply (within_bind _ HR); [|intros _].
  { intro w; cbv beta. apply (within_for_each _ HR). intros property w1.
    unfold reverse_property.
    apply (within_bind _ HR); [|intros _]; apply modify_tween_keeps_heap. }
  apply (within_bind _ HR); [apply modify_tween_keeps_heap|intros _; apply start_keeps_heap].
Qed.

(** ** [start], key by key *)

Lemma string_eq_dec_cases (a b : ident) : a = b \/ a <> b.
Proof. destruct (string_dec a b); auto. Qed.

Lemma obj_get_in_keys (o : jsobj) (k : ident) :
  obj_get o k <> VUndefined -> In k (own_keys o).
Proof.
  unfold obj_get. destruct (obj_lookup o k) eqn:E; [|congruence].
  intros _. eapply obj_lookup_in_keys. exact E.
Qed.

Lemma start_property_turn (this : TweenId) (target : ObjId) (looped : bool)
    (wa : World) (done : list ident) (x : ident) :
  key_ok (objects wa target) x ->
  returns (start_loop_inv this target looped wa done)
          (start_property this target looped x)
          (fun _ => start_loop_inv this target looped wa (done ++ [x])).
Proof.
  intros Hok w (Ho & Htr & Hn & Hp & Hj & vs & ve & Et & Hk & Hrest & Hsc & Hl & Hcap).
  unfold start_property. rewrite Ho. unfold key_ok in Hok. rewrite Hok.
  rewrite Et. simpl (_valuesEnd _).
  set (cur := obj_get (objects wa target) x).
  assert (Hnew : forall vs' ve',
    own_keys ve' = own_keys ve ->
    (forall q, q <> x -> obj_lookup vs' q = obj_lookup vs q /\ obj_lookup ve' q = obj_lookup ve q) ->
    (is_array (obj_get ve x) = false -> ve' = ve) ->
    (looped = true -> vs' = vs) ->
    (looped = false -> is_array (obj_get ve x) = false -> obj_get vs' x = cur) ->
    forall w', objects w' = objects w -> trace w' = trace w -> time_now w' = time_now w ->
      time_pauseDuration w' = time_pauseDuration w ->
      (forall j, j <> this -> tweens w' j = tweens w j) ->
      tweens w' this = set_valuesStart vs' (set_valuesEnd ve' (tweens wa this)) ->
      start_loop_inv this target looped wa (done ++ [x]) w').
  { intros vs' ve' K1 K2 K3 K4 K5 w' Ho' Htr' Hn' Hp' Hj' Et'.
    unfold start_loop_inv.
    split; [congruence|]. split; [congruence|]. split; [congruence|]. split; [congruence|].
    split; [intros j Hne; rewrite Hj' by exact Hne; apply Hj; exact Hne|].
    exists vs', ve'. split; [exact Et'|]. split; [congruence|].
    split; [|split; [|split]].
    - intros q Hq. assert (q <> x /\ ~ In q done) as (Hqx & Hqd).
      { split; intro; apply Hq; apply in_or_app; [right; left; congruence | left; assumption]. }
      destruct (K2 q Hqx) as (A & B). destruct (Hrest q Hqd) as (A' & B').
      split; congruence.
    - intros q Hq. destruct (string_eq_dec_cases q x) as [->|Hne].
      + rewrite K3; [apply Hsc; exact Hq|]. rewrite Hsc; exact Hq.
      + unfold obj_get at 1. rewrite (proj2 (K2 q Hne)). fold (obj_get ve q). apply Hsc. exact Hq.
    - intro E. rewrite K4 by exact E. apply Hl. exact E.
    - intros E q Hq Hna. apply in_app_or in Hq.
      destruct (string_eq_dec_cases q x) as [->|Hne].
      + apply K5; [exact E|]. rewrite Hsc; exact Hna.
      + unfold obj_get at 1. rewrite (proj1 (K2 q Hne)). fold (obj_get vs q).
        apply Hcap; [exact E| |exact Hna]. destruct Hq as [Hq|[Hq|[]]]; [exact Hq|congruence]. }
  destruct (obj_get ve x) as [| |n|[|k ks]|] eqn:Ev.
  all: try (destruct looped; simpl negb; cbv iota;
    [ exists tt, w; split; [reflexivity|];
      apply (Hnew vs ve); auto; try discriminate; rewrite Et; reflexivity
    | eexists tt, _; split; [reflexivity|];
      apply (Hnew (obj_set vs x cur) ve); simpl; auto; try discriminate;
      [ intros q Hq; split; [apply obj_lookup_set_other; exact Hq | reflexivity]
      | intros _ _; apply obj_get_set_same
      | intros j Hne; apply upd_other; exact Hne
      | rewrite upd_same, Et; reflexivity ] ]).
  - exists tt, w. split; [reflexivity|].
    apply (Hnew vs ve); auto; try discriminate.
  - assert (Hin : In x (own_keys ve)).
    { apply obj_get_in_keys. rewrite Ev. discriminate. }
    destruct looped; simpl negb; cbv iota.
    + eexists tt, _. split; [reflexivity|].
      apply (Hnew vs (obj_set ve x (VArr (cur :: k :: ks)))); simpl; auto; try discriminate.
      * apply own_keys_set_present. exact Hin.
      * intros q Hq. split; [reflexivity | apply obj_lookup_set_other; exact Hq].
      * intros j Hne. apply upd_other. exact Hne.
      * rewrite upd_same, Et. reflexivity.
    + eexists tt, _. split; [reflexivity|].
      apply (Hnew (obj_set vs x cur) (obj_set ve x (VArr (cur :: k :: ks)))); simpl; auto; try discriminate.
      * apply own_keys_set_present. exact Hin.
      * intros q Hq. split; apply obj_lookup_set_other; exact Hq.
      * intros j Hne. rewrite !upd_other by exact Hne. reflexivity.
      * rewrite !upd_same, Et. reflexivity.
Qed.

Lemma tween_eta (tw : Tween) :
  set_valuesStart (_valuesStart tw) (set_valuesEnd (_valuesEnd tw) tw) = tw.
Proof. destruct tw. reflexivity. Qed.

Lemma start_loop_inv_entry (this : TweenId) (target : ObjId) (looped : bool) (wa : World) :
  start_loop_inv this target looped wa [] wa.
Proof.
  unfold start_loop_inv.
  do 4 (split; [reflexivity|]). split; [reflexivity|].
  exists (_valuesStart (tweens wa this)), (_valuesEnd (tweens wa this)).
  split; [symmetry; apply tween_eta|].
  split; [reflexivity|]. split; [auto|]. split; [auto|]. split; [auto|].
  intros _ q [].
Qed.

Lemma start_begin_returns (this : TweenId) (target : ObjId) (looped : bool) (w : World) :
  exists wa, start_begin this target looped w = Ok tt wa /\
    objects wa = objects w /\
    trace wa = trace w ++ (if looped then [] else [ManagerAdd this; OnStart this target]) /\
    time_now wa = time_now w /\
    time_pauseDuration wa = time_pauseDuration w /\
    (forall j, j <> this -> tweens wa j = tweens w j) /\
    tweens wa this =
      set_isRunning true (set_startTime (time_now w + _delayTime (tweens w this)) (tweens w this)).
Proof.
  unfold start_begin, bind. destruct looped; simpl.
  - eexists. split; [reflexivity|]. simpl. rewrite app_nil_r, upd_same.
    repeat split. intros j Hj. apply upd_other. exact Hj.
  - eexists. split; [reflexivity|]. simpl. rewrite <- app_assoc, upd_same.
    repeat split. intros j Hj. apply upd_other. exact Hj.
Qed.

Lemma started_of_loop_inv (this : TweenId) (target : ObjId) (looped : bool)
    (w wa : World) (done : list ident) (w' : World) :
  start_begin this target looped w = Ok tt wa ->
  start_loop_inv this target looped wa done w' ->
  started this target looped w done w'.
Proof.
  intros Eb (Ho & Htr & Hn & Hp & Hj & vs & ve & Et & Hk & Hrest & Hsc & Hl & Hcap).
  destruct (start_begin_returns this target looped w)
    as (wa' & Eb' & Ho' & Htr' & Hn' & Hp' & Hj' & Et').
  rewrite Eb in Eb'. injection Eb' as <-.
  rewrite Et' in *. simpl in *.
  unfold started.
  split; [congruence|]. split; [congruence|]. split; [congruence|]. split; [congruence|].
  split; [intros j Hne; rewrite Hj by exact Hne; apply Hj'; exact Hne|].
  exists vs, ve. rewrite Ho' in Hcap. repeat split; auto; apply Hrest; auto.
Qed.

Lemma for_each_app {A : Type} (l1 l2 : list A) (body : A -> M unit) (w : World) :
  for_each (l1 ++ l2) body w = (for_each l1 body ;; for_each l2 body) w.
Proof.
  revert w. induction l1 as [|x l1 IH]; intro w; simpl.
  - reflexivity.
  - unfold bind in *. destruct (body x w) as [[] w1|e w1]; [|reflexivity].
    apply IH.
Qed.

(** If the check of line 205 passes for every key, [start] returns. *)
Lemma start_returns (this : TweenId) (target : ObjId) (looped : bool) (w : World) :
  game (tweens w this) <> None ->
  _object (tweens w this) = Some target ->
  (forall q, In q (own_keys (_valuesEnd (tweens w this))) -> key_ok (objects w target) q) ->
  exists w', start this looped w = Ok (Some this) w' /\
    started this target looped w (own_keys (_valuesEnd (tweens w this))) w'.
Proof.
  intros Hg Ho Hok. unfold start. rewrite Ho.
  destruct (game (tweens w this)); [|congruence].
  destruct (start_begin_returns this target looped w)
    as (wa & Eb & Hoa & Htr & Hn & Hp & Hj & Et).
  unfold bind at 1. rewrite Eb.
  assert (Ek : own_keys (_valuesEnd (tweens wa this)) = own_keys (_valuesEnd (tweens w this))).
  { rewrite Et. reflexivity. }
  destruct (returns_for_each (start_loop_inv this target looped wa)
              (start_property this target looped)
              (own_keys (_valuesEnd (tweens wa this)))) with (done := @nil ident) (w := wa)
    as ([] & w' & El & Hinv).
  - intros done x Hx. apply start_property_turn. rewrite Hoa. apply Hok.
    rewrite <- Ek. exact Hx.
  - apply start_loop_inv_entry.
  - exists w'. unfold bind. rewrite El. split; [reflexivity|].
    simpl in Hinv. rewrite Ek in Hinv.
    eapply started_of_loop_inv; eassumption.
Qed.

(** At the first key that fails the check, [start] throws, and the state
    is the one the keys before it have left. *)
Lemma start_throws (this : TweenId) (target : ObjId) (looped : bool) (w : World)
    (before after : list ident) (k : ident) :
  game (tweens w this) <> None ->
  _object (tweens w this) = Some target ->
  own_keys (_valuesEnd (tweens w this)) = before ++ k :: after ->
  (forall q, In q before -> key_ok (objects w target) q) ->
  ~ key_ok (objects w target) k ->
  exists w', start this looped w = Err InterpolationError w' /\
    started this target looped w before w'.
Proof.
  intros Hg Ho Hkeys Hok Hbad. unfold start. rewrite Ho.
  destruct (game (tweens w this)); [|congruence].
  destruct (start_begin_returns this target looped w)
    as (wa & Eb & Hoa & Htr & Hn & Hp & Hj & Et).
  assert (Ek : own_keys (_valuesEnd (tweens wa this)) = before ++ k :: after).
  { rewrite Et. exact Hkeys. }
  destruct (returns_for_each (start_loop_inv this target looped wa)
              (start_property this target looped) before) with (done := @nil ident) (w := wa)
    as ([] & w1 & El & Hinv).
  - intros done x Hx. apply start_property_turn. rewrite Hoa. apply Hok. exact Hx.
  - apply start_loop_inv_entry.
  - exists w1.
    assert (Et1 : start_property this target looped k w1 = Err InterpolationError w1).
    { unfold start_property. destruct Hinv as (Ho1 & _). rewrite Ho1, Hoa.
      unfold key_ok in Hbad. destruct (is_null _ || negb _); [reflexivity | congruence]. }
    unfold bind. rewrite Eb, Ek, for_each_app. unfold bind. rewrite El.
    simpl for_each. unfold bind. rewrite Et1. split; [reflexivity|].
    eapply started_of_loop_inv; eassumption.
Qed.

Lemma first_bad_key (h : ObjId -> jsobj) (target : ObjId) (l : list ident) :
  (forall q, In q l -> key_ok (h target) q) \/
  exists before k after, l = before ++ k :: after /\
    (forall q, In q before -> key_ok (h target) q) /\ ~ key_ok (h target) k.
Proof.
  induction l as [|x l IH].
  - left. intros q [].
  - destruct (is_null (obj_get (h target) x) || negb (obj_has (h target) x)) eqn:E.
    + right. exists [], x, l. repeat split.
      * intros q [].
      * unfold key_ok. rewrite E. discriminate.
    + destruct IH as [IH | (before & k & after & El & Hb & Hk)].
      * left. intros q [<- | Hq]; [exact E | apply IH; exact Hq].
      * right. exists (x :: before), k, after. subst l. repeat split.
        -- intros q [<- | Hq]; [exact E | apply Hb; exact Hq].
        -- exact Hk.
Qed.

(** Returning or throwing, [start] on a bound tween ends in a [started]
    state. *)
Lemma start_final (this : TweenId) (target : ObjId) (looped : bool) (w : World) :
  game (tweens w this) <> None ->
  _object (tweens w this) = Some target ->
  exists done, started this target looped w done (final (start this looped w)).
Proof.
  intros Hg Ho.
  destruct (first_bad_key (objects w) target (own_keys (_valuesEnd (tweens w this))))
    as [Hall | (before & k & after & El & Hb & Hk)].
  - destruct (start_returns this target looped w Hg Ho Hall) as (w' & E & H).
    rewrite E. eexists. exact H.
  - destruct (start_throws this target looped w before after k Hg Ho El Hb Hk)
      as (w' & E & H).
    rewrite E. eexists. exact H.
Qed.

(** ** [update], step by step *)

Lemma fold_set_lookup_out (f : ident -> value) (l : list ident) (ob : jsobj) (p : ident) :
  ~ In p l ->
  obj_lookup (fold_left (fun acc k => obj_set acc k (f k)) l ob) p = obj_lookup ob p.
Proof.
  revert ob. induction l as [|x l IH]; intros ob Hp; simpl; [reflexivity|].
  rewrite IH by (intro H; apply Hp; right; exact H).
  apply obj_lookup_set_other. intro E. apply Hp. left. congruence.
Qed.

Lemma fold_set_lookup_in (f : ident -> value) (l : list ident) (ob : jsobj) (p : ident) :
  In p l ->
  obj_lookup (fold_left (fun acc k => obj_set acc k (f k)) l ob) p = Some (f p).
Proof.
  revert ob. induction l as [|x l IH]; intros ob Hp; simpl; [destruct Hp|].
  destruct (in_dec string_dec p l) as [Hin | Hout].
  - apply IH. exact Hin.
  - destruct Hp as [-> | Hp]; [|contradiction].
    rewrite fold_set_lookup_out by exact Hout. apply obj_lookup_set_same.
Qed.


Lemma interpolated_in (tw : Tween) (ob : jsobj) (p : ident) :
  In p (own_keys (_valuesStart tw)) ->
  obj_lookup (interpolated tw ob) p = Some (tweened_value tw p).
Proof. apply fold_set_lookup_in. Qed.

Lemma interpolated_out (tw : Tween) (ob : jsobj) (p : ident) :
  ~ In p (own_keys (_valuesStart tw)) ->
  obj_lookup (interpolated tw ob) p = obj_lookup ob p.
Proof. apply fold_set_lookup_out. Qed.


Lemma tweened_value_not_null (tw : Tween) (p : ident) :
  is_null (tweened_value tw p) = false.
Proof.
  unfold tweened_value, blend.
  destruct (obj_get (_valuesEnd tw) p); try reflexivity;
    destruct (to_number (obj_get (_valuesStart tw) p)); reflexivity.
Qed.

Lemma interpolated_key_ok (tw : Tween) (ob : jsobj) (q : ident) :
  key_ok ob q -> key_ok (interpolated tw ob) q.
Proof.
  unfold key_ok. intro H.
  destruct (in_dec string_dec q (own_keys (_valuesStart tw))) as [Hin | Hout].
  - unfold obj_get, obj_has. rewrite (interpolated_in tw ob q Hin).
    rewrite tweened_value_not_null. reflexivity.
  - unfold obj_get, obj_has. rewrite (interpolated_out tw ob q Hout). exact H.
Qed.

(** A loop whose turns each assign one property of the target of a bound
    tween: the loops of [update] and of [reset]. *)
Lemma write_loop_returns (this : TweenId) (o : ObjId) (body : ident -> M unit)
    (f : Tween -> ident -> value) (l : list ident) (w : World) :
  (forall k w0, _object (tweens w0 this) = Some o ->
     body k w0 = write_object o k (f (tweens w0 this) k) w0) ->
  _object (tweens w this) = Some o ->
  exists w1, for_each l body w = Ok tt w1 /\
    tweens w1 = tweens w /\ trace w1 = trace w /\ time_now w1 = time_now w /\
    time_pauseDuration w1 = time_pauseDuration w /\
    (forall o', o' <> o -> objects w1 o' = objects w o') /\
    objects w1 o =
      fold_left (fun acc k => obj_set acc k (f (tweens w this) k)) l (objects w o).
Proof.
  intro Hbody. revert w. induction l as [|x l IH]; intros w Ho; simpl.
  - exists w. repeat split.
  - unfold bind. rewrite (Hbody x w Ho). simpl.
    set (w' := set_objects _ w).
    destruct (IH w') as (w1 & E & Ht & Htr & Hn & Hp & Hoth & Hobj); [exact Ho|].
    exists w1. split; [exact E|]. repeat split; try assumption.
    + intros o' Hne. rewrite Hoth by exact Hne. simpl. apply upd_other. exact Hne.
    + rewrite Hobj. simpl. rewrite upd_same. reflexivity.
Qed.

(** The loop of lines 367-378 on a bound tween. *)
Lemma update_loop_returns (this : TweenId) (o : ObjId) (l : list ident) (w : World) :
  _object (tweens w this) = Some o ->
  exists w1, for_each l (update_property this) w = Ok tt w1 /\
    tweens w1 = tweens w /\ trace w1 = trace w /\ time_now w1 = time_now w /\
    time_pauseDuration w1 = time_pauseDuration w /\
    (forall o', o' <> o -> objects w1 o' = objects w o') /\
    objects w1 o =
      fold_left (fun acc k => obj_set acc k (tweened_value (tweens w this) k)) l (objects w o).
Proof.
  intro Ho. apply (write_loop_returns this o (update_property this) tweened_value); [|exact Ho].
  intros k w0 H0. unfold update_property. rewrite H0. reflexivity.
Qed.

(** Lines 362-380 on a bound tween: the state at the update notification. *)
Lemma update_values_returns (this : TweenId) (o : ObjId) (time : num) (w : World) :
  _object (tweens w this) = Some o ->
  let tw := tweens w this in
  let el := elapsed_at tw time in
  let tw1 := set_tempValue (_easingFunction tw el) (set_tempElapsed el tw) in
  exists w1, update_values this time w = Ok tt w1 /\
    tweens w1 this = tw1 /\
    (forall j, j <> this -> tweens w1 j = tweens w j) /\
    objects w1 o = interpolated tw1 (objects w o) /\
    (forall o', o' <> o -> objects w1 o' = objects w o') /\
    trace w1 = trace w ++ [OnUpdate this (Some o) (_easingFunction tw el)] /\
    time_now w1 = time_now w /\
    time_pauseDuration w1 = time_pauseDuration w.
Proof.
  intros Ho tw el tw1. unfold update_values, bind, modify_tween. cbv beta iota.
  match goal with
  | |- context [for_each ?l _ ?w0] => remember w0 as wa eqn:Ewa
  end.
  assert (Ea : tweens wa this = tw1).
  { subst wa. simpl. rewrite !upd_same. reflexivity. }
  assert (Hja : forall j, j <> this -> tweens wa j = tweens w j).
  { intros j Hj. subst wa. simpl. rewrite !upd_other by exact Hj. reflexivity. }
  assert (Hwa : objects wa = objects w /\ trace wa = trace w /\ time_now wa = time_now w /\
                time_pauseDuration wa = time_pauseDuration w).
  { subst wa. repeat split. }
  destruct Hwa as (Hoa' & Htra & Hna & Hpa). clear Ewa.
  assert (Hoa : _object (tweens wa this) = Some o).
  { rewrite Ea. exact Ho. }
  destruct (update_loop_returns this o (own_keys (_valuesStart (tweens wa this))) wa Hoa)
    as (w1 & E & Ht & Htr & Hn & Hp & Hoth & Hobj).
  rewrite E. eexists. split; [reflexivity|]. simpl. rewrite Ht, Ea.
  split; [reflexivity|].
  split; [exact Hja|].
  split; [rewrite Hobj, Ea, Hoa'; reflexivity|].
  split; [intros o' Hne; rewrite Hoth by exact Hne; rewrite Hoa'; reflexivity|].
  split; [rewrite Htr, Htra; subst tw1 tw; simpl; rewrite Ho; reflexivity|].
  split; congruence.
Qed.

(** A call of [update] that gets past line 357 on a bound tween. *)
Lemma update_steps (this : TweenId) (o : ObjId) (time : num) (w : World) :
  _object (tweens w this) = Some o ->
  _paused (tweens w this) = false ->
  num_ltb time (_startTime (tweens w this)) = false ->
  exists w1, update_values this time w = Ok tt w1 /\
    interpolation_step this o time w w1 /\
    update this time w =
      if num_eqb (elapsed_at (tweens w this) time) 1
      then update_finish this w1 else Ok true w1.
Proof.
  intros Ho Hp Ht.
  destruct (update_values_returns this o time w Ho) as (w1 & E & H).
  exists w1. split; [exact E|]. split; [exact H|].
  unfold update. rewrite Hp, Ht. simpl orb. cbv iota.
  unfold bind. rewrite E. destruct H as (Et & _). rewrite Et. reflexivity.
Qed.

Lemma start_unbound (w : World) (this : TweenId) (looped : bool) :
  game (tweens w this) = None \/ _object (tweens w this) = None ->
  start this looped w = Ok None w.
Proof.
  intros [H | H]; unfold start; rewrite H.
  - reflexivity.
  - destruct (game (tweens w this)); reflexivity.
Qed.

Lemma start_events_app (w : World) (l1 l2 : list TweenId) :
  start_events w (l1 ++ l2) = start_events w l1 ++ start_events w l2.
Proof. apply flat_map_app. Qed.

Lemma start_events_single (w : World) (c : TweenId) :
  start_events w [c] =
    match game (tweens w c), _object (tweens w c) with
    | Some _, Some oc => [ManagerAdd c; OnStart c oc]
    | _, _ => []
    end.
Proof. unfold start_events. simpl. apply app_nil_r. Qed.

Lemma start_chained_turn (w : World) (done : list TweenId) (c : TweenId) :
  startable w c ->
  returns (chain_started w done) (start c false ;; ret tt)
          (fun _ => chain_started w (done ++ [c])).
Proof.
  intros Hc w' (Ho & Hn & Hp & Htr & Hout & Hf & Hrun & Hdone).
  destruct (Hf c) as (Hg & Hob & Hd & Hch & Hk).
  destruct (game (tweens w c)) as [g|] eqn:Eg;
    [destruct (_object (tweens w c)) as [oc|] eqn:Eo|].
  - (* bound *)
    destruct (start_returns c oc false w') as (w'' & E & Hs).
    + rewrite Hg. discriminate.
    + exact Hob.
    + intros q Hq. rewrite Ho. apply (Hc g oc Eg Eo). rewrite <- Hk. exact Hq.
    + destruct Hs as (Ho2 & Htr2 & Hn2 & Hp2 & Hj2 & vs & ve & Et & Hkeys & _).
      exists tt, w''. unfold bind. rewrite E. split; [reflexivity|].
      unfold chain_started.
      split; [congruence|]. split; [congruence|]. split; [congruence|].
      split.
      { rewrite Htr2, Htr, start_events_app, start_events_single, Eg, Eo, <- app_assoc.
        reflexivity. }
      split.
      { intros j Hj. assert (j <> c /\ ~ In j done) as (Hjc & Hjd).
        { split; intro; apply Hj; apply in_or_app; [right; left; congruence | left; assumption]. }
        rewrite Hj2 by exact Hjc. apply Hout. exact Hjd. }
      split.
      { intro j. destruct (Nat.eq_dec j c) as [->|Hjc].
        - rewrite Et. simpl. rewrite Hkeys. auto.
        - rewrite Hj2 by exact Hjc. apply Hf. }
      split.
      { intros j Hj. destruct (Nat.eq_dec j c) as [->|Hjc].
        - rewrite Et. reflexivity.
        - rewrite Hj2 by exact Hjc. apply Hrun. exact Hj. }
      intros c' Hin Hg' Ho'. destruct (Nat.eq_dec c' c) as [->|Hjc].
      * rewrite Et. simpl. rewrite Hn, Hd. auto.
      * rewrite Hj2 by exact Hjc. apply Hdone; auto.
        apply in_app_or in Hin. destruct Hin as [Hin | [Hin | []]]; [exact Hin | congruence].
  - (* no target *)
    exists tt, w'. unfold bind. rewrite start_unbound by (right; congruence).
    split; [reflexivity|]. unfold chain_started.
    split; [congruence|]. split; [congruence|]. split; [congruence|].
    split.
    { rewrite Htr, start_events_app, start_events_single, Eg, Eo, app_nil_r. reflexivity. }
    split.
    { intros j Hj. apply Hout. intro. apply Hj. apply in_or_app. left. assumption. }
    split; [exact Hf|]. split; [exact Hrun|].
    intros c' Hin Hg' Ho'. apply Hdone; auto.
    apply in_app_or in Hin. destruct Hin as [Hin | [Hin | []]]; [exact Hin | congruence].
  - (* no game *)
    exists tt, w'. unfold bind. rewrite start_unbound by (left; congruence).
    split; [reflexivity|]. unfold chain_started.
    split; [congruence|]. split; [congruence|]. split; [congruence|].
    split.
    { rewrite Htr, start_events_app, start_events_single, Eg, app_nil_r. reflexivity. }
    split.
    { intros j Hj. apply Hout. intro. apply Hj. apply in_or_app. left. assumption. }
    split; [exact Hf|]. split; [exact Hrun|].
    intros c' Hin Hg' Ho'. apply Hdone; auto.
    apply in_app_or in Hin. destruct Hin as [Hin | [Hin | []]]; [exact Hin | congruence].
Qed.

Lemma chain_started_nil (w : World) : chain_started w [] w.
Proof.
  unfold chain_started. simpl. rewrite app_nil_r.
  repeat split; auto; destruct H.
Qed.

(** The loop of lines 400-403 and 428-431 on startable tweens. *)
Lemma start_chained_returns (w : World) (chained : list TweenId) :
  (forall c, In c chained -> startable w c) ->
  exists w', start_chained chained w = Ok tt w' /\ chain_started w chained w'.
Proof.
  intro H.
  destruct (returns_for_each (chain_started w) (fun c => start c false ;; ret tt) chained)
    with (done := @nil TweenId) (w := w) as ([] & w' & E & Hc).
  - intros done c Hin. apply start_chained_turn. apply H. exact Hin.
  - apply chain_started_nil.
  - exists w'. split; [exact E | exact Hc].
Qed.

(** ** [start] without a game or a target *)

(** C6. If the tween's game or its target is null, [start], with either
    value of [looped], returns [undefined] and leaves the whole state as it
    was: no field is assigned, nothing is registered with the manager, no
    signal is dispatched, nothing is thrown. *)
Theorem start_unbound_is_noop (w : World) (this : TweenId) (looped : bool) :
  game (tweens w this) = None \/ _object (tweens w this) = None ->
  start this looped w = Ok None w.
Proof.
  intros [H | H]; unfold start; rewrite H.
  - reflexivity.
  - destruct (game (tweens w this)); reflexivity.
Qed.

Lemma start_unbound_is_noop_witness :
  start 2%nat false sample_world = Ok None sample_world /\
  start 2%nat true sample_world = Ok None sample_world.
Proof.
  split; apply start_unbound_is_noop; right; reflexivity.
Defined.

(** ** [to] *)

Lemma to_final (this : TweenId) (properties : jsobj) (duration : num)
    (ease : option (num -> num)) (autoStart : bool) (delay : num)
    (lp yy : bool) (w : World) :
  exists w1,
    final (to this properties duration ease autoStart delay lp yy w) =
      (if autoStart then final (start this false w1) else w1) /\
    (forall j, j <> this -> tweens w1 j = tweens w j) /\
    tweens w1 this =
      set_yoyoCount 0%nat (set_yoyo yy (set_loop lp
        ((if num_ltb 0 delay then set_delayTime delay else fun tw => tw)
          ((match ease with Some f => set_easingFunction f | None => fun tw => tw end)
            (set_valuesEnd properties (set_duration duration (tweens w this))))))) /\
    objects w1 = objects w /\ trace w1 = trace w /\ time_now w1 = time_now w /\
    time_pauseDuration w1 = time_pauseDuration w.
Proof.
  unfold to, bind. simpl.
  destruct ease as [f|]; simpl; destruct (num_ltb 0 delay); simpl;
    (eexists; split; [destruct autoStart; reflexivity|]);
    (split; [intros j Hj; simpl; unfold upd; apply Nat.eqb_neq in Hj; rewrite Hj; reflexivity|]);
    simpl; unfold upd; rewrite !Nat.eqb_refl; repeat split.
Qed.

(** C8. [to] assigns the easing function only when the [ease] argument is
    not null, and the delay only when the [delay] argument is strictly
    positive; otherwise the field keeps the value it had.  This is so
    whether or not [autoStart] makes [to] go on into [start]. *)
Theorem to_easing_and_delay (this : TweenId) (properties : jsobj) (duration : num)
    (ease : option (num -> num)) (autoStart : bool) (delay : num)
    (lp yy : bool) (w : World) :
  let tw := tweens w this in
  let tw' := tweens (final (to this properties duration ease autoStart delay lp yy w)) this in
  (forall f, ease = Some f -> _easingFunction tw' = f) /\
  (ease = None -> _easingFunction tw' = _easingFunction tw) /\
  (0 < delay -> _delayTime tw' = delay) /\
  (~ 0 < delay -> _delayTime tw' = _delayTime tw).
Proof.
  intros tw tw'. subst tw tw'.
  destruct (to_final this properties duration ease autoStart delay lp yy w)
    as (w1 & Ef & _ & Et & _).
  rewrite Ef.
  assert (K : forall X (proj : Tween -> X), start_stable proj ->
            proj (tweens (if autoStart then final (start this false w1) else w1) this)
            = proj (tweens w1 this)).
  { intros X proj Hp. destruct autoStart; [|reflexivity].
    apply (start_keeps proj this false w1 this Hp). }
  rewrite (K _ _easingFunction) by stable.
  rewrite (K _ _delayTime) by stable.
  rewrite Et. repeat split.
  - intros f E. subst ease. destruct (num_ltb 0 delay); reflexivity.
  - intros E. subst ease. destruct (num_ltb 0 delay); reflexivity.
  - intros H. apply num_ltb_lt in H. rewrite H. destruct ease; reflexivity.
  - intros H. destruct (num_ltb 0 delay) eqn:E.
    + apply num_ltb_lt in E. contradiction.
    + destruct ease; reflexivity.
Qed.

Lemma to_easing_and_delay_witness :
  let w' := final (to 0%nat [] 1 None true 0 false false
                     (final (to 0%nat [] 1 (Some (fun k => k * k)) false 1 false false
                               sample_world))) in
  _easingFunction (tweens w' 0%nat) (1 + 1) = (1 + 1) * (1 + 1) /\
  _delayTime (tweens w' 0%nat) = 1.
Proof.
  intro w'. subst w'.
  set (w1 := final (to 0%nat [] 1 (Some (fun k => k * k)) false 1 false false sample_world)).
  destruct (to_easing_and_delay 0%nat [] 1 None true 0 false false w1)
    as (_ & Hease & _ & Hdelay).
  rewrite (Hease eq_refl), (Hdelay (fun H => Qclt_not_le _ _ H (Qcle_refl 0))).
  split; reflexivity.
Defined.

(** ** [start] on a property the target does not have *)

(** C5, as stated, fails: the raise ends the call.  [y] is on the target and
    comes after the missing [alpha], and [start] throws without having
    captured it. *)
Lemma start_raise_skips_later_keys :
  let r := start 0%nat false missing_alpha_world in
  key_ok (objects missing_alpha_world 0%nat) "y"%string /\
  outcome r = inr InterpolationError /\
  obj_has (_valuesStart (tweens (final r) 0%nat)) "x"%string = true /\
  obj_has (_valuesStart (tweens (final r) 0%nat)) "y"%string = false.
Proof. vm_compute. repeat split. Qed.

(** C5, amended.  When [start] meets a key of [_valuesEnd] whose value on
    the target is null or absent, it throws the interpolation error, and the
    throw ends the call at that key.  What was done before stays done: the
    registration and the start notification of an external start, the new
    [_startTime], [isRunning], and the capture of the keys that came before.
    The failing key and every key after it are left as they were. *)
Theorem start_raise_ends_the_call (this : TweenId) (target : ObjId) (looped : bool)
    (w : World) (before after : list ident) (k : ident) :
  game (tweens w this) <> None ->
  _object (tweens w this) = Some target ->
  own_keys (_valuesEnd (tweens w this)) = before ++ k :: after ->
  (forall q, In q before -> key_ok (objects w target) q) ->
  ~ key_ok (objects w target) k ->
  exists w', start this looped w = Err InterpolationError w' /\
    isRunning (tweens w' this) = true /\
    _startTime (tweens w' this) = time_now w + _delayTime (tweens w this) /\
    trace w' = trace w ++ (if looped then [] else [ManagerAdd this; OnStart this target]) /\
    (looped = false -> forall q, In q before ->
       is_array (obj_get (_valuesEnd (tweens w this)) q) = false ->
       obj_get (_valuesStart (tweens w' this)) q = obj_get (objects w target) q) /\
    (forall q, ~ In q before ->
       obj_lookup (_valuesStart (tweens w' this)) q = obj_lookup (_valuesStart (tweens w this)) q /\
       obj_lookup (_valuesEnd (tweens w' this)) q = obj_lookup (_valuesEnd (tweens w this)) q).
Proof.
  intros Hg Ho Hkeys Hok Hbad.
  destruct (start_throws this target looped w before after k Hg Ho Hkeys Hok Hbad)
    as (w' & E & _ & Htr & _ & _ & _ & vs & ve & Et & _ & Hrest & _ & _ & Hcap).
  exists w'. split; [exact E|]. rewrite Et. simpl.
  repeat split; auto; apply Hrest; assumption.
Qed.

Lemma start_raise_ends_the_call_witness :
  exists w', start 0%nat false missing_alpha_world = Err InterpolationError w' /\
    obj_lookup (_valuesStart (tweens w' 0%nat)) "y"%string = None.
Proof.
  destruct (start_raise_ends_the_call 0%nat 0%nat false missing_alpha_world
              ["x"%string] ["y"%string] "alpha"%string)
    as (w' & E & _ & _ & _ & _ & Hrest).
  - vm_compute. discriminate.
  - vm_compute. reflexivity.
  - vm_compute. reflexivity.
  - intros q [<- | []]. vm_compute. reflexivity.
  - vm_compute. discriminate.
  - exists w'. split; [exact E|].
    destruct (Hrest "y"%string) as (Hs & _).
    + intros [H | []]. discriminate.
    + rewrite Hs. vm_compute. reflexivity.
Defined.

(** ** Keyframes and the internal restart *)

(** C4 does not hold of the code.  The external start puts the target's
    value in front of the keyframes; the tick that ends the first cycle goes
    through [reset] into [start(true)], and line 220, which is outside the
    [looped == false] test, puts it in front once more. *)
Theorem internal_restart_prepends_again :
  let r := update 0%nat (num_of_Z 100) keyframe_loop_world in
  obj_get (_valuesEnd (tweens keyframe_loop_world 0%nat)) "x"%string =
    VArr [VNum 0; VNum (num_of_Z 10)] /\
  outcome r = inl true /\
  obj_get (_valuesEnd (tweens (final r) 0%nat)) "x"%string =
    VArr [VNum 0; VNum 0; VNum (num_of_Z 10)].
Proof. vm_compute. repeat split. Qed.

(** ** Completion of a plain tween *)

Lemma startable_after_step (this : TweenId) (o : ObjId) (time : num) (w w1 : World)
    (c : TweenId) :
  interpolation_step this o time w w1 -> startable w c -> startable w1 c.
Proof.
  intros (Et & Hj & Hob & Hoth & _) Hc g oc Hg Ho q Hq.
  assert (F : game (tweens w1 c) = game (tweens w c) /\
              _object (tweens w1 c) = _object (tweens w c) /\
              _valuesEnd (tweens w1 c) = _valuesEnd (tweens w c)).
  { destruct (Nat.eq_dec c this) as [->|Hne].
    - rewrite Et. repeat split.
    - rewrite Hj by exact Hne. repeat split. }
  destruct F as (Fg & Fo & Fe). rewrite Fg in Hg. rewrite Fo in Ho. rewrite Fe in Hq.
  pose proof (Hc g oc Hg Ho q Hq) as Hok.
  destruct (Nat.eq_dec oc o) as [->|Hne].
  - rewrite Hob. apply interpolated_key_ok. exact Hok.
  - rewrite Hoth by exact Hne. exact Hok.
Qed.

Lemma start_events_same (w w' : World) (l : list TweenId) :
  (forall j, game (tweens w' j) = game (tweens w j) /\
             _object (tweens w' j) = _object (tweens w j)) ->
  start_events w' l = start_events w l.
Proof.
  intro H. unfold start_events. induction l as [|c l IH]; simpl; [reflexivity|].
  destruct (H c) as (-> & ->). rewrite IH. reflexivity.
Qed.

Lemma startable_transfer (w w' : World) (c : TweenId) :
  objects w' = objects w ->
  game (tweens w' c) = game (tweens w c) ->
  _object (tweens w' c) = _object (tweens w c) ->
  own_keys (_valuesEnd (tweens w' c)) = own_keys (_valuesEnd (tweens w c)) ->
  startable w c -> startable w' c.
Proof.
  intros Ho Hg Hob Hk Hc g oc Eg Eo q Hq.
  rewrite Ho. apply (Hc g oc); congruence.
Qed.

(** Lines 398-403 and 426-431 after the interpolation: the completion
    notification, then the chained tweens in order. *)
Lemma complete_and_chain (this : TweenId) (o : ObjId) (time : num) (w w1 : World) :
  let tw := tweens w this in
  _object tw = Some o ->
  interpolation_step this o time w w1 ->
  (forall c, In c (_chainedTweens tw) -> startable w c) ->
  exists w3,
    (emit (OnComplete this (_object (tweens w1 this))) ;;
     start_chained (_chainedTweens (tweens w1 this))) w1 = Ok tt w3 /\
    trace w3 = trace w ++ [OnUpdate this (Some o) (_easingFunction tw (elapsed_at tw time));
                           OnComplete this (Some o)]
                       ++ start_events w (_chainedTweens tw) /\
    (forall c, In c (_chainedTweens tw) ->
       game (tweens w c) <> None -> _object (tweens w c) <> None ->
       isRunning (tweens w3 c) = true /\
       _startTime (tweens w3 c) = time_now w + _delayTime (tweens w c)) /\
    (isRunning tw = true -> isRunning (tweens w3 this) = true) /\
    _chainedTweens (tweens w3 this) = _chainedTweens tw /\
    objects w3 = objects w1 /\
    time_now w3 = time_now w /\
    (forall j, ~ In j (_chainedTweens tw) -> tweens w3 j = tweens w1 j) /\
    (forall c, startable w c -> startable w3 c).
Proof.
  intros tw Ho Hstep Hchain.
  pose proof Hstep as (Et & Hj & Hob & Hoth & Htr & Hn & Hp).
  fold tw in Et, Htr.
  assert (Hsame : forall j, game (tweens w1 j) = game (tweens w j) /\
                            _object (tweens w1 j) = _object (tweens w j) /\
                            _delayTime (tweens w1 j) = _delayTime (tweens w j)).
  { intro j. destruct (Nat.eq_dec j this) as [->|Hne].
    - rewrite Et. repeat split.
    - rewrite Hj by exact Hne. repeat split. }
  assert (Ech : _chainedTweens (tweens w1 this) = _chainedTweens tw).
  { rewrite Et. reflexivity. }
  assert (Eob : _object (tweens w1 this) = Some o).
  { rewrite Et. exact Ho. }
  rewrite Ech, Eob. unfold bind, emit.
  set (w2 := set_trace (trace w1 ++ [OnComplete this (Some o)]) w1).
  destruct (start_chained_returns w2 (_chainedTweens tw)) as (w3 & E & Hc).
  { intros c Hin. apply (startable_after_step this o time w w1 c Hstep (Hchain c Hin)). }
  destruct Hc as (Ho3 & Hn3 & Hp3 & Htr3 & Hout3 & Hf3 & Hrun3 & Hdone3).
  exists w3. split; [exact E|].
  split.
  { rewrite Htr3. subst w2. simpl. rewrite Htr, <- !app_assoc. simpl.
    rewrite (start_events_same w _ (_chainedTweens tw)); [reflexivity|].
    intro j. simpl. destruct (Hsame j) as (A & B & _). auto. }
  split.
  { intros c Hin Hg Hobj.
    destruct (Hsame c) as (A & B & C).
    destruct (Hdone3 c Hin) as (R & S).
    - simpl. rewrite A. exact Hg.
    - simpl. rewrite B. exact Hobj.
    - split; [exact R|]. rewrite S. simpl. rewrite Hn, C. reflexivity. }
  split.
  { intro Hr. apply Hrun3. simpl. rewrite Et. exact Hr. }
  split.
  { destruct (Hf3 this) as (_ & _ & _ & K & _). rewrite K. exact Ech. }
  split; [exact Ho3|].
  split; [rewrite Hn3; exact Hn|].
  split; [intros j Hj'; apply Hout3; exact Hj'|].
  intros c Hc.
  pose proof (startable_after_step this o time w w1 c Hstep Hc) as Hc1.
  destruct (Hf3 c) as (A & B & _ & _ & K).
  apply (startable_transfer w1 w3 c); auto.
Qed.

(** The tick that completes a tween that neither loops nor yoyos. *)
Lemma update_plain_returns (this : TweenId) (o : ObjId) (time : num) (w : World) :
  let tw := tweens w this in
  _object tw = Some o ->
  _paused tw = false ->
  num_ltb time (_startTime tw) = false ->
  elapsed_at tw time = 1 ->
  _yoyo tw = false ->
  _loop tw = false ->
  (forall c, In c (_chainedTweens tw) -> startable w c) ->
  exists w', update this time w = Ok false w' /\ plain_completed this o w w'.
Proof.
  intros tw Ho Hp Ht Hel Hy Hl Hchain.
  destruct (update_steps this o time w Ho Hp Ht) as (w1 & _ & Hstep & Eu).
  destruct (complete_and_chain this o time w w1 Ho Hstep Hchain)
    as (w3 & E & Htr & Hstarted & Hrun3 & Hch3 & Hob3 & _ & Hout3 & Hst3).
  fold tw in Eu, Htr, Hrun3, Hch3, Hout3. rewrite Hel in Eu, Htr.
  rewrite num_eqb_refl in Eu. rewrite Eu.
  unfold update_finish. destruct Hstep as (Et & _ & Hob & Hoth & _). fold tw in Et, Hob.
  rewrite Hel in Et, Hob.
  rewrite Et. simpl (_yoyo _). simpl (_loop _). simpl (_chainedTweens _). simpl (_object _).
  rewrite Hy, Hl. cbv iota.
  rewrite Et in E. simpl (_chainedTweens _) in E. simpl (_object _) in E.
  unfold bind in *.
  destruct (emit (OnComplete this (_object tw)) w1) as [[] w2|e w2] eqn:Eem;
    [|discriminate E].
  rewrite E. rewrite Hch3.
  destruct (_chainedTweens tw) as [|c cs] eqn:Ecs.
  - simpl. eexists. split; [reflexivity|]. unfold plain_completed. fold tw.
    rewrite Ecs. simpl. rewrite upd_same. simpl.
    split; [exact Htr|]. split; [intros c []|]. split; [reflexivity|].
    split; [congruence|]. split; [rewrite Hob3; exact Hob|].
    split; [intros o' Hne; rewrite Hob3; apply Hoth; exact Hne|].
    split.
    + intros _. exists false. rewrite (Hout3 this) by (intros []). rewrite Et. reflexivity.
    + intros c Hc. apply (startable_transfer w3); simpl; auto;
        unfold upd; destruct (Nat.eqb c this) eqn:Ec; try reflexivity;
        apply Nat.eqb_eq in Ec; subst c; reflexivity.
  - simpl. exists w3. split; [reflexivity|]. unfold plain_completed. fold tw.
    rewrite Ecs.
    split; [exact Htr|].
    split; [intros c0 Hin; apply Hstarted; fold tw; rewrite Ecs; exact Hin|].
    split; [discriminate|]. split; [intros _; exact Hrun3|].
    split; [rewrite Hob3; exact Hob|].
    split; [intros o' Hne; rewrite Hob3; apply Hoth; exact Hne|].
    split; [|exact Hst3].
    intros Hnot. exists (isRunning tw). rewrite (Hout3 this Hnot), Et.
    destruct tw; reflexivity.
Qed.

(** C2. On a started, unpaused tween that neither loops nor yoyos, the tick
    at which the clamped elapsed time is 1 dispatches the update and then
    the completion notification, then starts the chained tweens in the order
    of the list (each bound one is registered with the manager, notified,
    running, and anchored at [now + delay]), clears [isRunning] exactly when
    the list is empty, and returns false.  The chained tweens are taken to
    be startable: a chained [start] that throws takes [update] with it. *)
Theorem update_plain_completion (this : TweenId) (o : ObjId) (time : num) (w : World) :
  let tw := tweens w this in
  _object tw = Some o ->
  isRunning tw = true ->
  _paused tw = false ->
  num_ltb time (_startTime tw) = false ->
  elapsed_at tw time = 1 ->
  _yoyo tw = false ->
  _loop tw = false ->
  (forall c, In c (_chainedTweens tw) -> startable w c) ->
  exists w', update this time w = Ok false w' /\
    trace w' = trace w ++ [OnUpdate this (Some o) (_easingFunction tw 1);
                           OnComplete this (Some o)]
                       ++ start_events w (_chainedTweens tw) /\
    (forall c, In c (_chainedTweens tw) ->
       game (tweens w c) <> None -> _object (tweens w c) <> None ->
       isRunning (tweens w' c) = true /\
       _startTime (tweens w' c) = time_now w + _delayTime (tweens w c)) /\
    (isRunning (tweens w' this) = false <-> _chainedTweens tw = []) /\
    (_chainedTweens tw <> [] -> isRunning (tweens w' this) = true).
Proof.
  intros tw Ho Hrun Hp Ht Hel Hy Hl Hchain.
  destruct (update_plain_returns this o time w Ho Hp Ht Hel Hy Hl Hchain)
    as (w' & E & Htr & Hstarted & Hempty & Hfull & _).
  fold tw in Htr, Hstarted, Hempty, Hfull.
  exists w'. split; [exact E|]. split; [exact Htr|]. split; [exact Hstarted|].
  split.
  - split; [|exact Hempty].
    intro Hf. destruct (_chainedTweens tw) as [|c cs] eqn:Ecs; [reflexivity|].
    rewrite Hfull in Hf; [discriminate | discriminate | exact Hrun].
  - intro Hne. apply Hfull; assumption.
Qed.

Lemma update_plain_completion_witness :
  exists w', update 0%nat (num_of_Z 100) chain_world = Ok false w' /\
    isRunning (tweens w' 0%nat) = true /\ isRunning (tweens w' 1%nat) = true.
Proof.
  destruct (update_plain_completion 0%nat 0%nat (num_of_Z 100) chain_world)
    as (w' & E & _ & Hc & _ & Hr).
  all: try by_evaluation.
  - apply Qc_is_canon. vm_compute. reflexivity.
  - intros c Hin g oc _ Ho q Hq.
    vm_compute in Hin. destruct Hin as [<- | []].
    vm_compute in Ho. injection Ho as <-.
    vm_compute in Hq. destruct Hq as [<- | []]. vm_compute. reflexivity.
  - exists w'. split; [exact E|]. split.
    + apply Hr. vm_compute. discriminate.
    + apply (Hc 1%nat); vm_compute; [left; reflexivity | discriminate | discriminate].
Defined.

(** ** Completion of the second leg of a yoyo *)

Lemma stays_running_preorder : tween_preorder stays_running.
Proof. split; unfold stays_running; auto. Qed.

Lemma stays_running_start : start_edits stays_running.
Proof. repeat split; intros; unfold stays_running; auto. Qed.

(** Of the five ways out of lines 382-441 only one can stop a tween: the
    plain completion with nothing chained, and it stops [this] alone. *)
Lemma update_finish_running (this : TweenId) (w : World) (j : TweenId) :
  let tw := tweens w this in
  isRunning (tweens w j) = true ->
  isRunning (tweens (final (update_finish this w)) j) = false ->
  j = this /\ _yoyo tw = false /\ _loop tw = false /\ _chainedTweens tw = [].
Proof.
  intros tw Hr Hf.
  pose proof (tweenwise_preorder _ stays_running_preorder) as HR.
  assert (Hrev : within (tweenwise stays_running) (reverse this)).
  { apply reverse_tweenwise; [apply stays_running_preorder | apply stays_running_start |].
    intros t H. exact H. }
  assert (Hcount : within (tweenwise stays_running) (modify_tween this (set_yoyoCount 0%nat))).
  { apply modify_tween_tweenwise; [apply stays_running_preorder|]. intros t H. exact H. }
  assert (Hchain : forall l, within (tweenwise stays_running) (start_chained l)).
  { intro l. apply start_chained_tweenwise;
      [apply stays_running_preorder | apply stays_running_start]. }
  assert (Hemit : forall e, within (tweenwise stays_running) (emit e)).
  { intro e. apply emit_tweenwise. apply stays_running_preorder. }
  assert (Habs : tweenwise stays_running w (final (update_finish this w)) -> False).
  { intro K. specialize (K j Hr). congruence. }
  unfold update_finish in Hf, Habs. fold tw in Hf, Habs.
  destruct (_yoyo tw) eqn:Ey.
  { exfalso. apply Habs.
    destruct (Nat.eqb (_yoyoCount tw) 0).
    - apply (within_bind _ HR); [exact Hrev | intros _; apply (within_ret _ HR)].
    - destruct (_loop tw); simpl negb; cbv iota.
      + apply (within_bind _ HR); [exact Hcount | intros _].
        apply (within_bind _ HR); [exact Hrev | intros _; apply (within_ret _ HR)].
      + apply (within_bind _ HR); [apply Hemit | intros _].
        apply (within_bind _ HR); [apply Hchain | intros _; apply (within_ret _ HR)]. }
  destruct (_loop tw) eqn:El.
  { exfalso. apply Habs.
    apply (within_bind _ HR); [exact Hcount | intros _].
    apply (within_bind _ HR); [|intros _; apply (within_ret _ HR)].
    apply reset_tweenwise; [apply stays_running_preorder | apply stays_running_start]. }
  destruct (_chainedTweens tw) as [|c cs] eqn:Ec.
  - split; [|auto]. destruct (Nat.eq_dec j this) as [E|Hne]; [exact E|].
    exfalso. revert Hf. unfold bind, emit, start_chained. simpl.
    fold tw. rewrite Ec. simpl. rewrite upd_other by exact Hne. congruence.
  - exfalso. apply Habs. unfold bind.
    destruct (emit (OnComplete this (_object tw)) w) as [[] w2|e w2] eqn:E2;
      [|discriminate E2].
    assert (K2 : tweenwise stays_running w w2).
    { pose proof (Hemit (OnComplete this (_object tw)) w) as K. rewrite E2 in K. exact K. }
    assert (C2 : _chainedTweens (tweens w2 this) = c :: cs).
    { injection E2 as <-. exact Ec. }
    pose proof (Hchain (c :: cs) w2) as K3.
    pose proof (start_chained_keeps _chainedTweens (c :: cs) w2 this) as C3.
    destruct (start_chained (c :: cs) w2) as [[] w3|e w3]; simpl in K3, C3.
    + rewrite C3, C2 by stable. simpl.
      apply (pre_trans _ HR _ w2); assumption.
    + simpl. apply (pre_trans _ HR _ w2); assumption.
Qed.

(** The same for a whole call of [update]. *)
Lemma update_running (this : TweenId) (time : num) (w : World) (j : TweenId) :
  let tw := tweens w this in
  isRunning (tweens w j) = true ->
  isRunning (tweens (final (update this time w)) j) = false ->
  j = this /\ _yoyo tw = false /\ _loop tw = false /\ _chainedTweens tw = [].
Proof.
  intros tw Hr Hf. unfold update in Hf.
  destruct (_paused (tweens w this) || num_ltb time (_startTime (tweens w this)));
    [simpl in Hf; congruence|].
  unfold bind in Hf.
  pose proof (update_values_tweenwise stays_running stays_running_preorder this time
                (fun _ _ H => H) (fun _ _ H => H) w j Hr) as K.
  pose proof (update_values_tweenwise (keeps _yoyo) (keeps_preorder _) this time
                (fun _ _ => eq_refl) (fun _ _ => eq_refl) w this) as Ky.
  pose proof (update_values_tweenwise (keeps _loop) (keeps_preorder _) this time
                (fun _ _ => eq_refl) (fun _ _ => eq_refl) w this) as Kl.
  pose proof (update_values_tweenwise (keeps _chainedTweens) (keeps_preorder _) this time
                (fun _ _ => eq_refl) (fun _ _ => eq_refl) w this) as Kc.
  unfold keeps in Ky, Kl, Kc.
  destruct (update_values this time w) as [[] w1|e w1]; simpl in K, Ky, Kl, Kc.
  - destruct (num_eqb (_tempElapsed (tweens w1 this)) 1).
    + destruct (update_finish_running this w1 j K Hf) as (A & B & C & D).
      subst tw. rewrite <- Ky, <- Kl, <- Kc. auto.
    + simpl in Hf. congruence.
  - simpl in Hf. congruence.
Qed.

(** C10. On a started, unpaused yoyo tween that does not loop and has done
    its reversal ([_yoyoCount] is 1), the tick at which the clamped elapsed
    time is 1 dispatches the update and the completion notification, starts
    the chained tweens in order and returns false, and [isRunning] stays
    true, also with nothing chained.  The last part says why: whatever the
    tween, the state and the time, a call of [update] clears the [isRunning]
    of a tween only when that tween is the one updated and it completes with
    neither yoyo nor loop set and nothing chained. *)
Theorem update_yoyo_completion (this : TweenId) (o : ObjId) (time : num) (w : World) :
  let tw := tweens w this in
  _object tw = Some o ->
  isRunning tw = true ->
  _paused tw = false ->
  num_ltb time (_startTime tw) = false ->
  elapsed_at tw time = 1 ->
  _yoyo tw = true ->
  _yoyoCount tw = 1%nat ->
  _loop tw = false ->
  (forall c, In c (_chainedTweens tw) -> startable w c) ->
  (exists w', update this time w = Ok false w' /\
     trace w' = trace w ++ [OnUpdate this (Some o) (_easingFunction tw 1);
                            OnComplete this (Some o)]
                        ++ start_events w (_chainedTweens tw) /\
     (forall c, In c (_chainedTweens tw) ->
        game (tweens w c) <> None -> _object (tweens w c) <> None ->
        isRunning (tweens w' c) = true /\
        _startTime (tweens w' c) = time_now w + _delayTime (tweens w c)) /\
     isRunning (tweens w' this) = true) /\
  (forall this' time' w0 j,
     isRunning (tweens w0 j) = true ->
     isRunning (tweens (final (update this' time' w0)) j) = false ->
     j = this' /\ _yoyo (tweens w0 this') = false /\ _loop (tweens w0 this') = false /\
     _chainedTweens (tweens w0 this') = []).
Proof.
  intros tw Ho Hrun Hp Ht Hel Hy Hc Hl Hchain.
  split; [|intros this' time' w0 j; apply update_running].
  destruct (update_steps this o time w Ho Hp Ht) as (w1 & _ & Hstep & Eu).
  destruct (complete_and_chain this o time w w1 Ho Hstep Hchain)
    as (w3 & E & Htr & Hstarted & Hrun3 & _).
  fold tw in Eu, Htr, Hrun3. rewrite Hel in Eu, Htr.
  rewrite num_eqb_refl in Eu. rewrite Eu.
  unfold update_finish. destruct Hstep as (Et & _). fold tw in Et.
  rewrite Et. simpl (_yoyo _). simpl (_loop _). simpl (_yoyoCount _).
  simpl (_chainedTweens _). simpl (_object _).
  rewrite Hy, Hl, Hc. simpl Nat.eqb. simpl negb. cbv iota.
  rewrite Et in E. simpl (_chainedTweens _) in E. simpl (_object _) in E.
  unfold bind in *.
  destruct (emit (OnComplete this (_object tw)) w1) as [[] w2|e w2] eqn:Eem;
    [|discriminate E].
  rewrite E. exists w3. split; [reflexivity|].
  split; [exact Htr|]. split; [exact Hstarted | exact (Hrun3 Hrun)].
Qed.

Lemma update_yoyo_completion_witness :
  exists w', update 0%nat (num_of_Z 100) yoyo_back_world = Ok false w' /\
    isRunning (tweens w' 0%nat) = true.
Proof.
  destruct (update_yoyo_completion 0%nat 0%nat (num_of_Z 100) yoyo_back_world)
    as ((w' & E & _ & _ & Hr) & _).
  all: try by_evaluation.
  - apply Qc_is_canon. vm_compute. reflexivity.
  - intros c Hin g oc _ Ho q Hq.
    vm_compute in Hin. destruct Hin as [<- | []].
    vm_compute in Ho. injection Ho as <-.
    vm_compute in Hq. destruct Hq as [<- | []]. vm_compute. reflexivity.
  - exists w'. split; [exact E | exact Hr].
Defined.

(** ** The yoyo counter *)

Lemma reverse_loop_returns (this : TweenId) (l : list ident) (w : World) :
  exists w1, for_each l (reverse_property this) w = Ok tt w1.
Proof.
  revert w. induction l as [|x l IH]; intro w; simpl.
  - exists w. reflexivity.
  - unfold bind, reverse_property at 1. simpl. apply IH.
Qed.

(** [reverse] adds one to the counter of its tween and leaves the other
    counters alone. *)
Lemma reverse_count (this : TweenId) (w : World) (j : TweenId) :
  _yoyoCount (tweens (final (reverse this w)) j) =
    if Nat.eqb j this then S (_yoyoCount (tweens w this)) else _yoyoCount (tweens w j).
Proof.
  unfold reverse, bind.
  destruct (reverse_loop_returns this (own_keys (_valuesStart (tweens w this))) w)
    as (w1 & E).
  assert (K : forall i, _yoyoCount (tweens w1 i) = _yoyoCount (tweens w i)).
  { intro i.
    pose proof (within_for_each _ (tweenwise_preorder _ (keeps_preorder _yoyoCount))
                  (own_keys (_valuesStart (tweens w this))) (reverse_property this)) as H.
    assert (Hb : forall x, within (tweenwise (keeps _yoyoCount)) (reverse_property this x)).
    { intros x w0. unfold reverse_property.
      apply (within_bind _ (tweenwise_preorder _ (keeps_preorder _yoyoCount)));
        [|intros _]; apply modify_tween_tweenwise;
        try apply keeps_preorder; intro; reflexivity. }
    specialize (H Hb w i). rewrite E in H. exact H. }
  rewrite E. simpl.
  rewrite (start_keeps _yoyoCount this true _ j) by stable.
  simpl. unfold upd. destruct (Nat.eqb j this) eqn:Ej.
  - simpl. rewrite K. reflexivity.
  - apply K.
Qed.

Lemma keeps_count_bounded (w w' : World) :
  tweenwise (keeps _yoyoCount) w w' -> counts_bounded w -> counts_bounded w'.
Proof. intros K H j. rewrite (K j). apply H. Qed.

Lemma update_finish_counts (this : TweenId) (w : World) :
  counts_bounded w -> counts_bounded (final (update_finish this w)).
Proof.
  intro H.
  pose proof (keeps_preorder _yoyoCount) as HF.
  pose proof (tweenwise_preorder _ HF) as HR.
  assert (Hse : start_edits (keeps _yoyoCount)) by (apply start_stable_edits; stable).
  assert (Hrev : forall w0, _yoyoCount (tweens w0 this) = 0%nat -> counts_bounded w0 ->
            counts_bounded (final ((reverse this ;; ret true) w0))).
  { intros w0 H0 Hb j. unfold bind.
    pose proof (reverse_count this w0 j) as C.
    destruct (reverse this w0) as [a w'|e w']; simpl in *; rewrite C;
      destruct (Nat.eqb j this); try rewrite H0; try apply Hb; lia. }
  assert (Hzero : forall w0, counts_bounded w0 ->
            counts_bounded (final (modify_tween this (set_yoyoCount 0%nat) w0)) /\
            _yoyoCount (tweens (final (modify_tween this (set_yoyoCount 0%nat) w0)) this) = 0%nat).
  { intros w0 Hb. simpl. rewrite upd_same. split; [|reflexivity].
    intro j. simpl. unfold upd. destruct (Nat.eqb j this); [simpl; lia | apply Hb]. }
  unfold update_finish.
  destruct (_yoyo (tweens w this)).
  - destruct (Nat.eqb (_yoyoCount (tweens w this)) 0) eqn:E0.
    + apply Hrev; [apply Nat.eqb_eq; exact E0 | exact H].
    + destruct (_loop (tweens w this)); simpl negb; cbv iota.
      * destruct (Hzero w H) as (Hb & Hz). unfold bind at 1. simpl modify_tween.
        cbv iota. apply Hrev; assumption.
      * eapply keeps_count_bounded; [|exact H].
        apply (within_bind _ HR); [apply emit_tweenwise; exact HF | intros _].
        apply (within_bind _ HR); [|intros _; apply (within_ret _ HR)].
        apply start_chained_tweenwise; assumption.
  - destruct (_loop (tweens w this)).
    + destruct (Hzero w H) as (Hb & Hz). unfold bind at 1. simpl modify_tween. cbv iota.
      eapply keeps_count_bounded; [|exact Hb].
      apply (within_bind _ HR); [|intros _; apply (within_ret _ HR)].
      apply reset_tweenwise; assumption.
    + eapply keeps_count_bounded; [|exact H].
      apply (within_bind _ HR); [apply emit_tweenwise; exact HF | intros _].
      apply (within_bind _ HR); [apply start_chained_tweenwise; assumption | intros _].
      apply (within_bind _ HR); [|intros _; apply (within_ret _ HR)].
      intro w'. cbv beta.
      destruct (Nat.eqb _ 0); [|apply (within_ret _ HR)].
      apply modify_tween_tweenwise; [exact HF | intro; reflexivity].
Qed.

Lemma update_counts (this : TweenId) (time : num) (w : World) :
  counts_bounded w -> counts_bounded (final (update this time w)).
Proof.
  intro H. unfold update.
  destruct (_paused (tweens w this) || num_ltb time (_startTime (tweens w this)));
    [exact H|].
  unfold bind.
  pose proof (update_values_tweenwise (keeps _yoyoCount) (keeps_preorder _) this time
                (fun _ _ => eq_refl) (fun _ _ => eq_refl) w) as K.
  destruct (update_values this time w) as [[] w1|e w1]; simpl in K.
  - destruct (num_eqb (_tempElapsed (tweens w1 this)) 1).
    + apply update_finish_counts. eapply keeps_count_bounded; eassumption.
    + eapply keeps_count_bounded; eassumption.
  - eapply keeps_count_bounded; eassumption.
Qed.

Lemma to_count (this : TweenId) (properties : jsobj) (duration : num)
    (ease : option (num -> num)) (autoStart : bool) (delay : num)
    (lp yy : bool) (w : World) (j : TweenId) :
  _yoyoCount (tweens (final (to this properties duration ease autoStart delay lp yy w)) j) =
    if Nat.eqb j this then 0%nat else _yoyoCount (tweens w j).
Proof.
  destruct (to_final this properties duration ease autoStart delay lp yy w)
    as (w1 & Ef & Hj & Et & _).
  rewrite Ef.
  assert (K : _yoyoCount (tweens (if autoStart then final (start this false w1) else w1) j)
              = _yoyoCount (tweens w1 j)).
  { destruct autoStart; [|reflexivity]. apply start_keeps. stable. }
  rewrite K. destruct (Nat.eqb j this) eqn:E.
  - apply Nat.eqb_eq in E. subst j. rewrite Et. reflexivity.
  - apply Nat.eqb_neq in E. rewrite Hj by exact E. reflexivity.
Qed.

Lemma reachable_counts (w : World) : reachable w -> counts_bounded w.
Proof.
  pose proof (keeps_preorder _yoyoCount) as HF.
  pose proof (tweenwise_preorder _ HF) as HR.
  induction 1 as [w Hnew | w this p d e a dl lp yy _ IH | w this v _ IH | w this v _ IH
                 | w this t _ IH | w this _ IH | w this _ IH
                 | w this g _ IH | w this a _ IH | w this f _ IH | w this f _ IH
                 | w this _ IH | w this time _ IH | w now pd h _ IH].
  - intro j. destruct (Hnew j) as (ob & ea & ip & E). rewrite E. simpl. lia.
  - intro j. rewrite to_count. destruct (Nat.eqb j this); [lia | apply IH].
  - eapply keeps_count_bounded; [|exact IH].
    apply (within_bind _ HR); [|intros _; apply (within_ret _ HR)].
    apply modify_tween_tweenwise; [exact HF | intro; reflexivity].
  - intro j. simpl. unfold upd. destruct (Nat.eqb j this); [simpl; lia | apply IH].
  - eapply keeps_count_bounded; [|exact IH].
    apply (within_bind _ HR); [|intros _; apply (within_ret _ HR)].
    apply modify_tween_tweenwise; [exact HF | intro; reflexivity].
  - eapply keeps_count_bounded; [|exact IH].
    apply modify_tween_tweenwise; [exact HF | intro; reflexivity].
  - eapply keeps_count_bounded; [|exact IH].
    apply (within_bind _ HR); [|intros _; intro w0; cbv beta];
      (apply modify_tween_tweenwise; [exact HF | intro; reflexivity]).
  - eapply keeps_count_bounded; [|exact IH].
    apply (within_bind _ HR);
      [apply modify_tween_tweenwise; [exact HF | intro; reflexivity] | intros _].
    destruct g; [apply (within_ret _ HR) | apply (within_throw _ HR)].
  - eapply keeps_count_bounded; [|exact IH].
    apply modify_tween_tweenwise; [exact HF | intro; reflexivity].
  - eapply keeps_count_bounded; [|exact IH].
    apply modify_tween_tweenwise; [exact HF | intro; reflexivity].
  - eapply keeps_count_bounded; [|exact IH].
    apply modify_tween_tweenwise; [exact HF | intro; reflexivity].
  - intro j. rewrite start_keeps by stable. apply IH.
  - apply update_counts. exact IH.
  - exact IH.
Qed.

(** C9. In every state reached by configuring ([to], [loop], [yoyo], and
    [chain], [pause], [resume] and the accessors besides), starting from
    outside and calling [update], the counter of every tween is 0 or 1.  It
    is put back to 0 by [to] (and by [yoyo]), and by the tick that restarts
    a loop cycle: for a looping tween that is not a yoyo the call leaves it
    at 0; for a looping yoyo line 410 puts it to 0 and the [reverse] that
    follows counts the new leg, so that the call is [reverse] run from a
    state where it is 0. *)
Theorem yoyoCount_is_0_or_1 (w : World) :
  reachable w ->
  (forall j, _yoyoCount (tweens w j) = 0%nat \/ _yoyoCount (tweens w j) = 1%nat) /\
  (forall this properties duration ease autoStart delay lp yy,
     _yoyoCount
       (tweens (final (to this properties duration ease autoStart delay lp yy w)) this)
     = 0%nat) /\
  (forall this value, _yoyoCount (tweens (final (yoyo this value w)) this) = 0%nat) /\
  (forall this o time,
     let tw := tweens w this in
     _object tw = Some o ->
     _paused tw = false ->
     num_ltb time (_startTime tw) = false ->
     elapsed_at tw time = 1 ->
     _loop tw = true ->
     if _yoyo tw then
       _yoyoCount tw = 1%nat ->
       exists w0, _yoyoCount (tweens w0 this) = 0%nat /\
                  update this time w = (reverse this ;; ret true) w0
     else
       _yoyoCount (tweens (final (update this time w)) this) = 0%nat).
Proof.
  intro Hreach. split; [|split; [|split]].
  - intro j. pose proof (reachable_counts w Hreach j). lia.
  - intros. rewrite to_count, Nat.eqb_refl. reflexivity.
  - intros. simpl. rewrite upd_same. reflexivity.
  - intros this o time tw Ho Hp Ht Hel Hl.
    destruct (update_steps this o time w Ho Hp Ht) as (w1 & _ & (Et & _) & Eu).
    fold tw in Eu, Et. rewrite Hel, num_eqb_refl in Eu.
    unfold update_finish in Eu. rewrite Et in Eu.
    simpl (_yoyo _) in Eu. simpl (_loop _) in Eu. simpl (_yoyoCount _) in Eu.
    rewrite Hl in Eu. simpl negb in Eu.
    destruct (_yoyo tw).
    + intro Hc. rewrite Hc in Eu. simpl in Eu.
      exists (final (modify_tween this (set_yoyoCount 0%nat) w1)).
      split; [simpl; rewrite upd_same; reflexivity | exact Eu].
    + rewrite Eu.
      change ((modify_tween this (set_yoyoCount 0%nat) ;; reset this ;; ret true) w1)
        with ((reset this ;; ret true) (final (modify_tween this (set_yoyoCount 0%nat) w1))).
      pose proof (keeps_preorder _yoyoCount) as HF.
      pose proof (tweenwise_preorder _ HF) as HR.
      assert (K : within (tweenwise (keeps _yoyoCount)) (reset this ;; ret true)).
      { apply (within_bind _ HR); [|intros _; apply (within_ret _ HR)].
        apply reset_tweenwise; [exact HF | apply start_stable_edits; stable]. }
      pose proof (K (final (modify_tween this (set_yoyoCount 0%nat) w1)) this) as Kk.
      unfold keeps in Kk. rewrite Kk. simpl. rewrite upd_same. reflexivity.
Qed.

Lemma sample_world_reachable : reachable sample_world.
Proof.
  apply reach_new. intro j. unfold sample_world. simpl. unfold upd, fresh_tween.
  destruct (Nat.eqb j 1); [|destruct (Nat.eqb j 0)]; eexists _, _, _; reflexivity.
Qed.

Lemma yoyoCount_is_0_or_1_witness :
  _yoyoCount (tweens yoyo_back_world 0%nat) = 0%nat \/
  _yoyoCount (tweens yoyo_back_world 0%nat) = 1%nat.
Proof.
  assert (R : reachable yoyo_back_world).
  { unfold yoyo_back_world, chain_world.
    apply reach_update, reach_yoyo, reach_chain, reach_to, reach_to.
    apply sample_world_reachable. }
  exact (proj1 (yoyoCount_is_0_or_1 yoyo_back_world R) 0%nat).
Defined.

(** ** [reset] and the heap *)

Lemma reset_loop_returns (this : TweenId) (o : ObjId) (w : World) :
  _object (tweens w this) = Some o ->
  exists w1,
    for_each (own_keys (_valuesStart (tweens w this))) (reset_property this) w = Ok tt w1 /\
    tweens w1 = tweens w /\ trace w1 = trace w /\ time_now w1 = time_now w /\
    time_pauseDuration w1 = time_pauseDuration w /\
    (forall o', o' <> o -> objects w1 o' = objects w o') /\
    objects w1 o = restored (tweens w this) (objects w o).
Proof.
  intro Ho.
  apply (write_loop_returns this o (reset_property this)
           (fun tw k => obj_get (_valuesStart tw) k)); [|exact Ho].
  intros k w0 H0. unfold reset_property. rewrite H0. reflexivity.
Qed.

Lemma restored_in (tw : Tween) (ob : jsobj) (p : ident) :
  In p (own_keys (_valuesStart tw)) ->
  obj_get (restored tw ob) p = obj_get (_valuesStart tw) p.
Proof.
  intro H. unfold obj_get at 1, restored.
  rewrite (fold_set_lookup_in (fun k => obj_get (_valuesStart tw) k)) by exact H.
  reflexivity.
Qed.


(** Every way out of lines 382-441 but the loop restart leaves the targets
    as the interpolation has set them. *)
Lemma update_finish_keeps_heap (this : TweenId) (w : World) :
  _yoyo (tweens w this) = true \/ _loop (tweens w this) = false ->
  keeps_heap w (final (update_finish this w)).
Proof.
  intro H. pose proof keeps_heap_preorder as HR. unfold update_finish.
  assert (Hchain : within keeps_heap
            (emit (OnComplete this (_object (tweens w this))) ;;
             start_chained (_chainedTweens (tweens w this)) ;; ret false)).
  { apply (within_bind _ HR); [apply emit_keeps_heap | intros _].
    apply (within_bind _ HR); [apply start_chained_keeps_heap | intros _].
    apply (within_ret _ HR). }
  assert (Hrev : within keeps_heap (reverse this ;; ret true)).
  { apply (within_bind _ HR); [apply reverse_keeps_heap | intros _; apply (within_ret _ HR)]. }
  destruct (_yoyo (tweens w this)).
  - destruct (Nat.eqb (_yoyoCount (tweens w this)) 0); [apply Hrev|].
    destruct (_loop (tweens w this)); simpl negb; cbv iota; [|apply Hchain].
    apply (within_bind _ HR); [apply modify_tween_keeps_heap | intros _; apply Hrev].
  - destruct H as [H|H]; [discriminate|]. rewrite H.
    apply (within_bind _ HR); [apply emit_keeps_heap | intros _].
    apply (within_bind _ HR); [apply start_chained_keeps_heap | intros _].
    apply (within_bind _ HR); [|intros _; apply (within_ret _ HR)].
    intro w'; cbv beta. destruct (Nat.eqb _ 0);
      [apply modify_tween_keeps_heap | apply (within_ret _ HR)].
Qed.

(** ** The interpolation of a scalar property *)





(** ** After the completion *)






(** ** The round trip through [reset] *)

(** [start] on a tween other than [this] does not touch [this]. *)
Lemma start_other (this c : TweenId) (looped : bool) (w : World) :
  c <> this -> tweens (final (start c looped w)) this = tweens w this.
Proof.
  intro Hne.
  destruct (game (tweens w c)) as [g|] eqn:Eg;
    [destruct (_object (tweens w c)) as [oc|] eqn:Eo|].
  - destruct (start_final c oc looped w) as (done & _ & _ & _ & _ & Hj & _).
    + rewrite Eg. discriminate.
    + exact Eo.
    + apply Hj. congruence.
  - rewrite start_unbound by (right; exact Eo). reflexivity.
  - rewrite start_unbound by (left; exact Eg). reflexivity.
Qed.



(** What [reset] leaves on a bound tween, returning or throwing. *)
Lemma reset_final (this : TweenId) (o : ObjId) (w : World) :
  let tw := tweens w this in
  game tw <> None ->
  _object tw = Some o ->
  let w' := final (reset this w) in
  objects w' o = restored tw (objects w o) /\
  trace w' = trace w /\
  time_now w' = time_now w /\
  exists ve,
    tweens w' this =
      set_valuesStart (_valuesStart tw) (set_valuesEnd ve
        (set_isRunning true (set_startTime (time_now w + _delayTime tw) tw))) /\
    (forall q, is_array (obj_get (_valuesEnd tw) q) = false ->
       obj_get ve q = obj_get (_valuesEnd tw) q).
Proof.
  intros tw Hg Ho w'. subst w'. unfold reset, bind.
  destruct (reset_loop_returns this o w Ho) as (w1 & E & Ht & Htr & Hn & _ & _ & Hobj).
  rewrite E.
  destruct (start_final this o true w1) as (done & Ho' & Htr' & Hn' & _ & _ & vs & ve & Et & _ & _ & Hsc & Hvs & _).
  - rewrite Ht. exact Hg.
  - rewrite Ht. exact Ho.
  - rewrite Ht in Et, Hsc, Hvs. fold tw in Et, Hsc, Hvs.
    rewrite Ho', Htr', Hn', Hobj, Htr, Hn, app_nil_r.
    split; [reflexivity|]. split; [reflexivity|]. split; [reflexivity|].
    exists ve. rewrite Et, (Hvs eq_refl), Hn. split; [reflexivity | exact Hsc].
Qed.



(** * Further properties of the code *)

(** ** Outcomes of a sequence *)

Lemma final_bind_ret {A B : Type} (m : M A) (b : B) (w : World) :
  final ((m ;; ret b) w) = final (m w).
Proof. unfold bind. destruct (m w); reflexivity. Qed.

Lemma outcome_bind_ret {A B : Type} (m : M A) (b b' : B) (w : World) :
  outcome ((m ;; ret b) w) = inl b' -> b' = b.
Proof. unfold bind. destruct (m w); simpl; intro H; [congruence | discriminate]. Qed.

(** ** [to], up to the question of [autoStart] *)

(** Lines 135-152: the configuration [to] installs, before line 154 looks
    at [autoStart]. *)
Lemma to_steps (this : TweenId) (properties : jsobj) (duration : num)
    (ease : option (num -> num)) (delay : num) (lp yy : bool) (w : World) :
  exists w1,
    to this properties duration ease false delay lp yy w = Ok (Some this) w1 /\
    to this properties duration ease true delay lp yy w = start this false w1 /\
    tweens w1 this =
      set_yoyoCount 0%nat (set_yoyo yy (set_loop lp
        ((if num_ltb 0 delay then set_delayTime delay else fun tw => tw)
          ((match ease with Some f => set_easingFunction f | None => fun tw => tw end)
            (set_valuesEnd properties (set_duration duration (tweens w this))))))) /\
    trace w1 = trace w /\ objects w1 = objects w /\ time_now w1 = time_now w /\
    (forall j, j <> this -> tweens w1 j = tweens w j).
Proof.
  unfold to, bind. simpl.
  destruct ease as [f|]; simpl; destruct (num_ltb 0 delay); simpl;
    (eexists; split; [reflexivity|]; split; [reflexivity|]);
    simpl; unfold upd; rewrite !Nat.eqb_refl;
    do 4 (split; [reflexivity|]);
    intros j Hj; apply Nat.eqb_neq in Hj; rewrite !Hj; reflexivity.
Qed.

(** X1. [to] with [autoStart] is [to] without it followed by [start()]:
    the configuration of lines 135-152 is installed first ([_duration],
    [_valuesEnd], [_loop], [_yoyo] unconditionally), and the value returned
    is that of [start].  Without [autoStart], [to] returns the tween and
    starts nothing: [_valuesStart], [_startTime], [isRunning], the targets
    and what has been dispatched stay as they were.  With [autoStart] on a
    tween without a game or a target the call returns [undefined], the
    configuration being installed all the same. *)
Theorem to_autoStart_is_start (this : TweenId) (properties : jsobj) (duration : num)
    (ease : option (num -> num)) (delay : num) (lp yy : bool) (w : World) :
  exists w1,
    to this properties duration ease false delay lp yy w = Ok (Some this) w1 /\
    to this properties duration ease true delay lp yy w = start this false w1 /\
    (game (tweens w this) = None \/ _object (tweens w this) = None ->
       to this properties duration ease true delay lp yy w = Ok None w1) /\
    _duration (tweens w1 this) = duration /\
    _valuesEnd (tweens w1 this) = properties /\
    _loop (tweens w1 this) = lp /\
    _yoyo (tweens w1 this) = yy /\
    _valuesStart (tweens w1 this) = _valuesStart (tweens w this) /\
    _startTime (tweens w1 this) = _startTime (tweens w this) /\
    isRunning (tweens w1 this) = isRunning (tweens w this) /\
    trace w1 = trace w /\
    objects w1 = objects w /\
    (forall j, j <> this -> tweens w1 j = tweens w j).
Proof.
  destruct (to_steps this properties duration ease delay lp yy w)
    as (w1 & E0 & E1 & Et & Htr & Hobj & _ & Hj).
  exists w1. split; [exact E0|]. split; [exact E1|].
  split.
  { intro Hu. rewrite E1. apply start_unbound. rewrite Et.
    destruct ease, (num_ltb 0 delay); exact Hu. }
  rewrite Et.
  destruct ease, (num_ltb 0 delay); simpl; repeat (split; [reflexivity|]); auto.
Qed.

(** ** [start]: what it assigns *)



Lemma start_looped_trace (this : TweenId) : within keeps_trace (start this true).
Proof.
  intro w. unfold keeps_trace.
  destruct (game (tweens w this)) as [g|] eqn:Eg;
    [destruct (_object (tweens w this)) as [o|] eqn:Eo|].
  - destruct (start_final this o true w) as (done & _ & Htr & _).
    + rewrite Eg. discriminate.
    + exact Eo.
    + rewrite app_nil_r in Htr. exact Htr.
  - rewrite start_unbound by (right; exact Eo). reflexivity.
  - rewrite start_unbound by (left; exact Eg). reflexivity.
Qed.

(** X8. The internal restart [start(true)] is silent, returning or
    throwing: nothing is registered with the manager, no signal is
    dispatched, and the captured start values stay as they are. *)
Theorem start_looped_is_silent (this : TweenId) (w : World) :
  let w' := final (start this true w) in
  trace w' = trace w /\
  _valuesStart (tweens w' this) = _valuesStart (tweens w this).
Proof.
  intro w'. subst w'. split; [apply start_looped_trace|].
  destruct (game (tweens w this)) as [g|] eqn:Eg;
    [destruct (_object (tweens w this)) as [o|] eqn:Eo|].
  - destruct (start_final this o true w)
      as (done & _ & _ & _ & _ & _ & vs & ve & Et & _ & _ & _ & Hvs & _).
    + rewrite Eg. discriminate.
    + exact Eo.
    + rewrite Et. simpl. apply Hvs. reflexivity.
  - rewrite start_unbound by (right; exact Eo). reflexivity.
  - rewrite start_unbound by (left; exact Eg). reflexivity.
Qed.



(** ** [start], as a fold over the keys *)

(** One turn of the loop of [start], for a key that passes the check. *)
Lemma start_property_maps (this : TweenId) (target : ObjId) (looped : bool)
    (x : ident) (w : World) :
  key_ok (objects w target) x ->
  let tw := tweens w this in
  let m := start_turn (objects w target) looped (_valuesStart tw, _valuesEnd tw) x in
  exists w1, start_property this target looped x w = Ok tt w1 /\
    objects w1 = objects w /\ trace w1 = trace w /\ time_now w1 = time_now w /\
    time_pauseDuration w1 = time_pauseDuration w /\
    (forall j, j <> this -> tweens w1 j = tweens w j) /\
    tweens w1 this = set_valuesStart (fst m) (set_valuesEnd (snd m) tw).
Proof.
  intros Hok tw m. subst m. unfold start_property, start_turn.
  unfold key_ok in Hok. rewrite Hok. fold tw. simpl snd. simpl fst.
  destruct (obj_get (_valuesEnd tw) x) as [| |n|[|k ks]|];
    try (destruct looped; simpl negb; cbv iota;
         [ exists w; do 5 (split; [reflexivity|]); split; [intros; reflexivity|];
           simpl; symmetry; apply tween_eta
         | eexists; split; [reflexivity|]; simpl; do 4 (split; [reflexivity|]);
           split; [intros j Hj; apply upd_other; exact Hj
                  | rewrite upd_same; subst tw; destruct (tweens w this); reflexivity] ]).
  - exists w. do 5 (split; [reflexivity|]). split; [intros; reflexivity|].
    simpl. symmetry. apply tween_eta.
  - destruct looped; simpl negb; cbv iota.
    + eexists. split; [reflexivity|]. simpl. do 4 (split; [reflexivity|]).
      split; [intros j Hj; apply upd_other; exact Hj | rewrite upd_same; subst tw; destruct (tweens w this); reflexivity].
    + eexists. split; [reflexivity|]. simpl. do 4 (split; [reflexivity|]).
      split; [intros j Hj; rewrite !upd_other by exact Hj; reflexivity|].
      rewrite !upd_same. subst tw. destruct (tweens w this); reflexivity.
Qed.

(** The loop of [start] over keys that all pass the check is a fold of
    [start_turn]; the target, which [start] never writes, is the same at
    every turn. *)
Lemma start_loop_maps (this : TweenId) (target : ObjId) (looped : bool)
    (l : list ident) (w : World) :
  (forall q, In q l -> key_ok (objects w target) q) ->
  let tw := tweens w this in
  let m := fold_left (start_turn (objects w target) looped) l
             (_valuesStart tw, _valuesEnd tw) in
  exists w1, for_each l (start_property this target looped) w = Ok tt w1 /\
    objects w1 = objects w /\ trace w1 = trace w /\ time_now w1 = time_now w /\
    time_pauseDuration w1 = time_pauseDuration w /\
    (forall j, j <> this -> tweens w1 j = tweens w j) /\
    tweens w1 this = set_valuesStart (fst m) (set_valuesEnd (snd m) tw).
Proof.
  revert w. induction l as [|x l IH]; intros w Hok tw m.
  - exists w. do 5 (split; [reflexivity|]). split; [intros; reflexivity|].
    subst m. simpl. symmetry. apply tween_eta.
  - destruct (start_property_maps this target looped x w (Hok x (or_introl eq_refl)))
      as (w1 & E1 & Ho1 & Htr1 & Hn1 & Hp1 & Hj1 & Et1).
    destruct (IH w1) as (w2 & E2 & Ho2 & Htr2 & Hn2 & Hp2 & Hj2 & Et2).
    { intros q Hq. rewrite Ho1. apply Hok. right. exact Hq. }
    exists w2. simpl for_each. unfold bind. rewrite E1. split; [exact E2|].
    split; [congruence|]. split; [congruence|]. split; [congruence|]. split; [congruence|].
    split; [intros j Hj; rewrite Hj2, Hj1 by exact Hj; reflexivity|].
    rewrite Et2, Et1, Ho1. fold tw. subst m. simpl fold_left.
    destruct (start_turn (objects w target) looped (_valuesStart tw, _valuesEnd tw) x)
      as [vs1 ve1]. simpl. reflexivity.
Qed.

(** [start] on a bound tween, returning or throwing: the keys that have
    had their turn are a prefix of the keys of [_valuesEnd], and the two
    maps are the fold of [start_turn] over them. *)
Lemma start_maps_final (this : TweenId) (target : ObjId) (looped : bool) (w : World) :
  let tw := tweens w this in
  game tw <> None ->
  _object tw = Some target ->
  exists done rest,
    own_keys (_valuesEnd tw) = done ++ rest /\
    (rest = [] /\ outcome (start this looped w) = inl (Some this) \/
     exists k after, rest = k :: after /\ ~ key_ok (objects w target) k /\
       outcome (start this looped w) = inr InterpolationError) /\
    let m := fold_left (start_turn (objects w target) looped) done
               (_valuesStart tw, _valuesEnd tw) in
    tweens (final (start this looped w)) this =
      set_valuesStart (fst m) (set_valuesEnd (snd m)
        (set_isRunning true (set_startTime (time_now w + _delayTime tw) tw))).
Proof.
  intros tw Hg Ho.
  destruct (start_begin_returns this target looped w)
    as (wa & Eb & Hoa & _ & _ & _ & _ & Et). fold tw in Et.
  assert (Ek : own_keys (_valuesEnd (tweens wa this)) = own_keys (_valuesEnd tw)).
  { rewrite Et. reflexivity. }
  assert (Em : (_valuesStart (tweens wa this), _valuesEnd (tweens wa this)) =
               (_valuesStart tw, _valuesEnd tw)).
  { rewrite Et. reflexivity. }
  assert (Es : start this looped w =
               (for_each (own_keys (_valuesEnd tw)) (start_property this target looped) ;;
                ret (Some this)) wa).
  { unfold start. fold tw. rewrite Ho. destruct (game tw); [|congruence].
    unfold bind at 1. rewrite Eb. unfold bind. rewrite Ek. reflexivity. }
  rewrite Es. unfold bind.
  destruct (first_bad_key (objects w) target (own_keys (_valuesEnd tw)))
    as [Hall | (before & k & after & El & Hb & Hk)].
  - destruct (start_loop_maps this target looped (own_keys (_valuesEnd tw)) wa)
      as (w1 & E & _ & _ & _ & _ & _ & Et1).
    { intros q Hq. rewrite Hoa. apply Hall. exact Hq. }
    exists (own_keys (_valuesEnd tw)), []. rewrite app_nil_r. split; [reflexivity|].
    rewrite E. simpl. split; [left; split; reflexivity|].
    rewrite Et1, Em, Hoa, Et.
    destruct (fold_left _ _ _) as [vs1 ve1]. reflexivity.
  - destruct (start_loop_maps this target looped before wa)
      as (w1 & E & Ho1 & _ & _ & _ & _ & Et1).
    { intros q Hq. rewrite Hoa. apply Hb. exact Hq. }
    exists before, (k :: after). split; [exact El|].
    assert (Ek1 : start_property this target looped k w1 = Err InterpolationError w1).
    { unfold start_property. rewrite Ho1, Hoa.
      unfold key_ok in Hk. destruct (is_null _ || negb _); [reflexivity | congruence]. }
    rewrite El, for_each_app. unfold bind. rewrite E. simpl for_each. unfold bind.
    rewrite Ek1. simpl.
    split; [right; exists k, after; repeat split; exact Hk|].
    rewrite Et1, Em, Hoa, Et.
    destruct (fold_left _ _ _) as [vs1 ve1]. reflexivity.
Qed.

Lemma same_at_refl (p : ident) (m : jsobj * jsobj) : same_at p m m.
Proof. split; reflexivity. Qed.

Lemma same_at_trans (p : ident) (m1 m2 m3 : jsobj * jsobj) :
  same_at p m1 m2 -> same_at p m2 m3 -> same_at p m1 m3.
Proof. intros (A & B) (A' & B'). split; congruence. Qed.

Lemma obj_get_same (o o' : jsobj) (p : ident) :
  obj_lookup o' p = obj_lookup o p -> obj_get o' p = obj_get o p.
Proof. unfold obj_get. intros ->. reflexivity. Qed.

(** The turn of another key leaves [p] alone. *)
Lemma start_turn_other (ob : jsobj) (looped : bool) (m : jsobj * jsobj) (q p : ident) :
  p <> q -> same_at p m (start_turn ob looped m q).
Proof.
  intro Hne. unfold start_turn, same_at.
  destruct (obj_get (snd m) q) as [| |n|[|k ks]|]; destruct looped; simpl;
    repeat split; try reflexivity; apply obj_lookup_set_other; exact Hne.
Qed.

(** What the turn of [p] leaves at [p] depends on what was at [p] only. *)
Lemma start_turn_same (ob : jsobj) (looped : bool) (m m' : jsobj * jsobj) (p : ident) :
  same_at p m m' -> same_at p (start_turn ob looped m p) (start_turn ob looped m' p).
Proof.
  intros (A & B). unfold start_turn, same_at.
  rewrite (obj_get_same _ _ p B).
  destruct (obj_get (snd m) p) as [| |n|[|k ks]|]; destruct looped; simpl;
    rewrite ?obj_lookup_set_same; auto.
Qed.

Lemma fold_start_turn_out (ob : jsobj) (looped : bool) (l : list ident)
    (m : jsobj * jsobj) (p : ident) :
  ~ In p l -> same_at p m (fold_left (start_turn ob looped) l m).
Proof.
  revert m. induction l as [|x l IH]; intros m Hp; simpl; [apply same_at_refl|].
  apply (same_at_trans p _ (start_turn ob looped m x)).
  - apply start_turn_other. intro E. apply Hp. left. congruence.
  - apply IH. intro H. apply Hp. right. exact H.
Qed.

(** With no key twice, the loop leaves at [p] what the turn of [p] alone
    leaves there. *)
Lemma fold_start_turn_at (ob : jsobj) (looped : bool) (l : list ident)
    (m : jsobj * jsobj) (p : ident) :
  NoDup l -> In p l ->
  same_at p (start_turn ob looped m p) (fold_left (start_turn ob looped) l m).
Proof.
  revert m. induction l as [|x l IH]; intros m Hnd Hin; [destruct Hin|].
  inversion Hnd as [|? ? Hx Hnd']; subst. simpl.
  destruct (string_eq_dec_cases x p) as [->|Hne].
  - apply fold_start_turn_out. exact Hx.
  - destruct Hin as [E|Hin]; [contradiction|].
    apply (same_at_trans p _ (start_turn ob looped (start_turn ob looped m x) p)).
    + apply start_turn_same. apply start_turn_other. congruence.
    + apply IH; assumption.
Qed.

(** An empty keyframe list stays out of the loop altogether. *)
Lemma fold_start_turn_empty (ob : jsobj) (looped : bool) (l : list ident)
    (m : jsobj * jsobj) (p : ident) :
  obj_get (snd m) p = VArr [] -> same_at p m (fold_left (start_turn ob looped) l m).
Proof.
  revert m. induction l as [|x l IH]; intros m He; simpl; [apply same_at_refl|].
  destruct (string_eq_dec_cases x p) as [->|Hne].
  - assert (Es : start_turn ob looped m p = m).
    { unfold start_turn. rewrite He. reflexivity. }
    rewrite Es. apply IH. exact He.
  - assert (Hs : same_at p m (start_turn ob looped m x)).
    { apply start_turn_other. congruence. }
    apply (same_at_trans p _ _ _ Hs). apply IH.
    rewrite (obj_get_same _ _ p (proj2 Hs)). exact He.
Qed.

(** [start] on a bound tween whose keys all pass the check of line 205. *)
Lemma start_maps_returns (this : TweenId) (target : ObjId) (looped : bool) (w : World) :
  let tw := tweens w this in
  game tw <> None ->
  _object tw = Some target ->
  (forall q, In q (own_keys (_valuesEnd tw)) -> key_ok (objects w target) q) ->
  let m := fold_left (start_turn (objects w target) looped) (own_keys (_valuesEnd tw))
             (_valuesStart tw, _valuesEnd tw) in
  exists w', start this looped w = Ok (Some this) w' /\
    tweens w' this =
      set_valuesStart (fst m) (set_valuesEnd (snd m)
        (set_isRunning true (set_startTime (time_now w + _delayTime tw) tw))).
Proof.
  intros tw Hg Ho Hok m.
  destruct (start_returns this target looped w Hg Ho Hok) as (w' & E & _).
  destruct (start_maps_final this target looped w Hg Ho)
    as (done & rest & Ek & [(-> & _) | (k & after & -> & Hk & _)] & Et).
  - fold tw in Ek, Et. cbv zeta in Et. rewrite app_nil_r in Ek.
    exists w'. split; [exact E|]. rewrite E in Et. subst m. rewrite Ek. exact Et.
  - exfalso. apply Hk. apply Hok. fold tw in Ek. rewrite Ek.
    apply in_or_app. right. left. reflexivity.
Qed.

(** ** Keyframes *)

(** X9. A key whose end value is an empty keyframe list is skipped by
    [start] (line 216): whatever was captured for it before stays, nothing
    new is captured, and the list stays empty.  This holds for either value
    of [looped] and however the call ends. *)
Theorem start_skips_empty_keyframes (this : TweenId) (looped : bool) (p : ident)
    (w : World) :
  obj_get (_valuesEnd (tweens w this)) p = VArr [] ->
  let w' := final (start this looped w) in
  obj_lookup (_valuesStart (tweens w' this)) p = obj_lookup (_valuesStart (tweens w this)) p /\
  obj_get (_valuesEnd (tweens w' this)) p = VArr [].
Proof.
  intros He w'. subst w'.
  destruct (game (tweens w this)) as [g|] eqn:Eg;
    [destruct (_object (tweens w this)) as [o|] eqn:Eo|].
  - destruct (start_maps_final this o looped w) as (done & rest & _ & _ & Et).
    + rewrite Eg. discriminate.
    + exact Eo.
    + cbv zeta in Et. rewrite Et.
      destruct (fold_start_turn_empty (objects w o) looped done
                  (_valuesStart (tweens w this), _valuesEnd (tweens w this)) p He) as (A & B).
      destruct (fold_left _ _ _) as [vs1 ve1]. simpl in *.
      split; [exact A|]. rewrite (obj_get_same _ _ p B). exact He.
  - rewrite start_unbound by (right; exact Eo). split; [reflexivity | exact He].
  - rewrite start_unbound by (left; exact Eg). split; [reflexivity | exact He].
Qed.

Lemma start_skips_empty_keyframes_witness :
  obj_lookup (_valuesStart (tweens (final (start 0%nat false empty_keyframes_world)) 0%nat))
    "x"%string = None.
Proof.
  destruct (start_skips_empty_keyframes 0%nat false "x"%string empty_keyframes_world)
    as (Hs & _).
  - vm_compute. reflexivity.
  - rewrite Hs. vm_compute. reflexivity.
Defined.

(** The assignment of line 372 on a keyframe list. *)
Lemma update_keyframes (this : TweenId) (o : ObjId) (p : ident) (ks : list value)
    (time : num) (w : World) :
  let tw := tweens w this in
  _object tw = Some o ->
  In p (own_keys (_valuesStart tw)) ->
  obj_get (_valuesEnd tw) p = VArr ks ->
  exists w1, update_values this time w = Ok tt w1 /\
    obj_get (objects w1 o) p =
      VNum (_interpolationFunction tw ks (_easingFunction tw (elapsed_at tw time))).
Proof.
  intros tw Ho Hin He.
  destruct (update_values_returns this o time w Ho) as (w1 & E & _ & _ & Hob & _).
  exists w1. split; [exact E|].
  unfold obj_get. rewrite Hob, interpolated_in by exact Hin.
  unfold tweened_value. simpl. fold tw. rewrite He. reflexivity.
Qed.

(** X10. An external [start] puts the target's current value in front of
    a non-empty keyframe list (line 220) and captures it as the start value;
    every later interpolation hands the lengthened list, with the eased
    elapsed time, to the interpolation function and assigns the result
    (line 372).  The keys of [_valuesEnd] are taken to be distinct, as those
    of a JavaScript object are. *)
Theorem start_prepends_to_keyframes (this : TweenId) (target : ObjId) (p : ident)
    (k : value) (ks : list value) (w : World) :
  let tw := tweens w this in
  game tw <> None ->
  _object tw = Some target ->
  (forall q, In q (own_keys (_valuesEnd tw)) -> key_ok (objects w target) q) ->
  NoDup (own_keys (_valuesEnd tw)) ->
  obj_get (_valuesEnd tw) p = VArr (k :: ks) ->
  let cur := obj_get (objects w target) p in
  exists w', start this false w = Ok (Some this) w' /\
    obj_get (_valuesStart (tweens w' this)) p = cur /\
    obj_get (_valuesEnd (tweens w' this)) p = VArr (cur :: k :: ks) /\
    forall time, exists w1,
      update_values this time w' = Ok tt w1 /\
      obj_get (objects w1 target) p =
        VNum (_interpolationFunction tw (cur :: k :: ks)
                (_easingFunction tw (elapsed_at (tweens w' this) time))).
Proof.
  intros tw Hg Ho Hok Hnd He cur.
  destruct (start_maps_returns this target false w Hg Ho Hok) as (w' & E & Et).
  fold tw in Et. cbv zeta in Et.
  assert (Hin : In p (own_keys (_valuesEnd tw))).
  { apply obj_get_in_keys. rewrite He. discriminate. }
  destruct (fold_start_turn_at (objects w target) false (own_keys (_valuesEnd tw))
              (_valuesStart tw, _valuesEnd tw) p Hnd Hin) as (A & B).
  unfold start_turn in A, B. simpl snd in A, B. rewrite He in A, B. simpl in A, B.
  rewrite obj_lookup_set_same in A, B.
  destruct (fold_left _ _ _) as [vs1 ve1]. simpl in A, B, Et.
  assert (Hs : obj_get (_valuesStart (tweens w' this)) p = cur).
  { rewrite Et. unfold obj_get. simpl. rewrite A. reflexivity. }
  assert (Hv : obj_get (_valuesEnd (tweens w' this)) p = VArr (cur :: k :: ks)).
  { rewrite Et. unfold obj_get. simpl. rewrite B. reflexivity. }
  exists w'. split; [exact E|]. split; [exact Hs|]. split; [exact Hv|].
  intro time.
  destruct (update_keyframes this target p (cur :: k :: ks) time w') as (w1 & E1 & Hx).
  - rewrite Et. exact Ho.
  - apply obj_lookup_in_keys with (v := cur). rewrite Et. simpl. exact A.
  - exact Hv.
  - exists w1. split; [exact E1|]. rewrite Hx, Et. reflexivity.
Qed.

Lemma start_prepends_to_keyframes_witness :
  exists w', start 0%nat false keyframes_world = Ok (Some 0%nat) w' /\
    obj_get (_valuesEnd (tweens w' 0%nat)) "x"%string = VArr [VNum 0; VNum (num_of_Z 10)].
Proof.
  destruct (start_prepends_to_keyframes 0%nat 0%nat "x"%string (VNum (num_of_Z 10)) []
              keyframes_world) as (w' & E & _ & Hv & _).
  - vm_compute. discriminate.
  - vm_compute. reflexivity.
  - intros q Hq. vm_compute in Hq. destruct Hq as [<- | []]. vm_compute. reflexivity.
  - vm_compute. constructor; [intros [] | constructor].
  - vm_compute. reflexivity.
  - exists w'. split; [exact E|]. rewrite Hv. vm_compute. reflexivity.
Defined.

(** ** A second configuration on the same tween *)

Lemma in_keys_lookup (o : jsobj) (k : ident) :
  In k (own_keys o) -> exists v, obj_lookup o k = Some v.
Proof.
  induction o as [|[k' v'] o IH]; simpl; [tauto|].
  intros [E | Hin].
  - subst k'. rewrite String.eqb_refl. eexists. reflexivity.
  - destruct (String.eqb k' k); [eexists; reflexivity | apply IH; exact Hin].
Qed.

Lemma lookup_not_in_keys (o : jsobj) (k : ident) :
  ~ In k (own_keys o) -> obj_lookup o k = None.
Proof.
  intro H. destruct (obj_lookup o k) eqn:E; [|reflexivity].
  exfalso. apply H. eapply obj_lookup_in_keys. exact E.
Qed.

(** A captured key whose end value is missing: what line 376 computes is
    not a number. *)
Lemma tweened_value_no_end (tw : Tween) (p : ident) :
  obj_lookup (_valuesEnd tw) p = None -> tweened_value tw p = VOther.
Proof.
  intro H. unfold tweened_value, obj_get at 1. rewrite H. unfold blend.
  destruct (to_number (obj_get (_valuesStart tw) p)); reflexivity.
Qed.

(** X2. [to] replaces [_valuesEnd] and leaves [_valuesStart] alone, and
    [start] only adds to it: a key captured under an earlier configuration
    and absent from the new one is still among the keys [update] goes
    through.  Its end value is now [undefined], so that line 376 computes
    a value that is not a number (NaN for a numeric start value) and every
    tick of the new run assigns it to the target. *)
Theorem to_keeps_captured_keys (this : TweenId) (o : ObjId) (p : ident)
    (properties : jsobj) (duration : num) (ease : option (num -> num)) (delay : num)
    (lp yy : bool) (w : World) :
  let tw := tweens w this in
  game tw <> None ->
  _object tw = Some o ->
  _paused tw = false ->
  In p (own_keys (_valuesStart tw)) ->
  ~ In p (own_keys properties) ->
  (forall q, In q (own_keys properties) -> key_ok (objects w o) q) ->
  exists w1,
    to this properties duration ease true delay lp yy w = Ok (Some this) w1 /\
    obj_lookup (_valuesStart (tweens w1 this)) p = obj_lookup (_valuesStart tw) p /\
    forall time,
      num_ltb time (_startTime (tweens w1 this)) = false ->
      elapsed_at (tweens w1 this) time <> 1 ->
      exists w2, update this time w1 = Ok true w2 /\ obj_get (objects w2 o) p = VOther.
Proof.
  intros tw Hg Ho Hp Hin Hout Hok.
  destruct (to_steps this properties duration ease delay lp yy w)
    as (w0 & _ & E1 & Et0 & _ & Hobj0 & _ & _).
  fold tw in Et0.
  assert (F : game (tweens w0 this) = game tw /\ _object (tweens w0 this) = _object tw /\
              _paused (tweens w0 this) = _paused tw /\
              _valuesStart (tweens w0 this) = _valuesStart tw /\
              _valuesEnd (tweens w0 this) = properties).
  { rewrite Et0. destruct ease, (num_ltb 0 delay); repeat split. }
  destruct F as (Fg & Fo & Fp & Fs & Fe).
  destruct (start_returns this o false w0) as (w1 & E & Hobj1 & _ & _ & _ & _ & vs & ve & Et & Hk & Hrest & _).
  { rewrite Fg. exact Hg. }
  { rewrite Fo. exact Ho. }
  { rewrite Fe, Hobj0. exact Hok. }
  rewrite Fe in Hk, Hrest. rewrite Fs in Hrest.
  destruct (Hrest p Hout) as (Hvs & Hve).
  exists w1. split; [rewrite E1; exact E|].
  assert (Evs : _valuesStart (tweens w1 this) = vs) by (rewrite Et; reflexivity).
  assert (Eve : _valuesEnd (tweens w1 this) = ve) by (rewrite Et; reflexivity).
  split; [rewrite Evs; exact Hvs|].
  intros time Hlt Hel.
  destruct (update_steps this o time w1) as (w2 & _ & Hstep & Eu).
  { rewrite Et. simpl. rewrite Fo. exact Ho. }
  { rewrite Et. simpl. rewrite Fp. exact Hp. }
  { exact Hlt. }
  apply num_eqb_neq in Hel. rewrite Hel in Eu.
  exists w2. split; [exact Eu|].
  destruct Hstep as (_ & _ & Hob & _).
  unfold obj_get. rewrite Hob, interpolated_in.
  - rewrite tweened_value_no_end; [reflexivity|]. simpl. rewrite Eve, Hve.
    apply lookup_not_in_keys. exact Hout.
  - simpl. rewrite Evs. destruct (in_keys_lookup _ _ Hin) as (v & Ev).
    apply obj_lookup_in_keys with (v := v). rewrite Hvs. exact Ev.
Qed.

Lemma to_keeps_captured_keys_witness :
  exists w1 w2,
    to 0%nat [("y"%string, VNum (num_of_Z 5))] (num_of_Z 100) None true 0 false false
       plain_world = Ok (Some 0%nat) w1 /\
    update 0%nat (num_of_Z 50) w1 = Ok true w2 /\
    obj_get (objects w2 0%nat) "x"%string = VOther.
Proof.
  destruct (to_keeps_captured_keys 0%nat 0%nat "x"%string
              [("y"%string, VNum (num_of_Z 5))] (num_of_Z 100) None 0 false false
              plain_world) as (w1 & E & _ & Hup).
  - vm_compute. discriminate.
  - vm_compute. reflexivity.
  - vm_compute. reflexivity.
  - vm_compute. left. reflexivity.
  - vm_compute. intros [H | []]. discriminate.
  - intros q Hq. vm_compute in Hq. destruct Hq as [<- | []]. vm_compute. reflexivity.
  - assert (Ew : w1 = final (to 0%nat [("y"%string, VNum (num_of_Z 5))] (num_of_Z 100) None
                               true 0 false false plain_world)) by (rewrite E; reflexivity).
    destruct (Hup (num_of_Z 50)) as (w2 & E2 & Hx).
    + subst w1. vm_compute. reflexivity.
    + subst w1. vm_compute. discriminate.
    + exists w1, w2. split; [exact E|]. split; [exact E2 | exact Hx].
Defined.

(** ** Ticks that [update] lets pass *)

(** X22. [start] anchors the tween at [now + delay], and until the time
    handed to [update] reaches that anchor a call of [update] returns true
    and changes nothing at all. *)
Theorem update_waits_for_the_delay (this : TweenId) (target : ObjId) (time : num)
    (w : World) :
  let tw := tweens w this in
  game tw <> None ->
  _object tw = Some target ->
  (forall q, In q (own_keys (_valuesEnd tw)) -> key_ok (objects w target) q) ->
  time < time_now w + _delayTime tw ->
  exists w1, start this false w = Ok (Some this) w1 /\ update this time w1 = Ok true w1.
Proof.
  intros tw Hg Ho Hok Hlt.
  destruct (start_returns this target false w Hg Ho Hok)
    as (w1 & E & _ & _ & _ & _ & _ & vs & ve & Et & _).
  exists w1. split; [exact E|].
  unfold update. rewrite Et. simpl (_startTime _).
  apply num_ltb_lt in Hlt. fold tw. rewrite Hlt, orb_true_r. reflexivity.
Qed.

Lemma update_waits_for_the_delay_witness :
  exists w1, start 0%nat false delayed_world = Ok (Some 0%nat) w1 /\
    update 0%nat (num_of_Z 10) w1 = Ok true w1.
Proof.
  apply (update_waits_for_the_delay 0%nat 0%nat (num_of_Z 10) delayed_world).
  - vm_compute. discriminate.
  - vm_compute. reflexivity.
  - intros q Hq. vm_compute in Hq. destruct Hq as [<- | []]. vm_compute. reflexivity.
  - vm_compute. reflexivity.
Defined.




(** ** Frames of [update] *)

Lemma only_tween_preorder (this : TweenId) : preorder (only_tween this).
Proof.
  split.
  - intros w j _. reflexivity.
  - intros w1 w2 w3 H12 H23 j Hj. rewrite H23, H12 by exact Hj. reflexivity.
Qed.

Lemma keeps_trace_preorder : preorder keeps_trace.
Proof. split; unfold keeps_trace; congruence. Qed.

Lemma keeps_tweens_preorder : preorder keeps_tweens.
Proof. split; unfold keeps_tweens; congruence. Qed.

Lemma trace_grows_preorder : preorder trace_grows.
Proof.
  split.
  - intro w. exists []. symmetry. apply app_nil_r.
  - intros w1 w2 w3 (l & E) (l' & E'). exists (l ++ l'). rewrite E', E, app_assoc. reflexivity.
Qed.

Section UpdateWithin.
Variable F : Tween -> Tween -> Prop.
Hypothesis HF : tween_preorder F.
Hypothesis Hstart : forall c looped, within (tweenwise F) (start c looped).
Hypothesis Hreverse : forall c, within (tweenwise F) (reverse c).
Hypothesis Hedit : update_edits F.

Let HR : preorder (tweenwise F) := tweenwise_preorder F HF.

Lemma start_chained_within (chained : list TweenId) :
  within (tweenwise F) (start_chained chained).
Proof.
  apply (within_for_each _ HR). intro c.
  apply (within_bind _ HR); [apply Hstart | intros _; apply (within_ret _ HR)].
Qed.

Lemma reset_within (this : TweenId) : within (tweenwise F) (reset this).
Proof.
  apply (within_bind _ HR); [|intros _; apply Hstart].
  intro w; cbv beta. apply (within_for_each _ HR). intros property w1.
  unfold reset_property. destruct (_object (tweens w1 this));
    [apply write_object_tweenwise; exact HF | apply (within_throw _ HR)].
Qed.

Lemma update_finish_within (this : TweenId) : within (tweenwise F) (update_finish this).
Proof.
  destruct Hedit as (_ & _ & Hc & Hs).
  assert (Hcount : within (tweenwise F) (modify_tween this (set_yoyoCount 0%nat))).
  { apply modify_tween_tweenwise; [exact HF | exact Hc]. }
  assert (Hemit : forall e, within (tweenwise F) (emit e)).
  { intro e. apply emit_tweenwise. exact HF. }
  intro w. unfold update_finish.
  destruct (_yoyo (tweens w this)).
  - destruct (Nat.eqb (_yoyoCount (tweens w this)) 0).
    + apply (within_bind _ HR); [apply Hreverse | intros _; apply (within_ret _ HR)].
    + destruct (_loop (tweens w this)); simpl negb; cbv iota.
      * apply (within_bind _ HR); [exact Hcount | intros _].
        apply (within_bind _ HR); [apply Hreverse | intros _; apply (within_ret _ HR)].
      * apply (within_bind _ HR); [apply Hemit | intros _].
        apply (within_bind _ HR); [apply start_chained_within | intros _; apply (within_ret _ HR)].
  - destruct (_loop (tweens w this)).
    + apply (within_bind _ HR); [exact Hcount | intros _].
      apply (within_bind _ HR); [apply reset_within | intros _; apply (within_ret _ HR)].
    + apply (within_bind _ HR); [apply Hemit | intros _].
      apply (within_bind _ HR); [apply start_chained_within | intros _].
      apply (within_bind _ HR); [|intros _; apply (within_ret _ HR)].
      intro w'; cbv beta. destruct (Nat.eqb _ 0); [|apply (within_ret _ HR)].
      apply modify_tween_tweenwise; [exact HF | exact Hs].
Qed.

Lemma update_within (this : TweenId) (time : num) : within (tweenwise F) (update this time).
Proof.
  destruct Hedit as (Hte & Htv & _ & _).
  intro w. unfold update.
  destruct (_paused (tweens w this) || num_ltb time (_startTime (tweens w this)));
    [apply (within_ret _ HR)|].
  apply (within_bind _ HR).
  - apply update_values_tweenwise; assumption.
  - intros _ w1. destruct (num_eqb _ 1); [apply update_finish_within | apply (within_ret _ HR)].
Qed.
End UpdateWithin.

Lemma update_keeps {X : Type} (proj : Tween -> X) (this : TweenId) (time : num)
    (w : World) (j : TweenId) :
  update_stable proj -> proj (tweens (final (update this time w)) j) = proj (tweens w j).
Proof.
  intros (Hs & Hte & Htv & Hc).
  pose proof (start_stable_edits proj Hs) as Hse.
  apply (update_within (keeps proj) (keeps_preorder proj)).
  - intros c looped. apply start_tweenwise; [apply keeps_preorder | exact Hse].
  - intros c. apply reverse_tweenwise; [apply keeps_preorder | exact Hse |].
    intro tw. apply Hc.
  - destruct Hs as (_ & _ & Hr & _). repeat split; intros; unfold keeps; auto.
Qed.

(** X25. A call of [update] changes the configuration of no tween,
    neither of the one updated nor of those it starts: game, target,
    duration, delay, the loop and yoyo flags, the easing and interpolation
    functions, the chained tweens and the pause flag are after the call what
    they were before, however the call ends. *)
Theorem update_keeps_configuration (this : TweenId) (time : num) (w : World) (j : TweenId) :
  let tw := tweens w j in
  let tw' := tweens (final (update this time w)) j in
  game tw' = game tw /\ _object tw' = _object tw /\
  _duration tw' = _duration tw /\ _delayTime tw' = _delayTime tw /\
  _loop tw' = _loop tw /\ _yoyo tw' = _yoyo tw /\
  _easingFunction tw' = _easingFunction tw /\
  _interpolationFunction tw' = _interpolationFunction tw /\
  _chainedTweens tw' = _chainedTweens tw /\ _paused tw' = _paused tw.
Proof.
  intros tw tw'. subst tw tw'.
  repeat split; apply update_keeps; repeat split; intros; reflexivity.
Qed.

Lemma modify_tween_only (this : TweenId) (f : Tween -> Tween) :
  within (only_tween this) (modify_tween this f).
Proof. intros w j Hj. simpl. apply upd_other. exact Hj. Qed.

Lemma emit_only (this : TweenId) (e : Event) : within (only_tween this) (emit e).
Proof. intros w j Hj. reflexivity. Qed.

Lemma write_object_only (this : TweenId) (o : ObjId) (k : ident) (v : value) :
  within (only_tween this) (write_object o k v).
Proof. intros w j Hj. reflexivity. Qed.

Lemma start_only (this : TweenId) (looped : bool) :
  within (only_tween this) (start this looped).
Proof. intros w j Hj. apply start_other. congruence. Qed.

Lemma update_property_only (this : TweenId) (property : ident) :
  within (only_tween this) (update_property this property).
Proof.
  intro w. unfold update_property. destruct (_object (tweens w this));
    [apply write_object_only | intros j Hj; reflexivity].
Qed.

Lemma reset_property_only (this : TweenId) (property : ident) :
  within (only_tween this) (reset_property this property).
Proof.
  intro w. unfold reset_property. destruct (_object (tweens w this));
    [apply write_object_only | intros j Hj; reflexivity].
Qed.

Lemma reverse_only (this : TweenId) : within (only_tween this) (reverse this).
Proof.
  pose proof (only_tween_preorder this) as HR. unfold reverse.
  apply (within_bind _ HR); [|intros _].
  { intro w; cbv beta. apply (within_for_each _ HR). intros property w1.
    unfold reverse_property.
    apply (within_bind _ HR); [|intros _]; apply modify_tween_only. }
  apply (within_bind _ HR); [apply modify_tween_only | intros _; apply start_only].
Qed.

Lemma reset_only (this : TweenId) : within (only_tween this) (reset this).
Proof.
  pose proof (only_tween_preorder this) as HR. unfold reset.
  apply (within_bind _ HR); [|intros _; apply start_only].
  intro w; cbv beta. apply (within_for_each _ HR). intro property.
  apply reset_property_only.
Qed.

Lemma update_values_only (this : TweenId) (time : num) :
  within (only_tween this) (update_values this time).
Proof.
  pose proof (only_tween_preorder this) as HR. unfold update_values.
  apply (within_bind _ HR); [apply modify_tween_only | intros _].
  apply (within_bind _ HR); [apply modify_tween_only | intros _].
  apply (within_bind _ HR); [|intros _; intro w; cbv beta; apply emit_only].
  intro w; cbv beta. apply (within_for_each _ HR). intro property.
  apply update_property_only.
Qed.

Lemma modify_tween_trace (this : TweenId) (f : Tween -> Tween) :
  within keeps_trace (modify_tween this f).
Proof. intro w. reflexivity. Qed.

Lemma write_object_trace (o : ObjId) (k : ident) (v : value) :
  within keeps_trace (write_object o k v).
Proof. intro w. reflexivity. Qed.

Lemma reverse_trace (this : TweenId) : within keeps_trace (reverse this).
Proof.
  pose proof keeps_trace_preorder as HR. unfold reverse.
  apply (within_bind _ HR); [|intros _].
  { intro w; cbv beta. apply (within_for_each _ HR). intros property w1.
    unfold reverse_property.
    apply (within_bind _ HR); [|intros _]; apply modify_tween_trace. }
  apply (within_bind _ HR); [apply modify_tween_trace | intros _; apply start_looped_trace].
Qed.

Lemma write_loop_trace (this : TweenId) (l : list ident) (body : ident -> M unit) :
  body = update_property this \/ body = reset_property this ->
  within keeps_trace (for_each l body).
Proof.
  intro Hb. apply (within_for_each _ keeps_trace_preorder). intros property w.
  destruct Hb as [-> | ->]; [unfold update_property | unfold reset_property];
    destruct (_object (tweens w this)); reflexivity.
Qed.

Lemma reset_trace (this : TweenId) : within keeps_trace (reset this).
Proof.
  pose proof keeps_trace_preorder as HR. unfold reset.
  apply (within_bind _ HR); [|intros _; apply start_looped_trace].
  intro w; cbv beta. apply (write_loop_trace this). right. reflexivity.
Qed.

Lemma write_loop_tweens (this : TweenId) (l : list ident) (body : ident -> M unit) :
  body = update_property this \/ body = reset_property this ->
  within keeps_tweens (for_each l body).
Proof.
  intro Hb. apply (within_for_each _ keeps_tweens_preorder). intros property w.
  destruct Hb as [-> | ->]; [unfold update_property | unfold reset_property];
    destruct (_object (tweens w this)); reflexivity.
Qed.

(** The loop of lines 367-378 can fail in one way only: there is no
    target to assign to. *)
Lemma update_loop_error (this : TweenId) (l : list ident) (w : World) (e : Error)
    (w1 : World) :
  for_each l (update_property this) w = Err e w1 -> e = TypeError.
Proof.
  revert w. induction l as [|x l IH]; intro w; simpl; [discriminate|].
  unfold bind, update_property at 1.
  destruct (_object (tweens w this)); simpl; [apply IH | congruence].
Qed.

(** Lines 362-380, whatever the tween is bound to: the two temporaries,
    and the update notification when no assignment has thrown. *)
Lemma update_values_final (this : TweenId) (time : num) (w : World) :
  let tw := tweens w this in
  let el := elapsed_at tw time in
  let tw1 := set_tempValue (_easingFunction tw el) (set_tempElapsed el tw) in
  let r := update_values this time w in
  tweens (final r) this = tw1 /\
  (outcome r = inr TypeError /\ trace (final r) = trace w \/
   outcome r = inl tt /\
   trace (final r) = trace w ++ [OnUpdate this (_object tw) (_easingFunction tw el)]).
Proof.
  intros tw el tw1 r. subst r. unfold update_values, bind, modify_tween. cbv beta iota.
  match goal with
  | |- context [for_each ?l _ ?w0] => remember w0 as wa eqn:Ewa
  end.
  assert (Ea : tweens wa this = tw1).
  { subst wa. simpl. rewrite !upd_same. reflexivity. }
  assert (Htra : trace wa = trace w) by (subst wa; reflexivity).
  clear Ewa.
  pose proof (write_loop_tweens this (own_keys (_valuesStart (tweens wa this)))
                (update_property this) (or_introl eq_refl) wa) as Kt.
  pose proof (write_loop_trace this (own_keys (_valuesStart (tweens wa this)))
                (update_property this) (or_introl eq_refl) wa) as Ktr.
  unfold keeps_tweens, keeps_trace in Kt, Ktr.
  pose proof (update_loop_error this (own_keys (_valuesStart (tweens wa this))) wa) as Ke.
  destruct (for_each _ (update_property this) wa) as [[] w1|e w1]; simpl in *.
  - rewrite Kt, Ea. split; [reflexivity|]. right. split; [reflexivity|].
    rewrite Ktr, Htra. reflexivity.
  - rewrite Kt, Ea. split; [reflexivity|]. left.
    rewrite (Ke e w1 eq_refl). split; [reflexivity | congruence].
Qed.

(** ** A looping tween *)

(** A call of [update] on a tween whose [_loop] is set. *)
Lemma update_looping (this : TweenId) (time : num) (w : World) :
  _loop (tweens w this) = true ->
  let r := update this time w in
  outcome r <> inl false /\
  (forall j, j <> this -> tweens (final r) j = tweens w j) /\
  (trace (final r) = trace w \/
   exists v, trace (final r) = trace w ++ [OnUpdate this (_object (tweens w this)) v]).
Proof.
  intros Hl r. subst r. unfold update.
  destruct (_paused (tweens w this) || num_ltb time (_startTime (tweens w this))).
  { simpl. split; [discriminate|]. split; [reflexivity | left; reflexivity]. }
  unfold bind.
  pose proof (update_values_only this time w) as Ko.
  destruct (update_values_final this time w) as (Et & Htr).
  destruct (update_values this time w) as [[] w1|e w1]; simpl in Ko, Et, Htr |- *.
  2:{ split; [discriminate|]. split; [exact Ko|].
      destruct Htr as [(_ & Htr) | (Habs & _)]; [left; exact Htr | discriminate]. }
  destruct (num_eqb (_tempElapsed (tweens w1 this)) 1).
  2:{ simpl. split; [discriminate|]. split; [exact Ko|].
      destruct Htr as [(_ & Htr) | (_ & Htr)]; [left; exact Htr | right; eexists; exact Htr]. }
  assert (Hrestart : forall m : M (option TweenId),
            within (only_tween this) m -> within keeps_trace m ->
            forall w2, only_tween this w w2 -> trace w2 = trace w1 ->
            outcome ((m ;; ret true) w2) <> inl false /\
            (forall j, j <> this -> tweens (final ((m ;; ret true) w2)) j = tweens w j) /\
            (trace (final ((m ;; ret true) w2)) = trace w \/
             exists v, trace (final ((m ;; ret true) w2))
                       = trace w ++ [OnUpdate this (_object (tweens w this)) v])).
  { intros m Hm Hmt w2 H2 Ht2.
    split.
    - intro Habs. apply outcome_bind_ret in Habs. discriminate.
    - rewrite final_bind_ret. split.
      + intros j Hj. rewrite (Hm w2 j Hj). apply H2. exact Hj.
      + rewrite (Hmt w2), Ht2.
        destruct Htr as [(_ & Htr) | (_ & Htr)]; [left; exact Htr | right; eexists; exact Htr]. }
  unfold update_finish. rewrite Et. simpl (_yoyo _). simpl (_loop _). simpl (_yoyoCount _).
  rewrite Hl. simpl negb. cbv iota.
  destruct (_yoyo (tweens w this)).
  - destruct (Nat.eqb (_yoyoCount (tweens w this)) 0).
    + apply Hrestart; [apply reverse_only | apply reverse_trace | exact Ko | reflexivity].
    + change ((modify_tween this (set_yoyoCount 0%nat) ;; reverse this ;; ret true) w1)
        with ((reverse this ;; ret true) (final (modify_tween this (set_yoyoCount 0%nat) w1))).
      apply Hrestart; [apply reverse_only | apply reverse_trace | | reflexivity].
      intros j Hj. simpl. rewrite upd_other by exact Hj. apply Ko. exact Hj.
  - change ((modify_tween this (set_yoyoCount 0%nat) ;; reset this ;; ret true) w1)
      with ((reset this ;; ret true) (final (modify_tween this (set_yoyoCount 0%nat) w1))).
    apply Hrestart; [apply reset_only | apply reset_trace | | reflexivity].
    intros j Hj. simpl. rewrite upd_other by exact Hj. apply Ko. exact Hj.
Qed.



(** X14. The tick that ends a cycle of a looping tween that is not a
    yoyo: every captured start value is written back to the target, the
    tween is anchored anew at [now + delay] (the clock of the game, not the
    time handed to [update], and the delay once more), it stays running with
    its counter at 0 and its start values as they were, and only the update
    signal has been dispatched. *)
Theorem update_loop_restart (this : TweenId) (o : ObjId) (time : num) (w : World) :
  let tw := tweens w this in
  game tw <> None ->
  _object tw = Some o ->
  _paused tw = false ->
  num_ltb time (_startTime tw) = false ->
  elapsed_at tw time = 1 ->
  _loop tw = true ->
  _yoyo tw = false ->
  let w' := final (update this time w) in
  (forall q, In q (own_keys (_valuesStart tw)) ->
     obj_get (objects w' o) q = obj_get (_valuesStart tw) q) /\
  trace w' = trace w ++ [OnUpdate this (Some o) (_easingFunction tw 1)] /\
  _startTime (tweens w' this) = time_now w + _delayTime tw /\
  isRunning (tweens w' this) = true /\
  _yoyoCount (tweens w' this) = 0%nat /\
  _valuesStart (tweens w' this) = _valuesStart tw.
Proof.
  intros tw Hg Ho Hp Hlt Hel Hl Hy w'. subst w'.
  destruct (update_steps this o time w Ho Hp Hlt) as (w1 & _ & Hstep & Eu).
  fold tw in Eu. rewrite Hel, num_eqb_refl in Eu.
  destruct Hstep as (Et1 & _ & _ & _ & Htr1 & Hn1 & _).
  fold tw in Et1, Htr1. rewrite Hel in Et1, Htr1.
  unfold update_finish in Eu. rewrite Et1 in Eu.
  simpl (_yoyo _) in Eu. simpl (_loop _) in Eu. rewrite Hy, Hl in Eu.
  rewrite Eu.
  change ((modify_tween this (set_yoyoCount 0%nat) ;; reset this ;; ret true) w1)
    with ((reset this ;; ret true) (final (modify_tween this (set_yoyoCount 0%nat) w1))).
  rewrite final_bind_ret.
  set (w2 := final (modify_tween this (set_yoyoCount 0%nat) w1)).
  assert (Et2 : tweens w2 this =
                set_yoyoCount 0%nat (set_tempValue (_easingFunction tw 1) (set_tempElapsed 1 tw))).
  { subst w2. simpl. rewrite upd_same, Et1. reflexivity. }
  destruct (reset_final this o w2) as (Hobj & Htr & Hn & ve & Et & _).
  { rewrite Et2. exact Hg. }
  { rewrite Et2. exact Ho. }
  rewrite Et2 in Hobj, Et. simpl (_valuesStart _) in Et. simpl (_delayTime _) in Et.
  split.
  { intros q Hq. rewrite Hobj, restored_in; [reflexivity | exact Hq]. }
  split; [rewrite Htr; exact Htr1|].
  rewrite Et. simpl.
  split; [subst w2; simpl; rewrite Hn1; reflexivity|].
  repeat split.
Qed.

Lemma update_loop_restart_witness :
  let w' := final (update 0%nat (num_of_Z 100) loop_world) in
  obj_get (objects w' 0%nat) "x"%string = VNum 0 /\
  isRunning (tweens w' 0%nat) = true.
Proof.
  destruct (update_loop_restart 0%nat 0%nat (num_of_Z 100) loop_world)
    as (Hback & _ & _ & Hr & _).
  all: try by_evaluation.
  - apply Qc_is_canon. vm_compute. reflexivity.
  - split; [|exact Hr].
    rewrite (Hback "x"%string); [vm_compute; reflexivity | vm_compute; left; reflexivity].
Defined.

(** X4. [loop(true)] keeps a tween from ever completing: whatever else
    holds, [update] does not return false afterwards.  [loop(false)] lets a
    tween that is not a yoyo complete on the tick that ends its run. *)
Theorem loop_setter_decides_completion (this : TweenId) (o : ObjId) (time : num)
    (w : World) :
  let tw := tweens w this in
  _object tw = Some o ->
  _paused tw = false ->
  num_ltb time (_startTime tw) = false ->
  elapsed_at tw time = 1 ->
  _yoyo tw = false ->
  (forall c, In c (_chainedTweens tw) -> startable w c) ->
  outcome (update this time (final (loop this true w))) <> inl false /\
  outcome (update this time (final (loop this false w))) = inl false.
Proof.
  intros tw Ho Hp Hlt Hel Hy Hst. split.
  - apply update_looping. simpl. rewrite upd_same. reflexivity.
  - set (w1 := final (loop this false w)).
    assert (Et1 : tweens w1 this = set_loop false tw).
    { subst w1. simpl. apply upd_same. }
    assert (Hj1 : forall j, j <> this -> tweens w1 j = tweens w j).
    { intros j Hj. subst w1. simpl. apply upd_other. exact Hj. }
    assert (Hobj1 : objects w1 = objects w) by reflexivity.
    clearbody w1.
    destruct (update_plain_returns this o time w1) as (w2 & E & _);
      try (rewrite Et1; assumption); try (rewrite Et1; reflexivity).
    + intros c Hc. rewrite Et1 in Hc. simpl in Hc.
      apply (startable_transfer w w1 c); try assumption.
      * destruct (Nat.eq_dec c this) as [->|Hne];
          [rewrite Et1 | rewrite Hj1 by exact Hne]; reflexivity.
      * destruct (Nat.eq_dec c this) as [->|Hne];
          [rewrite Et1 | rewrite Hj1 by exact Hne]; reflexivity.
      * destruct (Nat.eq_dec c this) as [->|Hne];
          [rewrite Et1 | rewrite Hj1 by exact Hne]; reflexivity.
      * apply Hst. exact Hc.
    + rewrite E. reflexivity.
Qed.

Lemma loop_setter_decides_completion_witness :
  outcome (update 0%nat (num_of_Z 100) (final (loop 0%nat true plain_world))) <> inl false /\
  outcome (update 0%nat (num_of_Z 100) (final (loop 0%nat false plain_world))) = inl false.
Proof.
  apply (loop_setter_decides_completion 0%nat 0%nat (num_of_Z 100) plain_world).
  all: try by_evaluation.
  - apply Qc_is_canon. vm_compute. reflexivity.
  - intros c Hc. vm_compute in Hc. destruct Hc.
Defined.

(** ** When [update] returns false *)

Lemma start_trace_grows (this : TweenId) (looped : bool) :
  within trace_grows (start this looped).
Proof.
  intro w.
  destruct (game (tweens w this)) as [g|] eqn:Eg;
    [destruct (_object (tweens w this)) as [o|] eqn:Eo|].
  - destruct (start_final this o looped w) as (done & _ & Htr & _).
    + rewrite Eg. discriminate.
    + exact Eo.
    + eexists. exact Htr.
  - rewrite start_unbound by (right; exact Eo). apply (pre_refl _ trace_grows_preorder).
  - rewrite start_unbound by (left; exact Eg). apply (pre_refl _ trace_grows_preorder).
Qed.

Lemma start_chained_trace_grows (chained : list TweenId) :
  within trace_grows (start_chained chained).
Proof.
  pose proof trace_grows_preorder as HR.
  apply (within_for_each _ HR). intro c.
  apply (within_bind _ HR); [apply start_trace_grows | intros _; apply (within_ret _ HR)].
Qed.

(** X23. [update] returns false on a completing tick only: the tween is
    not paused, the time has reached [_startTime], the clamped elapsed time
    is 1, [_loop] is off, and a yoyo has its reversed leg behind it; and the
    update signal, then the completion signal, have been dispatched before
    anything else. *)
Theorem update_false_only_on_completion (this : TweenId) (time : num) (w : World) :
  outcome (update this time w) = inl false ->
  let tw := tweens w this in
  _paused tw = false /\
  num_ltb time (_startTime tw) = false /\
  elapsed_at tw time = 1 /\
  _loop tw = false /\
  (_yoyo tw = true -> _yoyoCount tw <> 0%nat) /\
  exists l, trace (final (update this time w)) =
              trace w ++ [OnUpdate this (_object tw) (_easingFunction tw 1);
                          OnComplete this (_object tw)] ++ l.
Proof.
  intros H tw.
  destruct (_loop tw) eqn:El.
  { exfalso. exact (proj1 (update_looping this time w El) H). }
  unfold update in H |- *. fold tw in H |- *.
  destruct (_paused tw) eqn:Ep; [simpl in H; discriminate|].
  destruct (num_ltb time (_startTime tw)) eqn:Eg; [simpl in H; discriminate|].
  simpl orb in H |- *. cbv iota in H |- *. unfold bind in H |- *.
  destruct (update_values_final this time w) as (Et & Htr). fold tw in Et, Htr.
  destruct (update_values this time w) as [[] w1|e w1]; simpl in Et, Htr; [|discriminate].
  destruct Htr as [(Habs & _) | (_ & Htr)]; [discriminate|].
  rewrite Et in H |- *. simpl (_tempElapsed _) in H |- *.
  destruct (num_eqb (elapsed_at tw time) 1) eqn:E1; [|simpl in H; discriminate].
  apply num_eqb_eq in E1. rewrite E1 in Htr.
  do 4 (split; [reflexivity || assumption|]).
  assert (Hdone : forall k : M bool, within trace_grows k ->
            exists l, trace (final ((emit (OnComplete this (_object tw)) ;;
                                     start_chained (_chainedTweens tw) ;; k) w1)) =
              trace w ++ [OnUpdate this (_object tw) (_easingFunction tw 1);
                          OnComplete this (_object tw)] ++ l).
  { intros k Hk.
    assert (K : within trace_grows (start_chained (_chainedTweens tw) ;; k)).
    { apply (within_bind _ trace_grows_preorder);
        [apply start_chained_trace_grows | intros _; exact Hk]. }
    destruct (K (final (emit (OnComplete this (_object tw)) w1))) as (l & E).
    exists l.
    change (final ((emit (OnComplete this (_object tw)) ;;
                    start_chained (_chainedTweens tw) ;; k) w1))
      with (final ((start_chained (_chainedTweens tw) ;; k)
                     (final (emit (OnComplete this (_object tw)) w1)))).
    rewrite E. simpl. rewrite Htr, <- !app_assoc. reflexivity. }
  unfold update_finish in H |- *. rewrite Et in H |- *.
  simpl (_yoyo _) in *. simpl (_yoyoCount _) in *. simpl (_loop _) in *.
  simpl (_object _) in *. simpl (_chainedTweens _) in *.
  rewrite El in H |- *. simpl negb in *. cbv iota in *.
  destruct (_yoyo tw).
  - destruct (Nat.eqb (_yoyoCount tw) 0) eqn:Ec.
    + apply outcome_bind_ret in H. discriminate.
    + split; [intros _ Hc; rewrite Hc in Ec; discriminate|].
      apply Hdone. apply (within_ret _ trace_grows_preorder).
  - split; [discriminate|].
    apply Hdone. apply (within_bind _ trace_grows_preorder).
    + intro w'. cbv beta. destruct (Nat.eqb _ 0);
        [exists []; simpl; symmetry; apply app_nil_r | apply (within_ret _ trace_grows_preorder)].
    + intros _. apply (within_ret _ trace_grows_preorder).
Qed.

Lemma update_false_only_on_completion_witness :
  outcome (update 0%nat (num_of_Z 100) plain_world) = inl false /\
  elapsed_at (tweens plain_world 0%nat) (num_of_Z 100) = 1 /\
  _loop (tweens plain_world 0%nat) = false.
Proof.
  assert (H : outcome (update 0%nat (num_of_Z 100) plain_world) = inl false)
    by (vm_compute; reflexivity).
  destruct (update_false_only_on_completion 0%nat (num_of_Z 100) plain_world H)
    as (_ & _ & He & Hl & _).
  split; [exact H|]. split; [exact He | exact Hl].
Defined.

(** ** What [update] writes to *)








(** The heap after a call of [update] that gets past line 357 and does not
    restart a loop cycle: what the interpolation has written. *)
Lemma update_final_heap (this : TweenId) (o : ObjId) (time : num) (w : World) :
  let tw := tweens w this in
  _object tw = Some o ->
  _paused tw = false ->
  num_ltb time (_startTime tw) = false ->
  elapsed_at tw time <> 1 \/ _yoyo tw = true \/ _loop tw = false ->
  let el := elapsed_at tw time in
  let tw1 := set_tempValue (_easingFunction tw el) (set_tempElapsed el tw) in
  objects (final (update this time w)) o = interpolated tw1 (objects w o).
Proof.
  intros tw Ho Hp Hlt Hno el tw1.
  destruct (update_steps this o time w Ho Hp Hlt) as (w1 & _ & Hstep & Eu).
  fold tw in Eu. fold el in Eu.
  destruct Hstep as (Et & _ & Hob & _). fold tw in Et, Hob. fold el in Et, Hob.
  fold tw1 in Et, Hob.
  rewrite Eu. destruct (num_eqb el 1) eqn:E1; [|exact Hob].
  destruct (update_finish_keeps_heap this w1) as (K & _).
  - rewrite Et. simpl. destruct Hno as [Hno | [Hno | Hno]]; auto.
    apply num_eqb_eq in E1. contradiction.
  - rewrite K. exact Hob.
Qed.

(** ** The two legs of a yoyo *)

(** The loop of [reverse] is a fold of [reverse_turn]. *)
Lemma reverse_loop_maps (this : TweenId) (l : list ident) (w : World) :
  let tw := tweens w this in
  let m := fold_left reverse_turn l (_valuesStart tw, _valuesEnd tw) in
  exists w1, for_each l (reverse_property this) w = Ok tt w1 /\
    objects w1 = objects w /\ trace w1 = trace w /\ time_now w1 = time_now w /\
    time_pauseDuration w1 = time_pauseDuration w /\
    (forall j, j <> this -> tweens w1 j = tweens w j) /\
    tweens w1 this = set_valuesStart (fst m) (set_valuesEnd (snd m) tw).
Proof.
  revert w. induction l as [|x l IH]; intros w tw m.
  - exists w. do 5 (split; [reflexivity|]). split; [intros; reflexivity|].
    subst m. simpl. symmetry. apply tween_eta.
  - simpl for_each. unfold bind, reverse_property at 1, bind, modify_tween. cbv beta iota.
    match goal with
    | |- context [for_each l _ ?w0] => remember w0 as wa eqn:Ewa
    end.
    assert (Ea : tweens wa this =
                 set_valuesStart (fst (reverse_turn (_valuesStart tw, _valuesEnd tw) x))
                   (set_valuesEnd (snd (reverse_turn (_valuesStart tw, _valuesEnd tw) x)) tw)).
    { subst wa. simpl. rewrite !upd_same. subst tw. destruct (tweens w this). reflexivity. }
    assert (Hja : forall j, j <> this -> tweens wa j = tweens w j).
    { intros j Hj. subst wa. simpl. rewrite !upd_other by exact Hj. reflexivity. }
    assert (Hwa : objects wa = objects w /\ trace wa = trace w /\ time_now wa = time_now w /\
                  time_pauseDuration wa = time_pauseDuration w).
    { subst wa. repeat split. }
    destruct Hwa as (Hoa & Htra & Hna & Hpa). clear Ewa.
    destruct (IH wa) as (w2 & E2 & Ho2 & Htr2 & Hn2 & Hp2 & Hj2 & Et2).
    exists w2. split; [exact E2|].
    split; [congruence|]. split; [congruence|]. split; [congruence|]. split; [congruence|].
    split; [intros j Hj; rewrite Hj2, Hja by exact Hj; reflexivity|].
    assert (Em : (_valuesStart (tweens wa this), _valuesEnd (tweens wa this)) =
                 reverse_turn (_valuesStart tw, _valuesEnd tw) x).
    { rewrite Ea. destruct (reverse_turn (_valuesStart tw, _valuesEnd tw) x). reflexivity. }
    cbv zeta in Et2. rewrite Em in Et2. rewrite Et2, Ea. subst m. simpl fold_left.
    destruct (fold_left _ _ _) as [vs2 ve2]. reflexivity.
Qed.

Lemma reverse_turn_other (m : jsobj * jsobj) (q p : ident) :
  p <> q -> same_at p m (reverse_turn m q).
Proof.
  intro Hne. unfold reverse_turn, same_at. simpl.
  split; apply obj_lookup_set_other; exact Hne.
Qed.

Lemma fold_reverse_turn_out (l : list ident) (m : jsobj * jsobj) (p : ident) :
  ~ In p l -> same_at p m (fold_left reverse_turn l m).
Proof.
  revert m. induction l as [|x l IH]; intros m Hp; simpl; [apply same_at_refl|].
  apply (same_at_trans p _ (reverse_turn m x)).
  - apply reverse_turn_other. intro E. apply Hp. left. congruence.
  - apply IH. intro H. apply Hp. right. exact H.
Qed.

(** With no key twice, the loop of [reverse] swaps the two values of
    every key it visits. *)
Lemma fold_reverse_turn_at (l : list ident) (m : jsobj * jsobj) (p : ident) :
  NoDup l -> In p l ->
  obj_lookup (fst (fold_left reverse_turn l m)) p = Some (obj_get (snd m) p) /\
  obj_lookup (snd (fold_left reverse_turn l m)) p = Some (obj_get (fst m) p).
Proof.
  revert m. induction l as [|x l IH]; intros m Hnd Hin; [destruct Hin|].
  inversion Hnd as [|? ? Hx Hnd']; subst. simpl.
  destruct (string_eq_dec_cases x p) as [->|Hne].
  - destruct (fold_reverse_turn_out l (reverse_turn m p) p Hx) as (A & B).
    rewrite A, B. unfold reverse_turn. simpl. rewrite !obj_lookup_set_same. auto.
  - destruct Hin as [E|Hin]; [contradiction|].
    destruct (IH (reverse_turn m x) Hnd' Hin) as (A & B). rewrite A, B.
    destruct (reverse_turn_other m x p) as (C & D); [congruence|].
    rewrite (obj_get_same _ _ p C), (obj_get_same _ _ p D). auto.
Qed.

Lemma own_keys_set (o : jsobj) (k q : ident) (v : value) :
  In q (own_keys (obj_set o k v)) -> q = k \/ In q (own_keys o).
Proof.
  induction o as [|[k' v'] o IH]; simpl.
  - intros [E | []]. left. congruence.
  - destruct (String.eqb k' k) eqn:E; simpl.
    + intros [H | H]; right; [left | right]; assumption.
    + intros [H | H]; [right; left; exact H|].
      destruct (IH H) as [K | K]; [left; exact K | right; right; exact K].
Qed.

Lemma fold_reverse_turn_keys (l : list ident) (m : jsobj * jsobj) (q : ident) :
  In q (own_keys (snd (fold_left reverse_turn l m))) ->
  In q (own_keys (snd m)) \/ In q l.
Proof.
  revert m. induction l as [|x l IH]; intros m H; simpl in *; [left; exact H|].
  destruct (IH _ H) as [K | K]; [|right; right; exact K].
  unfold reverse_turn in K. simpl in K.
  destruct (own_keys_set _ _ _ _ K) as [-> | K']; [right; left; reflexivity | left; exact K'].
Qed.

(** After the interpolation every captured key is on the target and not
    null. *)
Lemma interpolated_captured_ok (tw : Tween) (ob : jsobj) (q : ident) :
  In q (own_keys (_valuesStart tw)) -> key_ok (interpolated tw ob) q.
Proof.
  intro Hin. unfold key_ok, obj_get, obj_has.
  rewrite (interpolated_in tw ob q Hin), tweened_value_not_null. reflexivity.
Qed.

(** The tick that ends the forward leg of a yoyo: lines 362-380, then
    [reverse] from line 390. *)
Lemma update_turnaround (this : TweenId) (o : ObjId) (time : num) (w : World) :
  let tw := tweens w this in
  game tw <> None ->
  _object tw = Some o ->
  _paused tw = false ->
  num_ltb time (_startTime tw) = false ->
  elapsed_at tw time = 1 ->
  _yoyo tw = true ->
  _yoyoCount tw = 0%nat ->
  NoDup (own_keys (_valuesStart tw)) ->
  (forall q, In q (own_keys (_valuesEnd tw)) -> key_ok (objects w o) q) ->
  let tw1 := set_tempValue (_easingFunction tw 1) (set_tempElapsed 1 tw) in
  exists w' vs ve,
    update this time w = Ok true w' /\
    trace w' = trace w ++ [OnUpdate this (Some o) (_easingFunction tw 1)] /\
    objects w' o = interpolated tw1 (objects w o) /\
    (forall o', o' <> o -> objects w' o' = objects w o') /\
    time_now w' = time_now w /\
    (forall j, j <> this -> tweens w' j = tweens w j) /\
    tweens w' this =
      set_valuesStart vs (set_valuesEnd ve
        (set_isRunning true (set_startTime (time_now w + _delayTime tw)
          (set_yoyoCount 1%nat tw1)))) /\
    (forall q, In q (own_keys (_valuesStart tw)) ->
       obj_get vs q = obj_get (_valuesEnd tw) q /\
       (is_array (obj_get (_valuesStart tw) q) = false ->
        obj_get ve q = obj_get (_valuesStart tw) q)).
Proof.
  intros tw Hg Ho Hp Hlt Hel Hy Hc Hnd Hok tw1.
  destruct (update_steps this o time w Ho Hp Hlt) as (w1 & _ & Hstep & Eu).
  fold tw in Eu. rewrite Hel, num_eqb_refl in Eu.
  destruct Hstep as (Et1 & Hj1 & Hob1 & Hoth1 & Htr1 & Hn1 & _).
  fold tw in Et1, Hob1, Htr1. rewrite Hel in Et1, Hob1, Htr1. fold tw1 in Et1, Hob1.
  unfold update_finish in Eu. rewrite Et1 in Eu.
  simpl (_yoyo _) in Eu. simpl (_yoyoCount _) in Eu. rewrite Hy, Hc in Eu. simpl in Eu.
  rewrite Eu. clear Eu.
  destruct (reverse_loop_maps this (own_keys (_valuesStart (tweens w1 this))) w1)
    as (w2 & E2 & Ho2 & Htr2 & Hn2 & _ & Hj2 & Et2).
  cbv zeta in Et2.
  rewrite Et1 in Et2. simpl (_valuesStart _) in Et2. simpl (_valuesEnd _) in Et2.
  set (m := fold_left reverse_turn (own_keys (_valuesStart tw)) (_valuesStart tw, _valuesEnd tw))
    in Et2.
  set (w3 := final (modify_tween this (fun t => set_yoyoCount (S (_yoyoCount t)) t) w2)).
  assert (Hrev : reverse this w1 = start this true w3).
  { unfold reverse, bind. rewrite E2. reflexivity. }
  assert (Et3 : tweens w3 this =
                set_valuesStart (fst m) (set_valuesEnd (snd m) (set_yoyoCount 1%nat tw1))).
  { subst w3. simpl. rewrite upd_same, Et2. simpl. rewrite Hc. reflexivity. }
  assert (Hj3 : forall j, j <> this -> tweens w3 j = tweens w j).
  { intros j Hj. subst w3. simpl. rewrite upd_other, Hj2, Hj1 by exact Hj. reflexivity. }
  assert (Ho3 : objects w3 = objects w1) by (subst w3; exact Ho2).
  assert (Htr3 : trace w3 = trace w1) by (subst w3; exact Htr2).
  assert (Hn3 : time_now w3 = time_now w) by (subst w3; simpl; congruence).
  clearbody w3.
  destruct (start_returns this o true w3)
    as (w' & E & Hobj & Htr & Hn & _ & Hj & vs & ve & Et & _ & _ & Hsc & Hvs & _).
  { rewrite Et3. exact Hg. }
  { rewrite Et3. exact Ho. }
  { intros q Hq. rewrite Et3 in Hq. simpl in Hq. rewrite Ho3, Hob1.
    destruct (fold_reverse_turn_keys _ _ _ Hq) as [K | K].
    - apply interpolated_key_ok. apply Hok. exact K.
    - apply interpolated_captured_ok. exact K. }
  exists w', vs, ve.
  split; [unfold bind; rewrite Hrev, E; reflexivity|].
  split; [rewrite Htr, Htr3, Htr1, app_nil_r; reflexivity|].
  split; [rewrite Hobj, Ho3; exact Hob1|].
  split; [intros o' Hne; rewrite Hobj, Ho3; apply Hoth1; exact Hne|].
  split; [congruence|].
  split; [intros j Hne; rewrite Hj by exact Hne; apply Hj3; exact Hne|].
  split; [rewrite Et, Et3, Hn3; reflexivity|].
  intros q Hq.
  destruct (fold_reverse_turn_at (own_keys (_valuesStart tw))
              (_valuesStart tw, _valuesEnd tw) q Hnd Hq) as (A & B).
  fold m in A, B. simpl in A, B.
  rewrite (Hvs eq_refl), Et3. simpl (_valuesStart _).
  split; [unfold obj_get at 1; rewrite A; reflexivity|].
  intro Hna. rewrite Hsc.
  - rewrite Et3. simpl (_valuesEnd _). unfold obj_get at 1. rewrite B. reflexivity.
  - rewrite Et3. simpl (_valuesEnd _). unfold obj_get at 1. rewrite B. exact Hna.
Qed.





(** X13. A yoyo over a keyframe list does not come back: [reverse] makes
    the keyframe list the start value and the captured scalar the end
    value, so that on the reversed leg line 370 no longer sees an array and
    line 376 does arithmetic on one; every tick of that leg leaves a value
    that is not a number (a string, in JavaScript) in the property. *)
Theorem yoyo_return_leg_of_keyframes (this : TweenId) (o : ObjId) (p : ident)
    (ks : list value) (time time' : num) (w : World) :
  let tw := tweens w this in
  game tw <> None ->
  _object tw = Some o ->
  _paused tw = false ->
  num_ltb time (_startTime tw) = false ->
  elapsed_at tw time = 1 ->
  _yoyo tw = true ->
  _yoyoCount tw = 0%nat ->
  NoDup (own_keys (_valuesStart tw)) ->
  (forall q, In q (own_keys (_valuesEnd tw)) -> key_ok (objects w o) q) ->
  In p (own_keys (_valuesStart tw)) ->
  is_array (obj_get (_valuesStart tw) p) = false ->
  obj_get (_valuesEnd tw) p = VArr ks ->
  exists w', update this time w = Ok true w' /\
    (num_ltb time' (_startTime (tweens w' this)) = false ->
     obj_get (objects (final (update this time' w')) o) p = VOther).
Proof.
  intros tw Hg Ho Hp Hlt Hel Hy Hc Hnd Hok Hin Hna Hv.
  destruct (update_turnaround this o time w Hg Ho Hp Hlt Hel Hy Hc Hnd Hok)
    as (w' & vs & ve & E & _ & _ & _ & _ & _ & Et & Hswap).
  fold tw in Et, Hswap.
  destruct (Hswap p Hin) as (Hvs & Hve). specialize (Hve Hna). rewrite Hv in Hvs.
  exists w'. split; [exact E|].
  intros Hlt'.
  assert (F : _object (tweens w' this) = Some o /\ _paused (tweens w' this) = false /\
              _yoyo (tweens w' this) = true /\
              _valuesStart (tweens w' this) = vs /\ _valuesEnd (tweens w' this) = ve).
  { rewrite Et. simpl. auto 10. }
  destruct F as (Fo & Fp & Fy & Fs & Fv).
  rewrite (update_final_heap this o time' w' Fo Fp Hlt') by (right; left; exact Fy).
  unfold obj_get. rewrite interpolated_in.
  - unfold tweened_value. simpl. rewrite Fv, Fs, Hve, Hvs.
    destruct (obj_get (_valuesStart tw) p); try discriminate; reflexivity.
  - simpl. rewrite Fs. apply obj_get_in_keys. rewrite Hvs. discriminate.
Qed.

Lemma yoyo_return_leg_of_keyframes_witness :
  exists w', update 0%nat (num_of_Z 100) keyframe_yoyo_world = Ok true w' /\
    obj_get (objects (final (update 0%nat (num_of_Z 50) w')) 0%nat) "x"%string = VOther.
Proof.
  destruct (yoyo_return_leg_of_keyframes 0%nat 0%nat "x"%string
              [VNum 0; VNum (num_of_Z 10)] (num_of_Z 100) (num_of_Z 50) keyframe_yoyo_world)
    as (w' & E & Hx).
  all: try by_evaluation.
  - apply Qc_is_canon. vm_compute. reflexivity.
  - vm_compute. constructor; [intros [] | constructor].
  - intros q Hq. vm_compute in Hq. destruct Hq as [<- | []]. vm_compute. reflexivity.
  - vm_compute. left. reflexivity.
  - exists w'. split; [exact E|].
    assert (Ew : w' = final (update 0%nat (num_of_Z 100) keyframe_yoyo_world))
      by (rewrite E; reflexivity).
    apply Hx. subst w'. vm_compute. reflexivity.
Defined.

(** X5. [yoyo(true)] puts the counter back to 0 whatever it was, so that
    the next tick that ends a leg turns the tween around once more instead
    of completing it: it returns true, dispatches no completion signal, and
    swaps the start and end values again. *)
Theorem yoyo_setter_rearms_the_turnaround (this : TweenId) (o : ObjId) (time : num)
    (w : World) :
  let tw := tweens w this in
  game tw <> None ->
  _object tw = Some o ->
  _paused tw = false ->
  num_ltb time (_startTime tw) = false ->
  elapsed_at tw time = 1 ->
  NoDup (own_keys (_valuesStart tw)) ->
  (forall q, In q (own_keys (_valuesEnd tw)) -> key_ok (objects w o) q) ->
  exists w1 w2,
    yoyo this true w = Ok this w1 /\
    update this time w1 = Ok true w2 /\
    trace w2 = trace w ++ [OnUpdate this (Some o) (_easingFunction tw 1)] /\
    _yoyoCount (tweens w2 this) = 1%nat /\
    (forall q, In q (own_keys (_valuesStart tw)) ->
       obj_get (_valuesStart (tweens w2 this)) q = obj_get (_valuesEnd tw) q).
Proof.
  intros tw Hg Ho Hp Hlt Hel Hnd Hok.
  set (w1 := final (yoyo this true w)).
  assert (Et1 : tweens w1 this = set_yoyoCount 0%nat (set_yoyo true tw)).
  { subst w1. simpl. rewrite !upd_same. reflexivity. }
  assert (Ec : yoyo this true w = Ok this w1) by reflexivity.
  assert (Hw1 : objects w1 = objects w /\ trace w1 = trace w /\ time_now w1 = time_now w).
  { subst w1. repeat split. }
  destruct Hw1 as (Hobj1 & Htr1 & Hn1). clearbody w1.
  destruct (update_turnaround this o time w1)
    as (w2 & vs & ve & E & Htr & _ & _ & _ & _ & Et & Hswap);
    try (rewrite Et1; assumption); try (rewrite Et1; reflexivity).
  { rewrite Et1, Hobj1. exact Hok. }
  exists w1, w2. split; [exact Ec|]. split; [exact E|].
  rewrite Et1 in Htr, Et, Hswap. simpl in Htr, Hswap.
  split; [rewrite Htr, Htr1; reflexivity|]. rewrite Et. simpl.
  split; [reflexivity|].
  intros q Hq. apply Hswap. exact Hq.
Qed.

Lemma yoyo_setter_rearms_the_turnaround_witness :
  _yoyoCount (tweens yoyo_back_world 0%nat) = 1%nat /\
  exists w1 w2,
    yoyo 0%nat true yoyo_back_world = Ok 0%nat w1 /\
    update 0%nat (num_of_Z 100) w1 = Ok true w2 /\
    _yoyoCount (tweens w2 0%nat) = 1%nat.
Proof.
  split; [vm_compute; reflexivity|].
  destruct (yoyo_setter_rearms_the_turnaround 0%nat 0%nat (num_of_Z 100) yoyo_back_world)
    as (w1 & w2 & E1 & E2 & _ & Hc & _).
  all: try by_evaluation.
  - apply Qc_is_canon. vm_compute. reflexivity.
  - vm_compute. constructor; [intros [] | constructor].
  - intros q Hq. vm_compute in Hq. destruct Hq as [<- | []]. vm_compute. reflexivity.
  - exists w1, w2. split; [exact E1|]. split; [exact E2 | exact Hc].
Defined.

(** ** [chain] *)

(** X19. [chain] adds the tween at the end of the list and returns its
    receiver.  On the tick that completes a tween that neither loops nor
    yoyos, the tween chained last is started last, after those chained
    before it; a bound one is then running and anchored at [now + delay];
    and the completed tween, having something chained, keeps its
    [isRunning]. *)
Theorem chain_then_completion (this c : TweenId) (o : ObjId) (time : num) (w : World) :
  let tw := tweens w this in
  _object tw = Some o ->
  _paused tw = false ->
  num_ltb time (_startTime tw) = false ->
  elapsed_at tw time = 1 ->
  _yoyo tw = false ->
  _loop tw = false ->
  (forall d, In d (_chainedTweens tw ++ [c]) -> startable w d) ->
  exists w1 w2,
    chain this c w = Ok this w1 /\
    _chainedTweens (tweens w1 this) = _chainedTweens tw ++ [c] /\
    update this time w1 = Ok false w2 /\
    trace w2 = trace w ++ [OnUpdate this (Some o) (_easingFunction tw 1);
                           OnComplete this (Some o)]
                       ++ start_events w (_chainedTweens tw) ++ start_events w [c] /\
    (isRunning tw = true -> isRunning (tweens w2 this) = true) /\
    (game (tweens w c) <> None -> _object (tweens w c) <> None ->
     isRunning (tweens w2 c) = true /\
     _startTime (tweens w2 c) = time_now w + _delayTime (tweens w c)).
Proof.
  intros tw Ho Hp Hlt Hel Hy Hl Hst.
  set (w1 := final (chain this c w)).
  assert (Et1 : tweens w1 this = set_chainedTweens (_chainedTweens tw ++ [c]) tw).
  { subst w1. simpl. apply upd_same. }
  assert (Hj1 : forall j, j <> this -> tweens w1 j = tweens w j).
  { intros j Hj. subst w1. simpl. apply upd_other. exact Hj. }
  assert (Ec : chain this c w = Ok this w1) by reflexivity.
  assert (Hw1 : objects w1 = objects w /\ trace w1 = trace w /\ time_now w1 = time_now w).
  { subst w1. repeat split. }
  destruct Hw1 as (Hobj1 & Htr1 & Hn1). clearbody w1.
  assert (Hsame : forall j, game (tweens w1 j) = game (tweens w j) /\
                            _object (tweens w1 j) = _object (tweens w j) /\
                            _delayTime (tweens w1 j) = _delayTime (tweens w j) /\
                            _valuesEnd (tweens w1 j) = _valuesEnd (tweens w j)).
  { intro j. destruct (Nat.eq_dec j this) as [->|Hne].
    - rewrite Et1. repeat split.
    - rewrite Hj1 by exact Hne. repeat split. }
  destruct (update_plain_returns this o time w1)
    as (w2 & E & Htr & Hstarted & _ & Hfull & _).
  { rewrite Et1. exact Ho. }
  { rewrite Et1. exact Hp. }
  { rewrite Et1. exact Hlt. }
  { rewrite Et1. exact Hel. }
  { rewrite Et1. exact Hy. }
  { rewrite Et1. exact Hl. }
  { intros d Hd. rewrite Et1 in Hd. simpl in Hd.
    destruct (Hsame d) as (A & B & _ & D).
    apply (startable_transfer w w1 d); try assumption; [rewrite D; reflexivity|].
    apply Hst. exact Hd. }
  rewrite Et1 in Htr, Hstarted, Hfull. simpl in Htr, Hstarted, Hfull.
  exists w1, w2. split; [exact Ec|]. split; [rewrite Et1; reflexivity|].
  split; [exact E|].
  split.
  { rewrite Htr, Htr1. rewrite (start_events_same w w1).
    - rewrite start_events_app. reflexivity.
    - intro j. destruct (Hsame j) as (A & B & _). auto. }
  split.
  { apply Hfull. destruct (_chainedTweens tw); discriminate. }
  intros Hg Hob. destruct (Hsame c) as (A & B & C & _).
  destruct (Hstarted c) as (R & S).
  - apply in_or_app. right. left. reflexivity.
  - rewrite A. exact Hg.
  - rewrite B. exact Hob.
  - split; [exact R|]. rewrite S, C, Hn1. reflexivity.
Qed.

Lemma chain_then_completion_witness :
  exists w1 w2,
    chain 0%nat 1%nat plain_world = Ok 0%nat w1 /\
    update 0%nat (num_of_Z 100) w1 = Ok false w2 /\
    isRunning (tweens w2 0%nat) = true /\
    isRunning (tweens w2 1%nat) = true.
Proof.
  destruct (chain_then_completion 0%nat 1%nat 0%nat (num_of_Z 100) plain_world)
    as (w1 & w2 & E1 & _ & E2 & _ & Hr & Hc).
  all: try by_evaluation.
  - apply Qc_is_canon. vm_compute. reflexivity.
  - intros d Hd g oc _ Ho q Hq.
    vm_compute in Hd. destruct Hd as [<- | []].
    vm_compute in Hq. destruct Hq.
  - exists w1, w2. split; [exact E1|]. split; [exact E2|]. split.
    + apply Hr. vm_compute. reflexivity.
    + apply Hc; vm_compute; discriminate.
Defined.

(** ** The accessors *)

(** X16. The assignment [tween.parent = null] throws, and it throws
    after [game] has been set to null: the tween is left without a game,
    and from then on [start] is the silent no-op of line 189.  A game that
    is not null is installed and the call returns. *)
Theorem set_parent_null_disables (this : TweenId) (looped : bool) (w : World) :
  let r := set_parent this None w in
  outcome r = inr TypeError /\
  tweens (final r) this = set_game None (tweens w this) /\
  (forall j, j <> this -> tweens (final r) j = tweens w j) /\
  start this looped (final r) = Ok None (final r) /\
  forall g, outcome (set_parent this (Some g) w) = inl tt /\
            game (tweens (final (set_parent this (Some g) w)) this) = Some g.
Proof.
  intro r. subst r. unfold set_parent, bind. simpl.
  split; [reflexivity|]. split; [apply upd_same|].
  split; [intros j Hj; apply upd_other; exact Hj|].
  split.
  - apply start_unbound. left. simpl. rewrite upd_same. reflexivity.
  - intro g. simpl. rewrite upd_same. split; reflexivity.
Qed.

(** X17. The delay written by the [delay] setter, whatever its sign, is
    what the getter reads back and what the next [start] adds to the clock
    of the game to anchor the tween. *)
Theorem delay_setter_moves_the_start (this : TweenId) (target : ObjId) (amount : num)
    (w : World) :
  let tw := tweens w this in
  game tw <> None ->
  _object tw = Some target ->
  (forall q, In q (own_keys (_valuesEnd tw)) -> key_ok (objects w target) q) ->
  exists w1 w2,
    set_delay this amount w = Ok tt w1 /\
    get_delay this w1 = Ok amount w1 /\
    start this false w1 = Ok (Some this) w2 /\
    _startTime (tweens w2 this) = time_now w + amount /\
    get_delay this w2 = Ok amount w2.
Proof.
  intros tw Hg Ho Hok.
  set (w1 := final (set_delay this amount w)).
  assert (Et1 : tweens w1 this = set_delayTime amount tw).
  { subst w1. simpl. apply upd_same. }
  destruct (start_returns this target false w1)
    as (w2 & E & _ & _ & _ & _ & _ & vs & ve & Et & _).
  { rewrite Et1. exact Hg. }
  { rewrite Et1. exact Ho. }
  { rewrite Et1. exact Hok. }
  exists w1, w2. split; [reflexivity|].
  split; [unfold get_delay, ret; rewrite Et1; reflexivity|].
  split; [exact E|].
  split; [rewrite Et, Et1; reflexivity|].
  unfold get_delay, ret. rewrite Et, Et1. reflexivity.
Qed.

Lemma delay_setter_moves_the_start_witness :
  exists w1 w2,
    set_delay 0%nat (num_of_Z 30) configured_world = Ok tt w1 /\
    get_delay 0%nat w1 = Ok (num_of_Z 30) w1 /\
    start 0%nat false w1 = Ok (Some 0%nat) w2 /\
    _startTime (tweens w2 0%nat) = num_of_Z 30.
Proof.
  destruct (delay_setter_moves_the_start 0%nat 0%nat (num_of_Z 30) configured_world)
    as (w1 & w2 & E1 & E2 & E3 & Hs & _).
  - vm_compute. discriminate.
  - vm_compute. reflexivity.
  - intros q Hq. vm_compute in Hq. destruct Hq as [<- | []]. vm_compute. reflexivity.
  - exists w1, w2. split; [exact E1|]. split; [exact E2|]. split; [exact E3|].
    rewrite Hs. apply Qc_is_canon. vm_compute. reflexivity.
Defined.

(** X18. The functions written by the [easing] and [interpolation]
    setters are what the getters read back and what the next [update] uses:
    the update signal carries the new easing of the elapsed time, and a
    keyframe property is assigned the new interpolation of its keyframes at
    that value. *)
Theorem easing_setters_take_effect (this : TweenId) (o : ObjId) (p : ident)
    (ks : list value) (easing : num -> num) (interpolation : list value -> num -> num)
    (time : num) (w : World) :
  let tw := tweens w this in
  _object tw = Some o ->
  In p (own_keys (_valuesStart tw)) ->
  obj_get (_valuesEnd tw) p = VArr ks ->
  exists w1 w2 w3,
    set_easing this easing w = Ok tt w1 /\
    set_interpolation this interpolation w1 = Ok tt w2 /\
    get_easing this w2 = Ok easing w2 /\
    get_interpolation this w2 = Ok interpolation w2 /\
    update_values this time w2 = Ok tt w3 /\
    trace w3 = trace w ++ [OnUpdate this (Some o) (easing (elapsed_at tw time))] /\
    obj_get (objects w3 o) p = VNum (interpolation ks (easing (elapsed_at tw time))).
Proof.
  intros tw Ho Hin He.
  set (w1 := final (set_easing this easing w)).
  set (w2 := final (set_interpolation this interpolation w1)).
  assert (Et2 : tweens w2 this =
                set_interpolationFunction interpolation (set_easingFunction easing tw)).
  { subst w2 w1. simpl. rewrite !upd_same. reflexivity. }
  destruct (update_values_returns this o time w2) as (w3 & E & _ & _ & Hob & _ & Htr & _).
  { rewrite Et2. exact Ho. }
  exists w1, w2, w3. split; [reflexivity|]. split; [reflexivity|].
  split; [unfold get_easing, ret; rewrite Et2; reflexivity|].
  split; [unfold get_interpolation, ret; rewrite Et2; reflexivity|].
  split; [exact E|].
  split; [rewrite Htr, Et2; reflexivity|].
  unfold obj_get. rewrite Hob, interpolated_in.
  - unfold tweened_value. rewrite Et2. simpl. fold tw. rewrite He. reflexivity.
  - rewrite Et2. exact Hin.
Qed.

Lemma easing_setters_take_effect_witness :
  exists w1 w2 w3,
    set_easing 0%nat (fun k => k * k) keyframe_loop_world = Ok tt w1 /\
    set_interpolation 0%nat (fun _ k => k + 1) w1 = Ok tt w2 /\
    update_values 0%nat (num_of_Z 50) w2 = Ok tt w3 /\
    obj_get (objects w3 0%nat) "x"%string = VNum (Q2Qc (5 # 4)).
Proof.
  destruct (easing_setters_take_effect 0%nat 0%nat "x"%string
              [VNum 0; VNum (num_of_Z 10)] (fun k => k * k) (fun _ k => k + 1)
              (num_of_Z 50) keyframe_loop_world)
    as (w1 & w2 & w3 & E1 & E2 & _ & _ & E3 & _ & Hx).
  - vm_compute. reflexivity.
  - vm_compute. left. reflexivity.
  - vm_compute. reflexivity.
  - exists w1, w2, w3. split; [exact E1|]. split; [exact E2|]. split; [exact E3|].
    rewrite Hx. apply f_equal. apply Qc_is_canon. vm_compute. reflexivity.
Defined.

(** ** The range of the interpolation *)








(** ** [update] on a tween that has not been started *)

Lemma one_le_div (e d : num) : 0 < d -> d <= e -> 1 <= e / d.
Proof.
  intros Hd He. unfold Qcdiv.
  rewrite <- (Qcmult_inv_r d (pos_nonzero d Hd)).
  apply Qcmult_le_compat_r; [exact He|]. apply Qclt_le_weak, inv_pos, Hd.
Qed.

(** Lines 362-380 on a tween that has captured nothing. *)
Lemma update_values_blank (this : TweenId) (time : num) (w : World) :
  let tw := tweens w this in
  _valuesStart tw = [] ->
  let el := elapsed_at tw time in
  let tw1 := set_tempValue (_easingFunction tw el) (set_tempElapsed el tw) in
  exists w1, update_values this time w = Ok tt w1 /\
    tweens w1 this = tw1 /\
    (forall j, j <> this -> tweens w1 j = tweens w j) /\
    objects w1 = objects w /\
    trace w1 = trace w ++ [OnUpdate this (_object tw) (_easingFunction tw el)] /\
    time_now w1 = time_now w.
Proof.
  intros tw Hvs el tw1. unfold update_values, bind, modify_tween. cbv beta iota.
  match goal with
  | |- context [for_each ?l _ ?w0] => remember w0 as wa eqn:Ewa
  end.
  assert (Ea : tweens wa this = tw1).
  { subst wa. simpl. rewrite !upd_same. reflexivity. }
  assert (Hja : forall j, j <> this -> tweens wa j = tweens w j).
  { intros j Hj. subst wa. simpl. rewrite !upd_other by exact Hj. reflexivity. }
  assert (Hwa : objects wa = objects w /\ trace wa = trace w /\ time_now wa = time_now w).
  { subst wa. repeat split. }
  destruct Hwa as (Hoa & Htra & Hna). clear Ewa.
  rewrite Ea. simpl (_valuesStart tw1). fold tw. rewrite Hvs. simpl for_each.
  eexists. split; [reflexivity|]. simpl.
  split; [exact Ea|]. split; [exact Hja|]. split; [exact Hoa|].
  split; [rewrite Htra, Ea; reflexivity | exact Hna].
Qed.

(** X3. [update] does not wait for [start]: on a tween fresh from the
    constructor and configured by [to] without [autoStart], a call at a time
    that is at least the duration finds [_startTime] still null, takes the
    elapsed time to be 1, dispatches the update and the completion signal
    and returns false, without having written to any target. *)
Theorem update_before_start_completes (this : TweenId) (object : option ObjId)
    (easing : num -> num) (interpolation : list value -> num -> num)
    (properties : jsobj) (duration : num) (ease : option (num -> num)) (delay time : num)
    (w : World) :
  tweens w this = Tween_new object easing interpolation ->
  0 < duration ->
  duration <= time ->
  let e := match ease with Some f => f | None => easing end in
  exists w1 w2,
    to this properties duration ease false delay false false w = Ok (Some this) w1 /\
    update this time w1 = Ok false w2 /\
    trace w2 = trace w ++ [OnUpdate this object (e 1); OnComplete this object] /\
    objects w2 = objects w /\
    isRunning (tweens w2 this) = false.
Proof.
  intros Hnew Hd Ht e.
  destruct (to_steps this properties duration ease delay false false w)
    as (w1 & E0 & _ & Et & Htr & Hobj & _ & _).
  rewrite Hnew in Et.
  assert (F : _paused (tweens w1 this) = false /\ _startTime (tweens w1 this) = 0 /\
              _duration (tweens w1 this) = duration /\ _valuesStart (tweens w1 this) = [] /\
              _easingFunction (tweens w1 this) = e /\ _object (tweens w1 this) = object /\
              _yoyo (tweens w1 this) = false /\ _loop (tweens w1 this) = false /\
              _chainedTweens (tweens w1 this) = []).
  { rewrite Et. subst e. destruct ease, (num_ltb 0 delay); repeat split. }
  destruct F as (Fp & Fst & Fd & Fvs & Fe & Fo & Fy & Fl & Fc).
  assert (Hpos : 0 <= time).
  { apply Qcle_trans with duration; [apply Qclt_le_weak; exact Hd | exact Ht]. }
  assert (G : _paused (tweens w1 this) || num_ltb time (_startTime (tweens w1 this)) = false).
  { rewrite Fp, Fst. simpl. apply num_ltb_ge. exact Hpos. }
  assert (Hel : elapsed_at (tweens w1 this) time = 1).
  { unfold elapsed_at. rewrite Fst, Fd. apply clamp_elapsed_one.
    replace (time - 0) with time by ring. apply one_le_div; assumption. }
  destruct (update_values_blank this time w1 Fvs) as (w2 & E2 & Et2 & _ & Hobj2 & Htr2 & _).
  rewrite Hel, Fe in Et2, Htr2. rewrite Fo in Htr2.
  assert (Eu : update this time w1 = update_finish this w2).
  { unfold update. rewrite G. unfold bind. rewrite E2, Et2. simpl (_tempElapsed _).
    rewrite num_eqb_refl. reflexivity. }
  exists w1. eexists. split; [exact E0|]. rewrite Eu.
  unfold update_finish. rewrite Et2.
  simpl (_yoyo _). simpl (_loop _). simpl (_chainedTweens _). simpl (_object _).
  rewrite Fy, Fl, Fc, Fo. unfold bind, emit, start_chained. simpl.
  rewrite Et2. simpl (_chainedTweens _). rewrite Fc. simpl.
  split; [reflexivity|]. simpl. rewrite upd_same, Htr2, Htr, <- app_assoc. simpl.
  split; [reflexivity|]. split; [rewrite Hobj2; exact Hobj | reflexivity].
Qed.

Lemma update_before_start_completes_witness :
  exists w1 w2,
    to 0%nat [("x"%string, VNum (num_of_Z 10))] (num_of_Z 100) None false 0 false false
       sample_world = Ok (Some 0%nat) w1 /\
    update 0%nat (num_of_Z 150) w1 = Ok false w2 /\
    objects w2 = objects sample_world.
Proof.
  destruct (update_before_start_completes 0%nat (Some 0%nat) linear_none last_keyframe
              [("x"%string, VNum (num_of_Z 10))] (num_of_Z 100) None 0 (num_of_Z 150)
              sample_world) as (w1 & w2 & E1 & E2 & _ & Hobj & _).
  - vm_compute. reflexivity.
  - vm_compute. reflexivity.
  - vm_compute. discriminate.
  - exists w1, w2. split; [exact E1|]. split; [exact E2 | exact Hobj].
Defined.

(** ** A tween without a target *)

Lemma stays_blank_preorder : tween_preorder stays_blank.
Proof.
  split.
  - intro tw. split; auto.
  - intros t1 t2 t3 (A & B) (A' & B'). split; [congruence|].
    intros H1 H2. apply B'; [congruence | apply B; assumption].
Qed.

Lemma stays_blank_inv (w w' : World) :
  tweenwise stays_blank w w' -> unbound_blank w -> unbound_blank w'.
Proof.
  intros K H j Hn. destruct (K j) as (A & B).
  rewrite A in Hn. apply B; [exact Hn | apply H; exact Hn].
Qed.

(** An edit that leaves [_object] and [_valuesStart] alone. *)
Lemma stays_blank_edit (f : Tween -> Tween) :
  (forall tw, _object (f tw) = _object tw) ->
  (forall tw, _valuesStart (f tw) = _valuesStart tw) ->
  forall tw, stays_blank tw (f tw).
Proof. intros Ho Hs tw. split; [apply Ho | intros _ H; rewrite Hs; exact H]. Qed.

Lemma modify_tween_stays_blank (this : TweenId) (f : Tween -> Tween) :
  (forall tw, _object (f tw) = _object tw) ->
  (forall tw, _valuesStart (f tw) = _valuesStart tw) ->
  within (tweenwise stays_blank) (modify_tween this f).
Proof.
  intros Ho Hs. apply modify_tween_tweenwise; [apply stays_blank_preorder|].
  apply stays_blank_edit; assumption.
Qed.

Lemma start_stays_blank (c : TweenId) (looped : bool) :
  within (tweenwise stays_blank) (start c looped).
Proof.
  intros w j.
  destruct (_object (tweens w c)) as [o|] eqn:Eo.
  - split; [apply start_keeps; stable|].
    intros Hn Hvs. rewrite (start_other j c looped w); [exact Hvs|].
    intro E. subst j. congruence.
  - rewrite start_unbound by (right; exact Eo). apply (tp_refl _ stays_blank_preorder).
Qed.

Lemma reverse_stays_blank (c : TweenId) : within (tweenwise stays_blank) (reverse c).
Proof.
  intros w j. split.
  - apply (reverse_tweenwise (keeps _object) (keeps_preorder _)
             (start_stable_edits _object ltac:(stable)) c (fun _ => eq_refl) w j).
  - intros Hn Hvs. destruct (Nat.eq_dec j c) as [->|Hne].
    + unfold reverse, bind. rewrite Hvs. simpl.
      rewrite start_unbound; [simpl; rewrite upd_same; exact Hvs|].
      right. simpl. rewrite upd_same. exact Hn.
    + rewrite (reverse_only c w j Hne). exact Hvs.
Qed.

Lemma update_stays_blank (this : TweenId) (time : num) :
  within (tweenwise stays_blank) (update this time).
Proof.
  apply update_within.
  - apply stays_blank_preorder.
  - apply start_stays_blank.
  - apply reverse_stays_blank.
  - split; [|split; [|split]]; intros; (split; [reflexivity | intros _ H; exact H]).
Qed.

Lemma reachable_unbound_blank (w : World) : reachable w -> unbound_blank w.
Proof.
  pose proof stays_blank_preorder as HF.
  pose proof (tweenwise_preorder _ HF) as HR.
  assert (Hm : forall this f,
            (forall tw, _object (f tw) = _object tw) ->
            (forall tw, _valuesStart (f tw) = _valuesStart tw) ->
            within (tweenwise stays_blank) (modify_tween this f)).
  { intros. apply modify_tween_stays_blank; assumption. }
  induction 1 as [w Hnew | w this p d e a dl lp yy _ IH | w this v _ IH | w this v _ IH
                 | w this t _ IH | w this _ IH | w this _ IH
                 | w this g _ IH | w this a _ IH | w this f _ IH | w this f _ IH
                 | w this _ IH | w this time _ IH | w now pd h _ IH].
  - intros j _. destruct (Hnew j) as (ob & ea & ip & E). rewrite E. reflexivity.
  - eapply stays_blank_inv; [|exact IH]. unfold to.
    repeat (apply (within_bind _ HR); [|intros _]);
      try (apply Hm; intro; reflexivity).
    + destruct e; [apply Hm; intro; reflexivity | apply (within_ret _ HR)].
    + destruct (num_ltb 0 dl); [apply Hm; intro; reflexivity | apply (within_ret _ HR)].
    + destruct a; [apply start_stays_blank | apply (within_ret _ HR)].
  - eapply stays_blank_inv; [|exact IH].
    apply (within_bind _ HR); [apply Hm; intro; reflexivity | intros _; apply (within_ret _ HR)].
  - eapply stays_blank_inv; [|exact IH].
    apply (within_bind _ HR); [apply Hm; intro; reflexivity | intros _].
    apply (within_bind _ HR); [apply Hm; intro; reflexivity | intros _; apply (within_ret _ HR)].
  - eapply stays_blank_inv; [|exact IH].
    apply (within_bind _ HR); [apply Hm; intro; reflexivity | intros _; apply (within_ret _ HR)].
  - eapply stays_blank_inv; [|exact IH]. apply Hm; intro; reflexivity.
  - eapply stays_blank_inv; [|exact IH].
    apply (within_bind _ HR); [apply Hm; intro; reflexivity | intros _].
    intro w0; cbv beta. apply Hm; intro; reflexivity.
  - eapply stays_blank_inv; [|exact IH].
    apply (within_bind _ HR); [apply Hm; intro; reflexivity | intros _].
    destruct g; [apply (within_ret _ HR) | apply (within_throw _ HR)].
  - eapply stays_blank_inv; [|exact IH]. apply Hm; intro; reflexivity.
  - eapply stays_blank_inv; [|exact IH]. apply Hm; intro; reflexivity.
  - eapply stays_blank_inv; [|exact IH]. apply Hm; intro; reflexivity.
  - eapply stays_blank_inv; [|exact IH]. apply start_stays_blank.
  - eapply stays_blank_inv; [|exact IH]. apply update_stays_blank.
  - exact IH.
Qed.

Lemma no_type_error_bind {A B : Type} (m : M A) (k : A -> M B) (w : World) :
  no_type_error (m w) ->
  (forall a w', m w = Ok a w' -> no_type_error (k a w')) ->
  no_type_error (bind m k w).
Proof.
  unfold no_type_error, bind. intros Hm Hk.
  destruct (m w) as [a w'|e w']; [apply (Hk a w' eq_refl)|].
  simpl in *. intro E. apply Hm. congruence.
Qed.

Lemma no_type_error_ok {A : Type} (a : A) (w : World) : no_type_error (Ok a w).
Proof. unfold no_type_error. simpl. discriminate. Qed.

(** [start] throws the error of line 207 or nothing. *)
Lemma start_no_type_error (c : TweenId) (looped : bool) (w : World) :
  no_type_error (start c looped w).
Proof.
  destruct (game (tweens w c)) as [g|] eqn:Eg;
    [destruct (_object (tweens w c)) as [o|] eqn:Eo|].
  - destruct (start_maps_final c o looped w) as (done & rest & _ & Hout & _).
    + rewrite Eg. discriminate.
    + exact Eo.
    + unfold no_type_error.
      destruct Hout as [(_ & ->) | (k & after & _ & _ & ->)]; discriminate.
  - rewrite start_unbound by (right; exact Eo). apply no_type_error_ok.
  - rewrite start_unbound by (left; exact Eg). apply no_type_error_ok.
Qed.

Lemma start_chained_no_type_error (chained : list TweenId) (w : World) :
  no_type_error (start_chained chained w).
Proof.
  revert w. induction chained as [|c cs IH]; intro w; [apply no_type_error_ok|].
  unfold start_chained. simpl for_each.
  apply no_type_error_bind.
  - apply no_type_error_bind; [apply start_no_type_error|].
    intros a w' _. apply no_type_error_ok.
  - intros _ w' _. apply IH.
Qed.

Lemma reverse_no_type_error (c : TweenId) (w : World) : no_type_error (reverse c w).
Proof.
  unfold reverse. apply no_type_error_bind.
  - destruct (reverse_loop_returns c (own_keys (_valuesStart (tweens w c))) w) as (w1 & E).
    rewrite E. apply no_type_error_ok.
  - intros _ w1 _. apply no_type_error_bind; [apply no_type_error_ok|].
    intros _ w2 _. apply start_no_type_error.
Qed.

(** The two loops that assign to the target go through when the tween
    has a target or nothing to assign. *)
Lemma write_loop_ok (this : TweenId) (body : ident -> M unit) (w : World) :
  body = update_property this \/ body = reset_property this ->
  (_object (tweens w this) = None -> _valuesStart (tweens w this) = []) ->
  exists w1, for_each (own_keys (_valuesStart (tweens w this))) body w = Ok tt w1 /\
    tweens w1 = tweens w.
Proof.
  intros Hb Hblank.
  destruct (_object (tweens w this)) as [o|] eqn:Eo.
  - destruct Hb as [-> | ->].
    + destruct (update_loop_returns this o (own_keys (_valuesStart (tweens w this))) w Eo)
        as (w1 & E & Ht & _). exists w1. auto.
    + destruct (reset_loop_returns this o w Eo) as (w1 & E & Ht & _). exists w1. auto.
  - rewrite (Hblank eq_refl). exists w. split; reflexivity.
Qed.

Lemma reset_no_type_error (this : TweenId) (w : World) :
  (_object (tweens w this) = None -> _valuesStart (tweens w this) = []) ->
  no_type_error (reset this w).
Proof.
  intro Hblank. unfold reset. apply no_type_error_bind.
  - destruct (write_loop_ok this (reset_property this) w (or_intror eq_refl) Hblank)
      as (w1 & E & _). rewrite E. apply no_type_error_ok.
  - intros _ w1 _. apply start_no_type_error.
Qed.

Lemma update_finish_no_type_error (this : TweenId) (w : World) :
  (_object (tweens w this) = None -> _valuesStart (tweens w this) = []) ->
  no_type_error (update_finish this w).
Proof.
  intro Hblank. unfold update_finish.
  assert (Hdone : forall k : M bool, (forall w', no_type_error (k w')) ->
            no_type_error ((emit (OnComplete this (_object (tweens w this))) ;;
                            start_chained (_chainedTweens (tweens w this)) ;; k) w)).
  { intros k Hk. apply no_type_error_bind; [apply no_type_error_ok|].
    intros _ w1 _. apply no_type_error_bind; [apply start_chained_no_type_error|].
    intros _ w2 _. apply Hk. }
  assert (Hrev : forall w', no_type_error ((reverse this ;; ret true) w')).
  { intro w'. apply no_type_error_bind; [apply reverse_no_type_error|].
    intros _ w2 _. apply no_type_error_ok. }
  destruct (_yoyo (tweens w this)).
  - destruct (Nat.eqb (_yoyoCount (tweens w this)) 0); [apply Hrev|].
    destruct (_loop (tweens w this)); simpl negb; cbv iota.
    + apply no_type_error_bind; [apply no_type_error_ok|]. intros _ w1 _. apply Hrev.
    + apply Hdone. intro w'. apply no_type_error_ok.
  - destruct (_loop (tweens w this)).
    + apply no_type_error_bind; [apply no_type_error_ok|]. intros [] w1 E.
      apply no_type_error_bind; [|intros _ w2 _; apply no_type_error_ok].
      apply reset_no_type_error. injection E as <-. simpl. rewrite upd_same. exact Hblank.
    + apply Hdone. intro w'. apply no_type_error_bind.
      * destruct (Nat.eqb _ 0); apply no_type_error_ok.
      * intros _ w2 _. apply no_type_error_ok.
Qed.

Lemma update_no_type_error (this : TweenId) (time : num) (w : World) :
  (_object (tweens w this) = None -> _valuesStart (tweens w this) = []) ->
  no_type_error (update this time w).
Proof.
  intro Hblank. unfold update.
  destruct (_paused (tweens w this) || num_ltb time (_startTime (tweens w this)));
    [apply no_type_error_ok|].
  destruct (update_values_final this time w) as (Et & _).
  apply no_type_error_bind.
  - unfold update_values.
    apply no_type_error_bind; [apply no_type_error_ok | intros [] w1 E1].
    apply no_type_error_bind; [apply no_type_error_ok | intros [] w2 E2].
    apply no_type_error_bind; [|intros _ w3 _; apply no_type_error_ok].
    destruct (write_loop_ok this (update_property this) w2 (or_introl eq_refl)) as (w3 & E3 & _).
    + injection E2 as <-. injection E1 as <-. simpl. rewrite !upd_same. exact Hblank.
    + rewrite E3. apply no_type_error_ok.
  - intros [] w1 E1. rewrite E1 in Et. simpl in Et.
    destruct (num_eqb _ 1); [|apply no_type_error_ok].
    apply update_finish_no_type_error. rewrite Et. exact Hblank.
Qed.

(** X28. In every state a client can reach, a tween without a target
    has captured nothing, so that [update] never comes to assign to a null
    target: a call of [update] returns, or throws the interpolation error of
    a restart or of a chained start, and nothing else. *)
Theorem update_never_fails_on_the_target (w : World) (this : TweenId) (time : num) :
  reachable w ->
  (_object (tweens w this) = None -> _valuesStart (tweens w this) = []) /\
  outcome (update this time w) <> inr TypeError /\
  (forall e, outcome (update this time w) = inr e -> e = InterpolationError).
Proof.
  intro Hr. pose proof (reachable_unbound_blank w Hr this) as Hb.
  pose proof (update_no_type_error this time w Hb) as Hn.
  split; [exact Hb|]. split; [exact Hn|].
  intros [|] He; [reflexivity | contradiction].
Qed.

Lemma update_never_fails_on_the_target_witness :
  outcome (update 2%nat (num_of_Z 1000) plain_world) <> inr TypeError.
Proof.
  apply (update_never_fails_on_the_target plain_world 2%nat (num_of_Z 1000)).
  unfold plain_world. apply reach_to. apply sample_world_reachable.
Defined.

(** ** Fields that are not read *)

Section Unread.
Variable forget : Tween -> Tween.
Hypothesis Hun : unread forget.

Lemma respects_ret {A : Type} (a : A) : respects forget (ret a).
Proof. intros w w' H. split; [reflexivity | exact H]. Qed.

Lemma respects_throw {A : Type} (e : Error) : respects forget (@throw A e).
Proof. intros w w' H. split; [reflexivity | exact H]. Qed.

Lemma respects_bind {A B : Type} (m : M A) (k : A -> M B) :
  respects forget m -> (forall a, respects forget (k a)) -> respects forget (bind m k).
Proof.
  intros Hm Hk w w' H. unfold bind. destruct (Hm w w' H) as (Eo & Ha).
  destruct (m w) as [a w1|e w1], (m w') as [a' w1'|e' w1']; simpl in Eo, Ha;
    try discriminate.
  - injection Eo as ->. apply Hk. exact Ha.
  - injection Eo as ->. split; [reflexivity | exact Ha].
Qed.

Lemma respects_for_each {A : Type} (l : list A) (body : A -> M unit) :
  (forall x, respects forget (body x)) -> respects forget (for_each l body).
Proof.
  intro H. induction l as [|x l IH]; simpl.
  - apply respects_ret.
  - apply respects_bind; [apply H | intros _; exact IH].
Qed.

Lemma respects_emit (e : Event) : respects forget (emit e).
Proof.
  intros w w' (Hn & Hp & Ho & Ht & Hj). split; [reflexivity|].
  repeat split; simpl; auto. rewrite Ht. reflexivity.
Qed.

Lemma respects_write_object (o : ObjId) (k : ident) (v : value) :
  respects forget (write_object o k v).
Proof.
  intros w w' (Hn & Hp & Ho & Ht & Hj). split; [reflexivity|].
  repeat split; simpl; auto. rewrite Ho. reflexivity.
Qed.

Lemma respects_modify_tween (this : TweenId) (f : Tween -> Tween) :
  (forall tw tw', forget tw' = forget tw -> forget (f tw') = forget (f tw)) ->
  respects forget (modify_tween this f).
Proof.
  intros Hf w w' (Hn & Hp & Ho & Ht & Hj). split; [reflexivity|].
  repeat split; simpl; auto. intro j. unfold upd.
  destruct (Nat.eqb j this); [apply Hf|]; apply Hj.
Qed.

(** What can be read through [forget] is the same in two such states. *)
Lemma alike_read {X : Type} (proj : Tween -> X) (w w' : World) (j : TweenId) :
  (forall tw, proj (forget tw) = proj tw) ->
  alike forget w w' -> proj (tweens w' j) = proj (tweens w j).
Proof.
  intros Hp (_ & _ & _ & _ & Hj).
  rewrite <- (Hp (tweens w' j)), <- (Hp (tweens w j)), Hj. reflexivity.
Qed.

Lemma forget_read {X : Type} (proj : Tween -> X) (tw tw' : Tween) :
  (forall t, proj (forget t) = proj t) ->
  forget tw' = forget tw -> proj tw' = proj tw.
Proof. intros Hp E. rewrite <- (Hp tw'), <- (Hp tw), E. reflexivity. Qed.

Lemma forget_set_valuesStart (g : Tween -> jsobj) (tw tw' : Tween) :
  g tw' = g tw -> forget tw' = forget tw ->
  forget (set_valuesStart (g tw') tw') = forget (set_valuesStart (g tw) tw).
Proof.
  intros Eg E. rewrite Eg, (un_set_valuesStart _ Hun _ tw'), (un_set_valuesStart _ Hun _ tw), E.
  reflexivity.
Qed.

Lemma forget_set_valuesEnd (g : Tween -> jsobj) (tw tw' : Tween) :
  g tw' = g tw -> forget tw' = forget tw ->
  forget (set_valuesEnd (g tw') tw') = forget (set_valuesEnd (g tw) tw).
Proof.
  intros Eg E. rewrite Eg, (un_set_valuesEnd _ Hun _ tw'), (un_set_valuesEnd _ Hun _ tw), E.
  reflexivity.
Qed.

Lemma respects_start_property (this : TweenId) (target : ObjId) (looped : bool)
    (property : ident) :
  respects forget (start_property this target looped property).
Proof.
  intros w w' H. pose proof H as (Hn & Hp & Ho & Ht & Hj).
  unfold start_property. rewrite Ho.
  destruct (is_null _ || negb _); [apply respects_throw; exact H|].
  rewrite (alike_read _valuesEnd w w' this (un_valuesEnd _ Hun) H).
  assert (Hvs : forall cur, respects forget
            (modify_tween this (fun tw =>
               set_valuesStart (obj_set (_valuesStart tw) property cur) tw))).
  { intro cur. apply respects_modify_tween. intros tw tw' E.
    apply (forget_set_valuesStart (fun t => obj_set (_valuesStart t) property cur)); [|exact E].
    rewrite (forget_read _valuesStart tw tw' (un_valuesStart _ Hun) E). reflexivity. }
  assert (Hve : forall v, respects forget
            (modify_tween this (fun tw =>
               set_valuesEnd (obj_set (_valuesEnd tw) property v) tw))).
  { intro v. apply respects_modify_tween. intros tw tw' E.
    apply (forget_set_valuesEnd (fun t => obj_set (_valuesEnd t) property v)); [|exact E].
    rewrite (forget_read _valuesEnd tw tw' (un_valuesEnd _ Hun) E). reflexivity. }
  destruct (obj_get (_valuesEnd (tweens w this)) property) as [| |x|[|k ks]|];
    try (destruct looped; simpl negb; cbv iota;
         [apply respects_ret; exact H | apply Hvs; exact H]).
  - apply respects_ret. exact H.
  - apply respects_bind; [apply Hve | | exact H].
    intros _. destruct looped; simpl negb; cbv iota; [apply respects_ret | apply Hvs].
Qed.

Lemma respects_start (this : TweenId) (looped : bool) : respects forget (start this looped).
Proof.
  intros w w' H. pose proof H as (Hn & Hp & Ho & Ht & Hj).
  unfold start.
  rewrite (alike_read game w w' this (un_game _ Hun) H).
  rewrite (alike_read _object w w' this (un_object _ Hun) H).
  destruct (game (tweens w this)); [|apply respects_ret; exact H].
  destruct (_object (tweens w this)) as [target|]; [|apply respects_ret; exact H].
  clear Hn Hp Ho Ht Hj. revert w w' H.
  change (respects forget
    (start_begin this target looped ;;
     (fun w' => for_each (own_keys (_valuesEnd (tweens w' this)))
                  (start_property this target looped) w') ;;
     ret (Some this))).
  apply respects_bind; [|intros _].
  { unfold start_begin. apply respects_bind; [|intros _].
    - destruct looped; simpl negb; cbv iota; [apply respects_ret|].
      apply respects_bind; [apply respects_emit | intros _; apply respects_emit].
    - intros w w' H. cbv beta. pose proof H as (Hn & _).
      rewrite Hn. clear Hn. revert H. generalize (time_now w). intros now H.
      revert w w' H.
      change (respects forget (modify_tween this (fun tw =>
                set_isRunning true (set_startTime (now + _delayTime tw) tw)))).
      apply respects_modify_tween. intros tw tw' E.
      rewrite (forget_read _delayTime tw tw' (un_delayTime _ Hun) E).
      rewrite (un_set_isRunning _ Hun), (un_set_startTime _ Hun), E,
              <- (un_set_startTime _ Hun), <- (un_set_isRunning _ Hun).
      reflexivity. }
  apply respects_bind; [|intros _; apply respects_ret].
  intros w w' H. cbv beta.
  rewrite (alike_read _valuesEnd w w' this (un_valuesEnd _ Hun) H).
  apply respects_for_each; [|exact H]. intro property. apply respects_start_property.
Qed.

Lemma respects_start_chained (chained : list TweenId) :
  respects forget (start_chained chained).
Proof.
  apply respects_for_each. intro c.
  apply respects_bind; [apply respects_start | intros _; apply respects_ret].
Qed.

Lemma respects_reverse (this : TweenId) : respects forget (reverse this).
Proof.
  unfold reverse. apply respects_bind; [|intros _].
  { intros w w' H. cbv beta.
    rewrite (alike_read _valuesStart w w' this (un_valuesStart _ Hun) H).
    apply respects_for_each; [|exact H]. clear w w' H. intros property w w' H.
    unfold reverse_property.
    rewrite (alike_read _valuesStart w w' this (un_valuesStart _ Hun) H).
    apply respects_bind; [| |exact H].
    - apply respects_modify_tween. intros tw tw' E.
      apply (forget_set_valuesStart
               (fun t => obj_set (_valuesStart t) property (obj_get (_valuesEnd t) property)));
        [|exact E].
      rewrite (forget_read _valuesStart tw tw' (un_valuesStart _ Hun) E),
              (forget_read _valuesEnd tw tw' (un_valuesEnd _ Hun) E). reflexivity.
    - intros _. apply respects_modify_tween. intros tw tw' E.
      apply (forget_set_valuesEnd (fun t => obj_set (_valuesEnd t) property _)); [|exact E].
      rewrite (forget_read _valuesEnd tw tw' (un_valuesEnd _ Hun) E). reflexivity. }
  apply respects_bind; [|intros _; apply respects_start].
  apply respects_modify_tween. intros tw tw' E.
  rewrite (forget_read _yoyoCount tw tw' (un_yoyoCount _ Hun) E).
  rewrite (un_set_yoyoCount _ Hun), E, <- (un_set_yoyoCount _ Hun). reflexivity.
Qed.

Lemma respects_reset (this : TweenId) : respects forget (reset this).
Proof.
  unfold reset. apply respects_bind; [|intros _; apply respects_start].
  intros w w' H. cbv beta.
  rewrite (alike_read _valuesStart w w' this (un_valuesStart _ Hun) H).
  apply respects_for_each; [|exact H]. clear w w' H. intros property w w' H.
  unfold reset_property.
  rewrite (alike_read _valuesStart w w' this (un_valuesStart _ Hun) H).
  rewrite (alike_read _object w w' this (un_object _ Hun) H).
  destruct (_object (tweens w this));
    [apply respects_write_object | apply respects_throw]; exact H.
Qed.

Lemma respects_set_yoyoCount (this : TweenId) (n : nat) :
  respects forget (modify_tween this (set_yoyoCount n)).
Proof.
  apply respects_modify_tween. intros tw tw' E.
  rewrite (un_set_yoyoCount _ Hun), E, <- (un_set_yoyoCount _ Hun). reflexivity.
Qed.

Lemma respects_update_finish (this : TweenId) : respects forget (update_finish this).
Proof.
  intros w w' H. unfold update_finish.
  rewrite (alike_read _yoyo w w' this (un_yoyo _ Hun) H).
  rewrite (alike_read _yoyoCount w w' this (un_yoyoCount _ Hun) H).
  rewrite (alike_read _loop w w' this (un_loop _ Hun) H).
  rewrite (alike_read _object w w' this (un_object _ Hun) H).
  rewrite (alike_read _chainedTweens w w' this (un_chainedTweens _ Hun) H).
  destruct (_yoyo (tweens w this)).
  - destruct (Nat.eqb (_yoyoCount (tweens w this)) 0).
    + apply respects_bind; [apply respects_reverse | intros _; apply respects_ret | exact H].
    + destruct (_loop (tweens w this)); simpl negb; cbv iota.
      * apply respects_bind; [apply respects_set_yoyoCount | intros _ | exact H].
        apply respects_bind; [apply respects_reverse | intros _; apply respects_ret].
      * apply respects_bind; [apply respects_emit | intros _ | exact H].
        apply respects_bind; [apply respects_start_chained | intros _; apply respects_ret].
  - destruct (_loop (tweens w this)).
    + apply respects_bind; [apply respects_set_yoyoCount | intros _ | exact H].
      apply respects_bind; [apply respects_reset | intros _; apply respects_ret].
    + apply respects_bind; [apply respects_emit | intros _ | exact H].
      apply respects_bind; [apply respects_start_chained | intros _].
      apply respects_bind; [|intros _; apply respects_ret].
      intros w1 w1' H1. cbv beta.
      rewrite (alike_read _chainedTweens w1 w1' this (un_chainedTweens _ Hun) H1).
      destruct (Nat.eqb _ 0); [|apply respects_ret; exact H1].
      apply respects_modify_tween; [|exact H1]. intros tw tw' E.
      rewrite (un_set_isRunning _ Hun), E, <- (un_set_isRunning _ Hun). reflexivity.
Qed.

Lemma tweened_value_read (tw tw' : Tween) (property : ident) :
  forget tw' = forget tw -> tweened_value tw' property = tweened_value tw property.
Proof.
  intro E. unfold tweened_value.
  rewrite (forget_read _valuesEnd tw tw' (un_valuesEnd _ Hun) E),
          (forget_read _valuesStart tw tw' (un_valuesStart _ Hun) E),
          (forget_read _interpolationFunction tw tw' (un_interpolationFunction _ Hun) E),
          (forget_read _tempValue tw tw' (un_tempValue _ Hun) E).
  reflexivity.
Qed.

Lemma respects_after_elapsed (this : TweenId) : respects forget (after_elapsed this).
Proof.
  unfold after_elapsed. apply respects_bind.
  - apply respects_bind; [|intros _].
    { apply respects_modify_tween. intros tw tw' E.
      rewrite (forget_read _easingFunction tw tw' (un_easingFunction _ Hun) E),
              (forget_read _tempElapsed tw tw' (un_tempElapsed _ Hun) E).
      rewrite (un_set_tempValue _ Hun), E, <- (un_set_tempValue _ Hun). reflexivity. }
    apply respects_bind; [|intros _].
    + intros w w' H. cbv beta.
      rewrite (alike_read _valuesStart w w' this (un_valuesStart _ Hun) H).
      apply respects_for_each; [|exact H]. clear w w' H. intros property w w' H.
      unfold update_property.
      rewrite (alike_read _object w w' this (un_object _ Hun) H).
      destruct (_object (tweens w this)); [|apply respects_throw; exact H].
      rewrite (tweened_value_read (tweens w this) (tweens w' this) property)
        by (destruct H as (_ & _ & _ & _ & Hj); apply Hj).
      apply respects_write_object. exact H.
    + intros w w' H. cbv beta.
      rewrite (alike_read _object w w' this (un_object _ Hun) H),
              (alike_read _tempValue w w' this (un_tempValue _ Hun) H).
      apply respects_emit. exact H.
  - intros _ w w' H. cbv beta.
    rewrite (alike_read _tempElapsed w w' this (un_tempElapsed _ Hun) H).
    destruct (num_eqb _ 1); [apply respects_update_finish | apply respects_ret]; exact H.
Qed.

(** [update] past line 357 is the assignment of line 363, then
    [after_elapsed]. *)
Lemma update_after_elapsed (this : TweenId) (time : num) (w : World) :
  _paused (tweens w this) || num_ltb time (_startTime (tweens w this)) = false ->
  update this time w =
    after_elapsed this
      (final (modify_tween this (set_tempElapsed (elapsed_at (tweens w this) time)) w)).
Proof. intro H. unfold update. rewrite H. reflexivity. Qed.

(** Two states that differ in the forgotten field only, and in which
    [update] takes the same way at line 357 and computes the same elapsed
    time, are not told apart by [update]. *)
Lemma respects_update (this : TweenId) (time time' : num) (w w' : World) :
  alike forget w w' ->
  _paused (tweens w' this) || num_ltb time' (_startTime (tweens w' this)) =
    _paused (tweens w this) || num_ltb time (_startTime (tweens w this)) ->
  elapsed_at (tweens w' this) time' = elapsed_at (tweens w this) time ->
  outcome (update this time' w') = outcome (update this time w) /\
  alike forget (final (update this time w)) (final (update this time' w')).
Proof.
  intros H Hg He.
  destruct (_paused (tweens w this) || num_ltb time (_startTime (tweens w this))) eqn:G.
  - unfold update. rewrite Hg, G. split; [reflexivity | exact H].
  - rewrite (update_after_elapsed this time w G), (update_after_elapsed this time' w' Hg).
    apply respects_after_elapsed. rewrite He.
    apply (respects_modify_tween this (set_tempElapsed (elapsed_at (tweens w this) time)));
      [|exact H].
    intros tw tw' E.
    rewrite (un_set_tempElapsed _ Hun), E, <- (un_set_tempElapsed _ Hun). reflexivity.
Qed.
End Unread.


Lemma isRunning_unread : unread (set_isRunning false).
Proof. split; intros; reflexivity. Qed.






(** X27. [isRunning] is a report and nothing more: neither [update] (with
    [reverse], [reset] and the chained starts it goes through) nor [start]
    ever reads it.  Change the flag of any tweens to anything: [update] and
    [start] return the same value or throw the same error, leave the same
    targets and dispatch the same signals. *)
Theorem isRunning_is_never_consulted (this : TweenId) (time : num) (looped : bool)
    (flags : TweenId -> bool) (w : World) :
  let w' := set_tweens (fun j => set_isRunning (flags j) (tweens w j)) w in
  (outcome (update this time w') = outcome (update this time w) /\
   objects (final (update this time w')) = objects (final (update this time w)) /\
   trace (final (update this time w')) = trace (final (update this time w))) /\
  (outcome (start this looped w') = outcome (start this looped w) /\
   trace (final (start this looped w')) = trace (final (start this looped w))).
Proof.
  intro w'.
  assert (H : alike (set_isRunning false) w w').
  { subst w'. repeat split. }
  split.
  - destruct (respects_update (set_isRunning false) isRunning_unread this time time w w' H)
      as (Eo & _ & _ & Hobj & Htr & _); [reflexivity | reflexivity | auto].
  - destruct (respects_start (set_isRunning false) isRunning_unread this looped w w' H)
      as (Eo & _ & _ & _ & Htr & _). auto.
Qed.
